(** * Verification of the two text filters of the repository

    [fix_cites.py] rewrites escaped citation macros of a LaTeX file in place;
    [number_citations.py] numbers the cross references of an AsciiDoc
    document against its References section.

    Both scripts are sequences of regular-expression searches and
    substitutions over Python [str] values.  The development therefore has
    three layers:

    - [Py]: Python strings as lists of Unicode code points, with the string
      methods the scripts call ([strip], [splitlines], [join], [str(int)],
      slicing);
    - [Re]: a backtracking matcher for the fragment of the [re] module the
      scripts use, with [search], [sub] and [findall] on top of it;
    - [NumberCitations] and [FixCites]: the functions of the two scripts,
      written over these layers, and [Proc]: their entry points over an
      explicit model of the process environment (files, standard streams,
      exit status, uncaught exceptions).

    [Notions] then names what the properties speak about (markers, runs
    of markers, escaped macros, heading lines, command lines) as plain
    functions on texts, together with the bookkeeping of the proofs about
    the matcher; the theorems relate the code to these notions. *)

From Stdlib Require Import Ascii String.
From stdpp Require Import gmap list.

Set Default Proof Using "Type".

(** ** Python strings *)

Module Py.

(** A [str] is a sequence of code points. *)
Abbreviation str := (list N).

(** ASCII literals. *)
Definition u (s : string) : str := N_of_ascii <$> list_ascii_of_string s.

Definition NL : N := 10.
Definition CR : N := 13.

(** [str.isspace] on one code point, which is also what [\s] matches in a
    [str] pattern: the Unicode white space of CPython. *)
Definition is_space (c : N) : bool :=
  ((9 <=? c) && (c <=? 13) || (28 <=? c) && (c <=? 32) ||
   (c =? 133) || (c =? 160) || (c =? 5760) ||
   (8192 <=? c) && (c <=? 8202) ||
   (c =? 8232) || (c =? 8233) || (c =? 8239) || (c =? 8287) ||
   (c =? 12288))%N.

(** Line boundaries of [str.splitlines]. *)
Definition is_linebreak (c : N) : bool :=
  ((10 <=? c) && (c <=? 13) || (28 <=? c) && (c <=? 30) ||
   (c =? 133) || (c =? 8232) || (c =? 8233))%N.

Fixpoint drop_while (p : N → bool) (s : str) : str :=
  match s with
  | c :: t => if p c then drop_while p t else s
  | [] => []
  end.

Fixpoint take_while (p : N → bool) (s : str) : str :=
  match s with
  | c :: t => if p c then c :: take_while p t else []
  | [] => []
  end.

(** [s.strip()] *)
Definition strip (s : str) : str :=
  reverse (drop_while is_space (reverse (drop_while is_space s))).

(** [s[a:b]] for non-negative [a] and [b] *)
Definition slice (a b : nat) (s : str) : str := take (b - a) (drop a s).

(** [s.splitlines()]: the lines without their terminators; [\r\n] is one
    terminator, and a terminator at the very end opens no further line. *)
Fixpoint splitlines (s : str) : list str :=
  match s with
  | [] => []
  | c :: t =>
      if is_linebreak c then
        [] :: match t with
              | d :: t' => if (c =? CR)%N && (d =? NL)%N then splitlines t'
                           else splitlines t
              | [] => splitlines t
              end
      else match splitlines t with
           | [] => [[c]]
           | l :: ls => (c :: l) :: ls
           end
  end.

(** [sep.join(parts)] *)
Fixpoint join (sep : str) (parts : list str) : str :=
  match parts with
  | [] => []
  | [x] => x
  | x :: xs => x ++ sep ++ join sep xs
  end.

(** Reading a stream in text mode with universal newlines, which is what
    [open(path, "r")] and [Path.read_text] do: [\r\n] and a single [\r]
    are read as [\n]. *)
Fixpoint universal_newlines (s : str) : str :=
  match s with
  | [] => []
  | c :: t =>
      if (c =? CR)%N then
        NL :: match t with
              | d :: t' => if (d =? NL)%N then universal_newlines t'
                           else universal_newlines t
              | [] => []
              end
      else c :: universal_newlines t
  end.

(** The pieces of [s] between the occurrences of [sep]: [s.split(sep)] for
    a separator of one character. *)
Fixpoint split_on (sep : N) (s : str) : list str :=
  match s with
  | [] => [[]]
  | c :: t =>
      if (c =? sep)%N then [] :: split_on sep t
      else match split_on sep t with
           | l :: ls => (c :: l) :: ls
           | [] => [[c]]
           end
  end.

(** [str(pathlib.Path(s))] on a POSIX system: the root is [//] for exactly
    two leading slashes and [/] for any other number of them; empty
    components and [.] components go away, and with them repeated and
    trailing slashes; nothing at all is [.].  47 is the slash, 46 the
    dot. *)
Definition path_root (s : str) : str :=
  match s with
  | 47 :: 47 :: 47 :: _ => [47]
  | 47 :: 47 :: _ => [47; 47]
  | 47 :: _ => [47]
  | _ => []
  end%N.

Definition path_component (x : str) : bool :=
  negb (bool_decide (x = [])) && negb (bool_decide (x = [46%N])).

Definition path_str (s : str) : str :=
  match path_root s ++ join [47%N] (List.filter path_component (split_on 47 s))
  with
  | [] => [46%N]
  | p => p
  end.

(** [str(n)] for a non-negative integer *)
Fixpoint digits (d : Decimal.uint) : str :=
  match d with
  | Decimal.Nil => []
  | Decimal.D0 d => 48%N :: digits d
  | Decimal.D1 d => 49%N :: digits d
  | Decimal.D2 d => 50%N :: digits d
  | Decimal.D3 d => 51%N :: digits d
  | Decimal.D4 d => 52%N :: digits d
  | Decimal.D5 d => 53%N :: digits d
  | Decimal.D6 d => 54%N :: digits d
  | Decimal.D7 d => 55%N :: digits d
  | Decimal.D8 d => 56%N :: digits d
  | Decimal.D9 d => 57%N :: digits d
  end.

Definition str_of_nat (n : nat) : str := digits (Nat.to_uint n).

Arguments u : simpl never.
Arguments strip : simpl never.
Arguments str_of_nat : simpl never.

End Py.

Import Py.

(** ** The fragment of [re] used by the scripts *)

Module Re.

(** Items of a bracketed character set. *)
Inductive citem :=
| CChar (c : N)          (* a literal character *)
| CSpace.                (* [\s] *)

(** Patterns.  [Cls neg items] is a one-character set, negated when [neg]
    holds; [Bol] and [Eol] are [^] and [$] under [re.MULTILINE]; [Grp] is the
    capturing group number 1 (no pattern of the scripts has a second one). *)
Inductive regex :=
| Eps
| Cls (neg : bool) (items : list citem)
| Seq (r1 r2 : regex)
| Star (r : regex)
| Plus (r : regex)
| Opt (r : regex)
| PlusLazy (r : regex)
| Grp (r : regex)
| Bol
| Eol.

Infix "⋅" := Seq (at level 41, right associativity).

Definition chr (c : N) : regex := Cls false [CChar c].
Definition space : regex := Cls false [CSpace].
(** [.] without [re.DOTALL] *)
Definition dot : regex := Cls true [CChar NL].

(** A literal word. *)
Fixpoint lit (w : str) : regex :=
  match w with
  | [] => Eps
  | c :: w' => chr c ⋅ lit w'
  end.

Definition item_match (c : N) (i : citem) : bool :=
  match i with
  | CChar d => (c =? d)%N
  | CSpace => is_space c
  end.

Definition in_class (neg : bool) (items : list citem) (c : N) : bool :=
  xorb neg (existsb (item_match c) items).

(** The matcher's state: the character before the current position (for
    [^]), the text from the current position on, and the text captured by
    group 1 so far. *)
Record mstate := MState {
  prev : option N;
  rest : str;
  grp : option str
}.

Definition at_bol (st : mstate) : bool :=
  match prev st with
  | None => true
  | Some c => (c =? NL)%N
  end.

Definition at_eol (st : mstate) : bool :=
  match rest st with
  | [] => true
  | c :: _ => (c =? NL)%N
  end.

Definition shorter (st' st : mstate) : bool :=
  length (rest st') <? length (rest st).

(** Greedy and lazy repetition of a body.  The outcomes are listed in the
    order in which a backtracking matcher tries them: a greedy loop tries
    one more iteration before stopping, a lazy one stops first.  An
    iteration that consumes nothing ends the loop. *)
Fixpoint greedy (body : mstate → list mstate) (fuel : nat) (st : mstate)
    : list mstate :=
  match fuel with
  | 0 => [st]
  | S n =>
      (body st ≫= λ st', if shorter st' st then greedy body n st' else [])
      ++ [st]
  end.

Fixpoint lazy (body : mstate → list mstate) (fuel : nat) (st : mstate)
    : list mstate :=
  match fuel with
  | 0 => [st]
  | S n =>
      st :: (body st ≫= λ st', if shorter st' st then lazy body n st' else [])
  end.

Definition capture (st st' : mstate) : mstate :=
  MState (prev st') (rest st')
         (Some (take (length (rest st) - length (rest st')) (rest st))).

(** All the ways [r] matches at the current position, best first. *)
Fixpoint run (r : regex) (st : mstate) : list mstate :=
  match r with
  | Eps => [st]
  | Cls neg items =>
      match rest st with
      | c :: t => if in_class neg items c
                  then [MState (Some c) t (grp st)] else []
      | [] => []
      end
  | Seq r1 r2 => run r1 st ≫= run r2
  | Star r1 => greedy (run r1) (length (rest st)) st
  | Plus r1 =>
      run r1 st ≫= λ st1, greedy (run r1) (length (rest st1)) st1
  | Opt r1 => run r1 st ++ [st]
  | PlusLazy r1 =>
      run r1 st ≫= λ st1, lazy (run r1) (length (rest st1)) st1
  | Grp r1 => capture st <$> run r1 st
  | Bol => if at_bol st then [st] else []
  | Eol => if at_eol st then [st] else []
  end.

(** A match object: where it starts, the text of group 0 and of group 1. *)
Record rmatch := RMatch {
  m_start : nat;
  m_text : str;
  m_group1 : option str
}.

Definition group1 (m : rmatch) : str := default [] (m_group1 m).

(** The match at the current position, if there is one. *)
Definition match_here (r : regex) (p : option N) (s : str)
    : option (str * option str) :=
  match run r (MState p s None) with
  | st' :: _ => Some (take (length s - length (rest st')) s, grp st')
  | [] => None
  end.

(** [re.search]: the first position with a match. *)
Fixpoint search_go (r : regex) (p : option N) (s : str) (i : nat)
    : option rmatch :=
  match match_here r p s with
  | Some (w, g) => Some (RMatch i w g)
  | None =>
      match s with
      | [] => None
      | c :: t => search_go r (Some c) t (S i)
      end
  end.

Definition search (r : regex) (s : str) : option rmatch :=
  search_go r None s 0.

Definition exhausted (count : option nat) : bool :=
  match count with Some 0 => true | _ => false end.

Definition used (count : option nat) : option nat := pred <$> count.

(** [re.sub] with a replacement function; [count] is [None] for "all".
    [skip] counts the characters of the current match that are still to be
    passed over.  No pattern of the scripts matches the empty word
    ([patterns_read_something] below); after an empty match the model
    copies one character and goes on. *)
Fixpoint sub_go (r : regex) (repl : rmatch → str) (count : option nat)
    (p : option N) (s : str) (i skip : nat) : str :=
  match skip, s with
  | S k, c :: t => sub_go r repl count (Some c) t (S i) k
  | S k, [] => []
  | 0, _ =>
      if exhausted count then s else
      match match_here r p s with
      | Some (w, g) =>
          repl (RMatch i w g) ++
          match s with
          | [] => []
          | c :: t =>
              match length w with
              | 0 => c :: sub_go r repl (used count) (Some c) t (S i) 0
              | S k => sub_go r repl (used count) (Some c) t (S i) k
              end
          end
      | None =>
          match s with
          | [] => []
          | c :: t => c :: sub_go r repl count (Some c) t (S i) 0
          end
      end
  end.

Definition sub (r : regex) (repl : rmatch → str) (count : option nat)
    (s : str) : str :=
  sub_go r repl count None s 0 0.

(** [re.findall] for a pattern with one group: the texts of group 1 of the
    successive matches. *)
Fixpoint findall_go (r : regex) (p : option N) (s : str) (skip : nat)
    : list str :=
  match skip, s with
  | S k, c :: t => findall_go r (Some c) t k
  | S k, [] => []
  | 0, _ =>
      match match_here r p s with
      | Some (w, g) =>
          default [] g ::
          match s with
          | [] => []
          | c :: t => findall_go r (Some c) t (pred (length w))
          end
      | None =>
          match s with
          | [] => []
          | c :: t => findall_go r (Some c) t 0
          end
      end
  end.

Definition findall (r : regex) (s : str) : list str := findall_go r None s 0.

End Re.

Import Re.

(** ** number_citations.py *)

Module NumberCitations.

(** [^== References\s*$] *)
Definition heading_re : regex :=
  Bol ⋅ lit (u "== References") ⋅ Star space ⋅ Eol.

(** [^==\s+[^=\s].*$] *)
Definition next_heading_re : regex :=
  Bol ⋅ lit (u "==") ⋅ Plus space ⋅ Cls true [CChar 61; CSpace] ⋅ Star dot
  ⋅ Eol.

(** [\[\[([^\]]+)\]\]] *)
Definition anchor_re : regex :=
  lit (u "[[") ⋅ Grp (Plus (Cls true [CChar 93])) ⋅ lit (u "]]").

(** [\[\[[^\]]+\]\]], the same pattern without the group *)
Definition anchor_plain_re : regex :=
  lit (u "[[") ⋅ Plus (Cls true [CChar 93]) ⋅ lit (u "]]").

(** [( <<[^>]+>> (?:\s*,\s*<<[^>]+>>)* )] under [re.VERBOSE] *)
Definition citation_re : regex :=
  Grp (lit (u "<<") ⋅ Plus (Cls true [CChar 62]) ⋅ lit (u ">>") ⋅
       Star (Star space ⋅ chr 44 ⋅ Star space ⋅
             lit (u "<<") ⋅ Plus (Cls true [CChar 62]) ⋅ lit (u ">>"))).

(** [<<\s*([^>]+?)\s*>>] *)
Definition key_re : regex :=
  lit (u "<<") ⋅ Star space ⋅ Grp (PlusLazy (Cls true [CChar 62])) ⋅
  Star space ⋅ lit (u ">>").

Definition split_sections (text : str) : str * str * str :=
  match search heading_re text with
  | None => (text, [], [])
  | Some m =>
      let start := m_start m in
      let refs_end :=
        match search next_heading_re (drop (start + 1) text) with
        | Some m_next => start + 1 + m_start m_next
        | None => length text
        end in
      (take start text, slice start refs_end text, drop refs_end text)
  end.

(** One turn of the loop of [parse_reference_keys]. *)
Definition record_key (acc : list str * gmap str nat) (line : str)
    : list str * gmap str nat :=
  let '(keys, key_to_num) := acc in
  match search anchor_re line with
  | Some m =>
      let key := strip (group1 m) in
      match key_to_num !! key with
      | None => (keys ++ [key], <[key := length (keys ++ [key])]> key_to_num)
      | Some _ => (keys, key_to_num)
      end
  | None => (keys, key_to_num)
  end.

Definition parse_reference_keys (refs : str) : list str * gmap str nat :=
  foldl record_key ([], ∅) (splitlines refs).

(** The loop of [repl]: the first unknown key gives the group back. *)
Fixpoint repl_keys (key_to_num : gmap str nat) (group : str)
    (keys : list str) (nums : list str) : str :=
  match keys with
  | [] => u "[" ++ join (u ", ") nums ++ u "]"
  | k :: ks =>
      match key_to_num !! k with
      | None => group
      | Some n => repl_keys key_to_num group ks (nums ++ [str_of_nat n])
      end
  end.

Definition repl (key_to_num : gmap str nat) (m : rmatch) : str :=
  let group := group1 m in
  repl_keys key_to_num group (findall key_re group) [].

Definition replace_citations (body : str) (key_to_num : gmap str nat) : str :=
  sub citation_re (repl key_to_num) None body.

(** [{k: i + 1 for i, k in enumerate(ordered_keys)}] *)
Fixpoint enumerate_keys (i : nat) (ordered_keys : list str)
    (acc : gmap str nat) : gmap str nat :=
  match ordered_keys with
  | [] => acc
  | k :: ks => enumerate_keys (S i) ks (<[k := i + 1]> acc)
  end.

Definition renumber_line (key_to_num : gmap str nat) (line : str) : str :=
  match search anchor_re line with
  | Some m =>
      let key := strip (group1 m) in
      match key_to_num !! key with
      | Some n =>
          sub anchor_plain_re (λ _, u "[" ++ str_of_nat n ++ u "]") (Some 1)
              line
      | None => line
      end
  | None => line
  end.

Definition renumber_references (refs : str) (ordered_keys : list str) : str :=
  let key_to_num := enumerate_keys 0 ordered_keys ∅ in
  join [NL] (renumber_line key_to_num <$> splitlines refs).

(** What [main] writes to standard output for the input [text]. *)
Definition transform (text : str) : str :=
  let '(before, refs, after) := split_sections text in
  match refs with
  | [] => text
  | _ =>
      let '(ordered_keys, key_to_num) := parse_reference_keys refs in
      let body_numbered := replace_citations before key_to_num in
      let refs_numbered := renumber_references refs ordered_keys in
      body_numbered ++ refs_numbered ++ after
  end.

End NumberCitations.

Import NumberCitations.

(** ** fix_cites.py *)

Module FixCites.

(** [([^}]+)\\?\}], the tail shared by the two escaped forms *)
Definition braced_tail : regex :=
  Grp (Plus (Cls true [CChar 125])) ⋅ Opt (chr 92) ⋅ chr 125.

(** [\\textbackslash\s+cite\\?\{([^}]+)\\?\}] *)
Definition spaced_re : regex :=
  lit (u "\textbackslash") ⋅ Plus space ⋅ lit (u "cite") ⋅
  Opt (chr 92) ⋅ chr 123 ⋅ braced_tail.

(** [\\textbackslash\\cite\\?\{([^}]+)\\?\}] *)
Definition slashed_re : regex :=
  lit (u "\textbackslash\cite") ⋅ Opt (chr 92) ⋅ chr 123 ⋅ braced_tail.

Definition patterns : list regex := [spaced_re; slashed_re].

(** [\\cite\{(G)\\\}] with [[^}]*] for G *)
Definition residual_re : regex :=
  lit (u "\cite{") ⋅ Grp (Star (Cls true [CChar 125])) ⋅ lit (u "\}").

(** The replacement template [\\cite{\1}] *)
Definition cite_template (m : rmatch) : str :=
  u "\cite{" ++ group1 m ++ u "}".

(** The text [main] writes back for the text it read. *)
Definition fix_text (text : str) : str :=
  let text := foldl (λ text pat, sub pat cite_template None text) text patterns in
  sub residual_re cite_template None text.

End FixCites.

(** ** The process environment of the entry points *)

Module Proc.

Inductive event :=
| OpenRead (path : str)
| OpenWrite (path : str) (data : str)
| ReadStdin.

(** Exceptions that leave [main]: the one for a path that names nothing,
    the one for [sys.argv[i]] out of range, and any other one, by the name
    of its class ([IsADirectoryError], [NotADirectoryError],
    [PermissionError], [UnicodeDecodeError], ...). *)
Inductive exn :=
| FileNotFoundError (path : str)
| IndexError
| Failure (class : str).

(** What the system answers for a path.  [Text raw on_write]: the path
    opens for reading and its bytes decode as UTF-8 to [raw].
    [Unreadable e on_write]: reading it as text raises [e] (a directory,
    a path through a regular file, a file without permission, bytes that
    are not UTF-8).  In both, opening the path for writing raises
    [on_write], if anything.  A path that names nothing is not in the
    map.  Paths are taken as the program spells them: links and other
    spellings of the name of a file are not modelled, nor are the limits
    of the system on the length of a name.  Line ends are those of a
    POSIX system: writing translates nothing, and the standard streams
    are not translated either. *)
Inductive node :=
| Text (raw : str) (on_write : option exn)
| Unreadable (e : exn) (on_write : option exn).

(** The exception for a path that is not in the map: [open] refuses a
    name that holds a NUL before the system is asked. *)
Definition absent (path : str) : exn :=
  if bool_decide (0%N ∈ path) then Failure (u "ValueError")
  else FileNotFoundError path.

(** The standard streams are what has been read from or written to them;
    [trace] lists the attempts to open a file or to read standard
    input. *)
Record world := World {
  files : gmap str node;
  stdin : str;
  stdout : str;
  stderr : str;
  trace : list event
}.

Inductive outcome (A : Type) :=
| Done (a : A)
| Exited (code : nat)
| Raised (e : exn).
Arguments Done {A} a.
Arguments Exited {A} code.
Arguments Raised {A} e.

Definition io (A : Type) : Type := world → outcome A * world.

Definition ret {A} (a : A) : io A := λ w, (Done a, w).

Definition bind {A B} (m : io A) (k : A → io B) : io B :=
  λ w, match m w with
       | (Done a, w') => k a w'
       | (Exited c, w') => (Exited c, w')
       | (Raised e, w') => (Raised e, w')
       end.

Notation "x ⇐ m ;; k" := (bind m (λ x, k))
  (at level 100, m at next level, right associativity).
Notation "m ;;; k" := (bind m (λ _, k))
  (at level 100, right associativity).

Definition log (e : event) (w : world) : world :=
  World (files w) (stdin w) (stdout w) (stderr w) (trace w ++ [e]).

(** [print(s, file=sys.stderr)] *)
Definition print_stderr (s : str) : io unit :=
  λ w, (Done (), World (files w) (stdin w) (stdout w)
                       (stderr w ++ s ++ [NL]) (trace w)).

(** [sys.stdout.write(s)] *)
Definition stdout_write (s : str) : io unit :=
  λ w, (Done (), World (files w) (stdin w) (stdout w ++ s) (stderr w)
                       (trace w)).

(** [sys.stdin.read()] *)
Definition stdin_read : io str :=
  λ w, (Done (stdin w),
        log ReadStdin (World (files w) [] (stdout w) (stderr w) (trace w))).

(** [sys.exit(code)] *)
Definition sys_exit {A} (code : nat) : io A := λ w, (Exited code, w).

(** Reading a whole file in text mode, as [Path.read_text] and
    [open(path, "r")] followed by [read] do: line ends are translated. *)
Definition read_text (path : str) : io str :=
  λ w, match files w !! path with
       | Some (Text raw _) =>
           (Done (universal_newlines raw), log (OpenRead path) w)
       | Some (Unreadable e _) => (Raised e, log (OpenRead path) w)
       | None => (Raised (absent path), log (OpenRead path) w)
       end.

(** [path.write_text(data)]: the file is replaced by [data]; a path that
    names nothing yet is created, its directory being taken to exist. *)
Definition write_text (path data : str) : io unit :=
  λ w, let refused :=
         match files w !! path with
         | Some (Text _ on_write) | Some (Unreadable _ on_write) => on_write
         | None => if bool_decide (0%N ∈ path)
                   then Some (Failure (u "ValueError")) else None
         end in
       match refused with
       | Some e => (Raised e, log (OpenWrite path data) w)
       | None =>
           (Done (),
            log (OpenWrite path data)
                (World (<[path := Text data None]> (files w)) (stdin w)
                       (stdout w) (stderr w) (trace w)))
       end.

(** [sys.argv[i]] *)
Definition argv_item (argv : list str) (i : nat) : io str :=
  λ w, match argv !! i with
       | Some a => (Done a, w)
       | None => (Raised IndexError, w)
       end.

(** [main] of fix_cites.py *)
Definition fix_cites_main (argv : list str) : io unit :=
  if negb (length argv =? 2) then
    print_stderr (u "Usage: fix_cites.py path/to/file.tex") ;;;
    sys_exit 1
  else
    arg ⇐ argv_item argv 1 ;;
    let path := path_str arg in
    text ⇐ read_text path ;;
    write_text path (FixCites.fix_text text).

(** [main] of number_citations.py *)
Definition number_citations_main (argv : list str) : io unit :=
  if 2 <? length argv then
    print_stderr (u "Usage: number_citations.py [LLM-to-IAS.adoc]") ;;;
    sys_exit 1
  else
    from_stdin ⇐ (if length argv =? 1 then ret true
                  else a ⇐ argv_item argv 1 ;; ret (bool_decide (a = u "-"))) ;;
    text ⇐ (if from_stdin : bool then stdin_read
            else path ⇐ argv_item argv 1 ;; read_text path) ;;
    let '(before, refs, after) := split_sections text in
    match refs with
    | [] => stdout_write text
    | _ =>
        let '(ordered_keys, key_to_num) := parse_reference_keys refs in
        let body_numbered := replace_citations before key_to_num in
        let refs_numbered := renumber_references refs ordered_keys in
        stdout_write body_numbered ;;;
        stdout_write refs_numbered ;;;
        stdout_write after
    end.

(** The interpreter around [main]: the exit status of the process; an
    exception that leaves [main] has its traceback printed on standard
    error.  The text of a traceback is left open. *)
Definition script (traceback : exn → str) (main : io unit) (w : world)
    : nat * world :=
  match main w with
  | (Done _, w') => (0, w')
  | (Exited code, w') => (code, w')
  | (Raised e, w') =>
      (1, World (files w') (stdin w') (stdout w')
                (stderr w' ++ traceback e) (trace w'))
  end.

End Proc.

(** ** Notions used to state and prove the properties *)

Module Notions.

(** *** Bookkeeping for the matcher *)

(** The least number of characters a match of the pattern reads. *)
Fixpoint min_len (r : regex) : nat :=
  match r with
  | Cls _ _ => 1
  | Seq r1 r2 => min_len r1 + min_len r2
  | Plus r1 | PlusLazy r1 | Grp r1 => min_len r1
  | Eps | Star _ | Opt _ | Bol | Eol => 0
  end.

(** The patterns of the two scripts. *)
Definition all_patterns : list regex :=
  [heading_re; next_heading_re; anchor_re; anchor_plain_re; citation_re;
   key_re; FixCites.spaced_re; FixCites.slashed_re; FixCites.residual_re].

(** What a pattern can read: [matches r w g g'] says that [r] reads the
    word [w] and takes group 1 from [g] to [g'].  Whether a line starts or
    ends there is not looked at. *)
Inductive matches : regex → str → option str → option str → Prop :=
| matches_eps g : matches Eps [] g g
| matches_cls neg items c g :
    in_class neg items c = true → matches (Cls neg items) [c] g g
| matches_seq r1 r2 w1 w2 g g1 g2 :
    matches r1 w1 g g1 → matches r2 w2 g1 g2 →
    matches (r1 ⋅ r2) (w1 ++ w2) g g2
| matches_star_nil r g : matches (Star r) [] g g
| matches_star_cons r w1 w2 g g1 g2 :
    matches r w1 g g1 → matches (Star r) w2 g1 g2 →
    matches (Star r) (w1 ++ w2) g g2
| matches_plus r w1 w2 g g1 g2 :
    matches r w1 g g1 → matches (Star r) w2 g1 g2 →
    matches (Plus r) (w1 ++ w2) g g2
| matches_pluslazy r w1 w2 g g1 g2 :
    matches r w1 g g1 → matches (Star r) w2 g1 g2 →
    matches (PlusLazy r) (w1 ++ w2) g g2
| matches_opt_none r g : matches (Opt r) [] g g
| matches_opt_some r w g g1 : matches r w g g1 → matches (Opt r) w g g1
| matches_grp r w g g1 : matches r w g g1 → matches (Grp r) w g (Some w)
| matches_bol g : matches Bol [] g g
| matches_eol g : matches Eol [] g g.

(** The pattern has no group. *)
Fixpoint groupless (r : regex) : bool :=
  match r with
  | Grp _ => false
  | Seq r1 r2 => groupless r1 && groupless r2
  | Star r1 | Plus r1 | Opt r1 | PlusLazy r1 => groupless r1
  | Eps | Cls _ _ | Bol | Eol => true
  end.

(** The text does not go on with a character of the set [p]. *)
Definition stops (p : N → bool) (s : str) : Prop :=
  match s with [] => True | c :: _ => p c = false end.

(** The character before the current position once the word [w] has been
    passed, [p] being the character before [w]. *)
Definition plast (p : option N) (w : str) : option N :=
  match last w with Some c => Some c | None => p end.

(** The ways to cut a word in two, longest first part first. *)
Fixpoint splits_desc (w : str) : list (str * str) :=
  match w with
  | [] => [([], [])]
  | c :: w' => ((λ x, (c :: x.1, x.2)) <$> splits_desc w') ++ [([], w)]
  end.

(** The same with a first part that is not empty. *)
Definition splits1_desc (w : str) : list (str * str) :=
  match w with
  | [] => []
  | c :: w' => (λ x, (c :: x.1, x.2)) <$> splits_desc w'
  end.

(** Shortest non-empty first part first. *)
Fixpoint splits_asc (w : str) : list (str * str) :=
  ([], w) :: match w with
             | [] => []
             | c :: w' => (λ x, (c :: x.1, x.2)) <$> splits_asc w'
             end.

Definition splits1_asc (w : str) : list (str * str) :=
  match w with
  | [] => []
  | c :: w' => (λ x, (c :: x.1, x.2)) <$> splits_asc w'
  end.

(** The matcher's state after the first part of a cut, the second part and
    [s] still to be read. *)
Definition after (p : option N) (s : str) (g : option str) (x : str * str)
    : mstate :=
  MState (plast p x.1) (x.2 ++ s) g.

Definition after_grp (p : option N) (s : str) (x : str * str) : mstate :=
  MState (plast p x.1) (x.2 ++ s) (Some x.1).

Definition differs (c : N) (x : N) : bool := negb (x =? c)%N.

(** The text opens with [oo], one or more characters other than [c], and
    [cc]: the enclosed characters and what follows. *)
Definition delim_at (o c : N) (s : str) : option (str * str) :=
  match s with
  | a :: b :: t =>
      if (a =? o)%N && (b =? o)%N then
        match take_while (differs c) t, drop_while (differs c) t with
        | (_ :: _) as k, _ :: y :: t' => if (y =? c)%N then Some (k, t') else None
        | _, _ => None
        end
      else None
  | _ => None
  end.

(** The best outcome of a run of the matcher leaves [t] to be read, with
    group 1 set to [g]. *)
Definition leads (l : list mstate) (t : str) (g : option str) : Prop :=
  ∃ p' tl, l = MState p' t g :: tl.

(** *** Anchors *)

(** [line] reads [pre], then the anchor around [key], then [post]; 91 and
    93 are the square brackets. *)
Definition anchor_in (line pre key post : str) : Prop :=
  line = pre ++ [91; 91]%N ++ key ++ [93; 93]%N ++ post ∧
  key ≠ [] ∧ 93%N ∉ key.

(** The anchor around [key] is the leftmost one of [line]. *)
Definition first_anchor (line pre key post : str) : Prop :=
  anchor_in line pre key post ∧
  ∀ pre' key' post', anchor_in line pre' key' post' → length pre ≤ length pre'.

Definition no_anchor (line : str) : Prop :=
  ∀ pre key post, ¬ anchor_in line pre key post.

(** The leftmost anchor found by reading the line from left to right. *)
Fixpoint find_anchor (line : str) : option (str * str * str) :=
  match delim_at 91 93 line with
  | Some (key, post) => Some ([], key, post)
  | None =>
      match line with
      | [] => None
      | c :: l => (λ x, (c :: x.1.1, x.1.2, x.2)) <$> find_anchor l
      end
  end.

(** The identifier a line of the references block defines: the key of its
    leftmost anchor, stripped. *)
Definition line_key (line : str) : option str :=
  (λ x, strip x.1.2) <$> find_anchor line.

(** The identifiers of the block, line after line. *)
Definition block_keys (refs : str) : list str :=
  omap line_key (splitlines refs).

(** One identifier more: what [parse_reference_keys] does with the key of
    a line. *)
Definition note_key (acc : list str * gmap str nat) (key : str)
    : list str * gmap str nat :=
  match acc.2 !! key with
  | None => (acc.1 ++ [key], <[key := length (acc.1 ++ [key])]> acc.2)
  | Some _ => acc
  end.

(** [keys] and [key_to_num] number the identifiers [seen] by first
    occurrence: every identifier once, at the place of its first
    occurrence; its number is its 1-based position, which is one more than
    the number of distinct identifiers before its first occurrence. *)
Definition numbers_first_occurrences (seen keys : list str)
    (key_to_num : gmap str nat) : Prop :=
  NoDup keys ∧
  (∀ k, k ∈ keys ↔ k ∈ seen) ∧
  (∀ k n, key_to_num !! k = Some n ↔ ∃ i, keys !! i = Some k ∧ n = S i) ∧
  (∀ l1 k l2, seen = l1 ++ k :: l2 → k ∉ l1 →
     key_to_num !! k = Some (S (size (list_to_set l1 : gset str)))).

(** *** Cross-reference runs *)

(** A cross-reference marker around [c]; 60 and 62 are the angle brackets,
    44 is the comma. *)
Definition marker (c : str) : str := [60; 60]%N ++ c ++ [62; 62]%N.

(** What a marker may enclose: one character or more, none of them [>]. *)
Definition marker_content (c : str) : Prop := c ≠ [] ∧ 62%N ∉ c.

(** A further marker of a run with what separates it from the one before:
    white space, a comma, white space. *)
Record link := Link {
  before_comma : str;
  after_comma : str;
  content : str
}.

Definition link_text (l : link) : str :=
  before_comma l ++ [44%N] ++ after_comma l ++ marker (content l).

Definition link_ok (l : link) : Prop :=
  Forall (λ c, is_space c = true) (before_comma l) ∧
  Forall (λ c, is_space c = true) (after_comma l) ∧
  marker_content (content l).

(** A run: a first marker and any number of further ones. *)
Definition run_text (c0 : str) (links : list link) : str :=
  marker c0 ++ concat (link_text <$> links).

Definition run_contents (c0 : str) (links : list link) : list str :=
  c0 :: (content <$> links).

(** The text goes on with a further marker of the run: its content and
    what follows it. *)
Definition link_at (s : str) : option (str * str) :=
  match drop_while is_space s with
  | c :: s2 => if (c =? 44)%N then delim_at 60 62 (drop_while is_space s2)
               else None
  | [] => None
  end.

(** A marker begins somewhere inside [pre], the text being [pre ++ s]. *)
Fixpoint marker_starts_in (pre s : str) : bool :=
  match pre with
  | [] => false
  | c :: pre' =>
      bool_decide (is_Some (delim_at 60 62 (pre ++ s))) ||
      marker_starts_in pre' s
  end.

(** [s.rstrip()] *)
Definition rstrip (s : str) : str :=
  reverse (drop_while is_space (reverse s)).

(** The identifier read off a marker's content: the content without the
    white space around it; of a content that is nothing but white space,
    the last character. *)
Definition ident (c : str) : str :=
  if forallb is_space c then option_list (last c) else strip c.

(** The separator-and-marker part of the citation pattern. *)
Definition link_re : regex :=
  Star space ⋅ chr 44 ⋅ Star space ⋅
  lit (u "<<") ⋅ Plus (Cls true [CChar 62]) ⋅ lit (u ">>").

(** The further marker the text goes on with, separators included, and
    what follows it. *)
Definition read_link (s : str) : option (link * str) :=
  match drop_while is_space s with
  | c :: s2 =>
      if (c =? 44)%N then
        match delim_at 60 62 (drop_while is_space s2) with
        | Some (k, t) =>
            Some (Link (take_while is_space s) (take_while is_space s2) k, t)
        | None => None
        end
      else None
  | [] => None
  end.

(** All the further markers of a run, and what follows the run. *)
Fixpoint read_links (fuel : nat) (s : str) : list link * str :=
  match fuel with
  | 0 => ([], s)
  | S n =>
      match read_link s with
      | Some (l, t) => let '(ls, post) := read_links n t in (l :: ls, post)
      | None => ([], s)
      end
  end.

(** A run as the body rewrite leaves it: the bracketed numbers of its
    identifiers when each of them has a number, the run itself when one
    has none. *)
Definition numbered_run (m : gmap str nat) (c0 : str) (links : list link)
    : str :=
  match mapM (λ c, m !! ident c) (run_contents c0 links) with
  | Some nums => u "[" ++ join (u ", ") (str_of_nat <$> nums) ++ u "]"
  | None => run_text c0 links
  end.

(** The body rewrite as a scan from left to right, without patterns: at a
    marker, the longest run that starts there is rewritten and the scan
    goes on after it; any other character is copied. *)
Fixpoint number_runs (fuel : nat) (m : gmap str nat) (s : str) : str :=
  match fuel with
  | 0 => s
  | S n =>
      match delim_at 60 62 s with
      | Some (c0, t) =>
          let '(links, post) := read_links (length t) t in
          numbered_run m c0 links ++ number_runs n m post
      | None =>
          match s with
          | [] => []
          | c :: s' => c :: number_runs n m s'
          end
      end
  end.

(** *** Lines and headings *)

(** The lines of a text as [^] and [$] see them: cut at every newline. *)
Fixpoint lines_nl (s : str) : list str :=
  match s with
  | [] => [[]]
  | c :: t =>
      if (c =? NL)%N then [] :: lines_nl t
      else match lines_nl t with
           | l :: ls => (c :: l) :: ls
           | [] => [[c]]
           end
  end.

(** The text up to its first newline. *)
Definition first_line (s : str) : str := take_while (differs NL) s.

(** A line that is a top-level heading named References: the heading
    itself, then at most white space. *)
Definition is_references_heading (l : str) : bool :=
  bool_decide (take 13 l = u "== References") && forallb is_space (drop 13 l).

Definition has_references_heading (text : str) : bool :=
  existsb is_references_heading (lines_nl text).

(** The end of [pre] is the start of a line, as [^] sees it. *)
Definition line_start (pre : str) : bool :=
  match last pre with
  | Some c => (c =? NL)%N
  | None => true
  end.

(** The text opens with a top-level heading: [==], white space (which may
    run over line ends), and a character that is neither [=] nor white
    space; 61 is the equals sign. *)
Definition opens_heading (s : str) : bool :=
  match s with
  | a :: b :: t =>
      (a =? 61)%N && (b =? 61)%N &&
      match take_while is_space t, drop_while is_space t with
      | _ :: _, c :: _ => negb (c =? 61)%N
      | _, _ => false
      end
  | _ => false
  end.

(** The text ends with a line terminator of [splitlines]. *)
Definition ends_with_break (s : str) : bool :=
  match last s with
  | Some c => is_linebreak c
  | None => false
  end.

(** *** The references block as the description has it *)

(** [s.splitlines(keepends=True)], each line apart from its terminator;
    a last line without terminator has an empty one. *)
Fixpoint lines_with_ends (s : str) : list (str * str) :=
  match s with
  | [] => []
  | c :: t =>
      if is_linebreak c then
        match t with
        | d :: t' =>
            if (c =? CR)%N && (d =? NL)%N
            then ([], [c; d]) :: lines_with_ends t'
            else ([], [c]) :: lines_with_ends t
        | [] => [([], [c])]
        end
      else match lines_with_ends t with
           | [] => [([c], [])]
           | (l, e) :: ls => (c :: l, e) :: ls
           end
  end.

(** A line as the description rewrites it: its first anchor replaced by
    the bracketed number of its key, the rest of the line as it was; a
    line without anchor, or whose key has no number, copied. *)
Definition claimed_line (key_to_num : gmap str nat) (line : str) : str :=
  match find_anchor line with
  | Some (pre, key, post) =>
      match key_to_num !! strip key with
      | Some n => pre ++ (u "[" ++ str_of_nat n ++ u "]") ++ post
      | None => line
      end
  | None => line
  end.

(** The block as the description rewrites it: line by line, nothing else
    changed, so that every line keeps its terminator. *)
Definition claimed_block (refs : str) (key_to_num : gmap str nat) : str :=
  concat ((λ le, claimed_line key_to_num le.1 ++ le.2)
            <$> lines_with_ends refs).

(** The output as the description has it: the rewritten body, then that
    block, then the trailing block. *)
Definition claimed_output (text : str) : str :=
  let '(before, refs, after) := split_sections text in
  match refs with
  | [] => text
  | _ =>
      let '(ordered_keys, key_to_num) := parse_reference_keys refs in
      replace_citations before key_to_num ++
      claimed_block refs key_to_num ++ after
  end.

(** *** The two command lines *)

Inductive tool := FixCitesTool | NumberCitationsTool.

Definition entry (t : tool) : list str → Proc.io unit :=
  match t with
  | FixCitesTool => Proc.fix_cites_main
  | NumberCitationsTool => Proc.number_citations_main
  end.

Definition usage (t : tool) : str :=
  match t with
  | FixCitesTool => u "Usage: fix_cites.py path/to/file.tex"
  | NumberCitationsTool => u "Usage: number_citations.py [LLM-to-IAS.adoc]"
  end.

(** The arguments proper: [sys.argv] without the program name. *)
Definition arguments (argv : list str) : list str := tail argv.

(** A wrong number of arguments: anything but one path for fix_cites.py,
    more than one argument for number_citations.py. *)
Definition wrong_count (t : tool) (argv : list str) : Prop :=
  match t with
  | FixCitesTool => length (arguments argv) ≠ 1
  | NumberCitationsTool => 1 < length (arguments argv)
  end.

(** Whether number_citations.py reads standard input, and the text it
    then works on: standard input as it is, or the text of the file named
    by the argument, its line ends translated by the reading. *)
Definition reads_stdin (argv : list str) : bool :=
  match argv with
  | [_; a] => bool_decide (a = u "-")
  | _ => true
  end.

Definition input_text (argv : list str) (w : Proc.world) : option str :=
  match argv with
  | [_] => Some (Proc.stdin w)
  | [_; a] =>
      if bool_decide (a = u "-") then Some (Proc.stdin w)
      else match Proc.files w !! a with
           | Some (Proc.Text raw _) => Some (universal_newlines raw)
           | _ => None
           end
  | _ => None
  end.

(** What the input holds before it is read: standard input, or the file
    as it is stored. *)
Definition input_raw (argv : list str) (w : Proc.world) : option str :=
  match argv with
  | [_] => Some (Proc.stdin w)
  | [_; a] =>
      if bool_decide (a = u "-") then Some (Proc.stdin w)
      else match Proc.files w !! a with
           | Some (Proc.Text raw _) => Some raw
           | _ => None
           end
  | _ => None
  end.

Definition input_event (argv : list str) : Proc.event :=
  if reads_stdin argv then Proc.ReadStdin
  else Proc.OpenRead (default [] (argv !! 1)).

(** The world after a run that read its input and wrote [out]. *)
Definition after_run (argv : list str) (w : Proc.world) (out : str)
    : Proc.world :=
  Proc.World (Proc.files w)
             (if reads_stdin argv then [] else Proc.stdin w)
             (Proc.stdout w ++ out) (Proc.stderr w)
             (Proc.trace w ++ [input_event argv]).

(** The path a tool opens for its argument: fix_cites.py goes through
    [pathlib.Path], number_citations.py takes the argument as it is. *)
Definition opened (t : tool) (arg : str) : str :=
  match t with
  | FixCitesTool => path_str arg
  | NumberCitationsTool => arg
  end.

(** The exception that reading a path as text raises, if any. *)
Definition read_failure (w : Proc.world) (path : str) : option Proc.exn :=
  match Proc.files w !! path with
  | Some (Proc.Text _ _) => None
  | Some (Proc.Unreadable e _) => Some e
  | None => Some (Proc.absent path)
  end.

(** An event that changes a file. *)
Definition writes (e : Proc.event) : bool :=
  match e with
  | Proc.OpenWrite _ _ => true
  | _ => false
  end.

(** *** Escaped citation macros *)

(** The escape token and the opening of a cite macro; 92 is the
    backslash, 123 and 125 are the braces. *)
Definition TEXTBACKSLASH : str := Eval cbv in u "\textbackslash".
Definition CITE_OPEN : str := Eval cbv in u "\cite{".
Definition CITE : str := Eval cbv in u "cite".

(** A character of the kind fix_cites.py removes: white space, or one of
    the characters of the escape token, the backslash among them. *)
Definition droppable (c : N) : bool :=
  is_space c || bool_decide (c ∈ TEXTBACKSLASH).

(** The text without its droppable characters. *)
Fixpoint kept (s : str) : str :=
  match s with
  | [] => []
  | c :: s' => if droppable c then kept s' else c :: kept s'
  end.

(** What stands between the escape token and [cite]: white space, or a
    backslash. *)
Inductive separator :=
| Spaces (w : str)
| Backslash.

(** An escaped macro: its separator, whether the opening brace is
    escaped, its key, and whether a stray backslash precedes the closing
    brace. *)
Record escaped := Escaped {
  sep : separator;
  brace_escaped : bool;
  key : str;
  stray : bool
}.

Definition opt_backslash (b : bool) : str := if b then [92%N] else [].

Definition sep_text (s : separator) : str :=
  match s with
  | Spaces w => w ++ CITE
  | Backslash => 92%N :: CITE
  end.

Definition escaped_text (e : escaped) : str :=
  TEXTBACKSLASH ++ sep_text (sep e) ++ opt_backslash (brace_escaped e) ++
  [123%N] ++ key e ++ opt_backslash (stray e) ++ [125%N].

(** Well-formed: white space that is not empty, a key that is not empty
    and holds neither a closing brace nor a backslash. *)
Definition well_formed (e : escaped) : Prop :=
  match sep e with
  | Spaces w => w ≠ [] ∧ Forall (λ c, is_space c = true) w
  | Backslash => True
  end ∧
  key e ≠ [] ∧ (125%N ∉ key e) ∧ (92%N ∉ key e).

(** The canonical macro. *)
Definition cite_text (k : str) : str := CITE_OPEN ++ k ++ [125%N].

(** The macro after the first two substitutions: the stray backslash is
    still there. *)
Definition cite_stray (e : escaped) : str :=
  CITE_OPEN ++ key e ++ opt_backslash (stray e) ++ [125%N].

(** The macro after the first substitution. *)
Definition after_spaced (e : escaped) : str :=
  match sep e with
  | Spaces _ => cite_stray e
  | Backslash => escaped_text e
  end.

(** The word [w] occurs in [s]. *)
Fixpoint mentions (w s : str) : bool :=
  bool_decide (w `prefix_of` s) ||
  (match s with
   | [] => false
   | _ :: s' => mentions w s'
   end).

(** A backslash of [a] is followed by [d], or ends [a]. *)
Fixpoint backslash_then (d : N) (a : str) : bool :=
  match a with
  | [] => false
  | x :: a' =>
      ((x =? 92)%N && (match a' with y :: _ => (y =? d)%N | [] => true end))
      || backslash_then d a'
  end.

(** Every [\cite{] of [s] is closed within [s] by a brace that no
    backslash precedes: the clean-up pass has nothing to do in [s]. *)
Fixpoint residual_safe (s : str) : bool :=
  match s with
  | [] => true
  | _ :: s' =>
      (if bool_decide (CITE_OPEN `prefix_of` s) then
         let x := take_while (differs 125) (drop 6 s) in
         match drop_while (differs 125) (drop 6 s), last x with
         | [], _ => false
         | _ :: _, Some c => negb (c =? 92)%N
         | _ :: _, None => true
         end
       else true) && residual_safe s'
  end.

(** Text between the escaped macros: no escape token, and every cite
    macro in it closed without a stray backslash. *)
Definition calm (s : str) : Prop :=
  mentions TEXTBACKSLASH s = false ∧ residual_safe s = true.

(** A document: text, then escaped macros each followed by text; [f]
    tells how a macro is written. *)
Definition document (f : escaped → str) (seg0 : str)
    (items : list (escaped * str)) : str :=
  seg0 ++ concat ((λ x, f x.1 ++ x.2) <$> items).

(** *** Escaped macros, read without the patterns *)

(** [s] without the word [w] it begins with. *)
Fixpoint strip_prefix (w s : str) : option str :=
  match w, s with
  | [], _ => Some s
  | c :: w', d :: s' => if (c =? d)%N then strip_prefix w' s' else None
  | _ :: _, [] => None
  end.

(** What follows an opening brace, escaped or not, that [s] begins
    with. *)
Definition open_brace (s : str) : option str :=
  match s with
  | 123 :: t => Some t
  | 92 :: 123 :: t => Some t
  | _ => None
  end%N.

(** The opening of an escaped macro written with white space: the escape
    token, one white space or more, [cite], the brace.  The result is
    what follows the brace. *)
Definition spaced_head (s : str) : option str :=
  match strip_prefix TEXTBACKSLASH s with
  | Some r =>
      match take_while is_space r with
      | [] => None
      | _ :: _ =>
          match strip_prefix CITE (drop_while is_space r) with
          | Some r' => open_brace r'
          | None => None
          end
      end
  | None => None
  end.

(** The opening of an escaped macro written with a backslash. *)
Definition slashed_head (s : str) : option str :=
  match strip_prefix (TEXTBACKSLASH ++ 92%N :: CITE) s with
  | Some r => open_brace r
  | None => None
  end.

(** [x] begins with a key and its closing brace: one character or more
    other than [}], then [}]. *)
Definition keyed (x : str) : bool :=
  match take_while (differs 125) x, drop_while (differs 125) x with
  | _ :: _, _ :: _ => true
  | _, _ => false
  end.

(** [s] begins with an escaped macro, of the one form or of the other. *)
Definition spaced_at (s : str) : bool :=
  match spaced_head s with Some x => keyed x | None => false end.

Definition slashed_at (s : str) : bool :=
  match slashed_head s with Some x => keyed x | None => false end.

(** [s] begins with a cite macro whose closing brace follows a
    backslash: [\cite{], characters other than [}] the last of which is
    a backslash, and [}]. *)
Definition stray_at (s : str) : bool :=
  match strip_prefix CITE_OPEN s with
  | Some x =>
      match last (take_while (differs 125) x), drop_while (differs 125) x with
      | Some c, _ :: _ => (c =? 92)%N
      | _, _ => false
      end
  | None => false
  end.

(** Some part of [s], up to its end, satisfies [f]. *)
Fixpoint occurs (f : str → bool) (s : str) : bool :=
  f s || match s with
         | [] => false
         | _ :: s' => occurs f s'
         end.

(** The text holds no escaped macro and no cite macro closed after a
    backslash. *)
Definition escape_free (text : str) : bool :=
  negb (occurs spaced_at text) && negb (occurs slashed_at text) &&
  negb (occurs stray_at text).

(** Text that cannot go on an opening begun before it: nothing, a closing
    brace, or a backslash that an opening brace does not follow. *)
Definition inert (rest : str) : bool :=
  match rest with
  | [] => true
  | c :: r =>
      (c =? 125)%N ||
      (c =? 92)%N && match r with
                     | y :: _ => negb (y =? 123)%N
                     | [] => true
                     end
  end.

(** The parts of [l] from a character of [l] to its end. *)
Fixpoint tails (l : str) : list str :=
  match l with
  | [] => []
  | c :: l' => (c :: l') :: tails l'
  end.

(** An opening not followed by [}]: a key can begin there. *)
Definition opens (head : str → option str) (s : str) : bool :=
  match head s with
  | Some [] => true
  | Some (c :: _) => negb (c =? 125)%N
  | None => false
  end.

(** No opening of an escaped macro in [s] at which a key can begin. *)
Definition quiet (s : str) : bool :=
  negb (occurs (opens spaced_head) s) && negb (occurs (opens slashed_head) s).

(** An escaped macro that can be told from its surroundings.  Its white
    space is not empty.  Its key holds no closing brace; it is not
    empty, unless a stray backslash follows it; it does not end with a
    backslash, unless a stray backslash follows it (without one, the
    last backslash of the key would be taken for it).  The key holds no
    opening of an escaped macro of the other form at which a key can
    begin, given what follows the key: the substitution that does not
    rewrite the macro would rewrite one inside its key.  A backslash
    inside the key is fine. *)
Definition fixable (e : escaped) : bool :=
  let inside := key e ++ opt_backslash (stray e) ++ [125%N] in
  match sep e with
  | Spaces w =>
      negb (bool_decide (w = [])) && forallb is_space w &&
      negb (occurs (opens slashed_head) inside)
  | Backslash => negb (occurs (opens spaced_head) inside)
  end &&
  negb (bool_decide (key e ++ opt_backslash (stray e) = [])) &&
  forallb (differs 125) (key e) &&
  (stray e || negb (bool_decide (last (key e) = Some 92%N))).

(** The text [seg] before the macro [e] does not end with the escape
    token when [e] is written with white space: the token would stand
    right before [\cite] once [e] is rewritten. *)
Definition apart (seg : str) (e : escaped) : bool :=
  match sep e with
  | Spaces _ => negb (bool_decide (TEXTBACKSLASH `suffix_of` seg))
  | Backslash => true
  end.

(** A document whose escaped macros are the listed ones.  Each macro is
    fixable.  A stretch of text that a macro follows holds no opening of
    an escaped macro at which a key can begin (the closing brace of the
    macro would close it) and no cite macro closed after a backslash,
    and stands apart from the macro.  The text after the last macro
    holds no escaped macro and no cite macro closed after a backslash.
    The text may hold escape tokens. *)
Fixpoint fixable_document (seg : str) (items : list (escaped * str)) : bool :=
  match items with
  | [] => escape_free seg
  | (e, seg') :: items' =>
      quiet seg && negb (occurs stray_at seg) &&
      fixable e && apart seg e && fixable_document seg' items'
  end.

(** *** Sample input *)

(** A document with a References section followed by another section. *)
Definition sample_doc : str :=
  u "Text <<a>>." ++ [NL; NL] ++
  u "== References" ++ [NL; NL] ++
  u "* [[a]] A" ++ [NL; NL] ++
  u "== Appendix" ++ [NL; NL] ++
  u "More." ++ [NL].

(** A References section with one entry, followed by another section. *)
Definition short_doc : str :=
  u "Text <<a>>." ++ [NL] ++
  u "== References" ++ [NL] ++
  u "* [[a]] A" ++ [NL] ++
  u "== Appendix" ++ [NL].

End Notions.

Import Notions.

(** ** Facts about the string functions and the matcher *)

(** Closed decidable side conditions. *)
Ltac by_decide := apply (bool_decide_unpack _); vm_compute; exact I.

Section PyFacts.
Implicit Types (s t w : str) (p : N → bool).

Lemma take_drop_while p s : take_while p s ++ drop_while p s = s.
Proof.
  induction s as [|c s IH]; simpl; [done|].
  destruct (p c); simpl; [by f_equal|done].
Qed.

Lemma take_while_Forall p s : Forall (λ c, p c = true) (take_while p s).
Proof.
  induction s as [|c s IH]; simpl; [constructor|].
  destruct (p c) eqn:E; [by constructor|constructor].
Qed.

Lemma drop_while_stops p s : stops p (drop_while p s).
Proof.
  induction s as [|c s IH]; simpl; [done|].
  destruct (p c) eqn:E; [done|]. simpl. done.
Qed.

Lemma take_while_app_stop p w s :
  Forall (λ c, p c = true) w → stops p s → take_while p (w ++ s) = w.
Proof.
  induction 1 as [|c w Hc Hw IH]; intros Hs; simpl.
  - destruct s; simpl in *; [done|]. by rewrite Hs.
  - rewrite Hc. f_equal. by apply IH.
Qed.

Lemma drop_while_app_stop p w s :
  Forall (λ c, p c = true) w → stops p s → drop_while p (w ++ s) = s.
Proof.
  induction 1 as [|c w Hc Hw IH]; intros Hs; simpl.
  - destruct s; simpl in *; [done|]. by rewrite Hs.
  - rewrite Hc. by apply IH.
Qed.
End PyFacts.

Section ReFacts.
Implicit Types (s t w : str) (p : option N) (g : option str) (r : regex).

Lemma plast_nil p : plast p [] = p.
Proof. done. Qed.

Lemma plast_cons p c w : plast p (c :: w) = plast (Some c) w.
Proof.
  unfold plast. destruct w as [|d w]; [done|].
  rewrite last_cons. by destruct (last (d :: w)).
Qed.

Lemma plast_app p w1 w2 : plast p (w1 ++ w2) = plast (plast p w1) w2.
Proof.
  revert p. induction w1 as [|c w1 IH]; intros p; simpl; [done|].
  by rewrite !plast_cons, IH.
Qed.

Lemma run_seq r1 r2 st : run (r1 ⋅ r2) st = run r1 st ≫= run r2.
Proof. done. Qed.

Lemma run_chr c p s g :
  run (chr c) (MState p s g) =
  match s with d :: t => if (d =? c)%N then [MState (Some d) t g] else [] | [] => [] end.
Proof.
  simpl. destruct s as [|d t]; [done|]. unfold in_class. simpl.
  rewrite orb_false_r. by destruct (d =? c)%N.
Qed.

Lemma run_lit w p s g : run (lit w) (MState p (w ++ s) g) = [MState (plast p w) s g].
Proof.
  revert p. induction w as [|c w IH]; intros p; [done|].
  cbn [lit]. rewrite run_seq, run_chr. cbn [app]. rewrite N.eqb_refl.
  rewrite bind_singleton, IH. by rewrite plast_cons.
Qed.

Lemma run_lit_miss w st : ¬ w `prefix_of` rest st → run (lit w) st = [].
Proof.
  destruct st as [p s g]. simpl. revert p s.
  induction w as [|c w IH]; intros p s Hn.
  - destruct Hn. apply prefix_nil.
  - cbn [lit]. rewrite run_seq, run_chr. destruct s as [|d t]; [done|].
    destruct (d =? c)%N eqn:E; [|done].
    apply N.eqb_eq in E as ->. rewrite bind_singleton.
    apply IH. intros Hp. apply Hn. by apply prefix_cons.
Qed.

End ReFacts.

Section Loops.
Implicit Types (s t w : str) (p : option N) (g : option str) (r : regex).

Lemma elem_of_splits_desc w x : x ∈ splits_desc w ↔ x.1 ++ x.2 = w.
Proof.
  revert x. induction w as [|c w IH]; intros [a b]; simpl.
  - rewrite list_elem_of_singleton. split.
    + by intros [= -> ->].
    + by intros [-> ->]%app_eq_nil.
  - rewrite elem_of_app, list_elem_of_fmap, list_elem_of_singleton. split.
    + intros [([a' b'] & [= -> ->] & H%IH)|[= -> ->]]; simpl in *; [by subst|done].
    + destruct a as [|d a]; simpl; [intros ->; by right|].
      intros [= -> <-]. left. exists (a, b). split; [done|]. by apply IH.
Qed.

Lemma elem_of_splits1_desc w x : x ∈ splits1_desc w ↔ x.1 ++ x.2 = w ∧ x.1 ≠ [].
Proof.
  destruct w as [|c w]; simpl.
  - rewrite elem_of_nil. split; [done|]. intros [[??]%app_eq_nil ?]. done.
  - rewrite list_elem_of_fmap. destruct x as [a b]. split.
    + intros ([a' b'] & [= -> ->] & H%elem_of_splits_desc). simpl in *. by subst.
    + destruct a as [|d a]; [by intros [_ ?]|]. simpl. intros [[= -> <-] _].
      exists (a, b). split; [done|]. by apply elem_of_splits_desc.
Qed.

Lemma elem_of_splits_asc w x : x ∈ splits_asc w ↔ x.1 ++ x.2 = w.
Proof.
  revert x. induction w as [|c w IH]; intros [a b]; simpl.
  - rewrite list_elem_of_singleton. split.
    + by intros [= -> ->].
    + by intros [-> ->]%app_eq_nil.
  - rewrite elem_of_cons, list_elem_of_fmap. split.
    + intros [[= -> ->]|([a' b'] & [= -> ->] & H%IH)]; simpl in *; [done|by subst].
    + destruct a as [|d a]; simpl; [intros ->; by left|].
      intros [= -> <-]. right. exists (a, b). split; [done|]. by apply IH.
Qed.

Lemma splits_desc_head w : ∃ tl, splits_desc w = (w, []) :: tl.
Proof.
  induction w as [|c w [tl IH]]; simpl; [by eexists|].
  rewrite IH. simpl. by eexists.
Qed.

Lemma splits1_desc_head c w : ∃ tl, splits1_desc (c :: w) = (c :: w, []) :: tl.
Proof. simpl. destruct (splits_desc_head w) as [tl ->]. simpl. by eexists. Qed.

(** Backtracking into shorter first parts changes nothing when the
    continuation fails on all of them. *)
Lemma bind_splits_desc_commit {B} (F : str * str → list B) w :
  (∀ w1 c w2, w = w1 ++ c :: w2 → F (w1, c :: w2) = []) →
  splits_desc w ≫= F = F (w, []).
Proof.
  revert F. induction w as [|c w IH]; intros F HF; simpl.
  - apply bind_singleton.
  - rewrite bind_app, list_fmap_bind, bind_singleton.
    rewrite (HF [] c w eq_refl), app_nil_r. rewrite IH; [done|].
    intros w1 d w2 ->. simpl. by apply (HF (c :: w1)).
Qed.

Lemma bind_splits1_desc_commit {B} (F : str * str → list B) w :
  w ≠ [] →
  (∀ w1 c w2, w1 ≠ [] → w = w1 ++ c :: w2 → F (w1, c :: w2) = []) →
  splits1_desc w ≫= F = F (w, []).
Proof.
  destruct w as [|c w]; [done|]. intros _ HF. simpl.
  rewrite list_fmap_bind, bind_splits_desc_commit; [done|].
  intros w1 d w2 ->. simpl. by apply (HF (c :: w1)).
Qed.

Lemma run_star r st : run (Star r) st = greedy (run r) (length (rest st)) st.
Proof. done. Qed.

Lemma run_plus r st :
  run (Plus r) st = run r st ≫= λ st1, greedy (run r) (length (rest st1)) st1.
Proof. done. Qed.

Lemma run_pluslazy r st :
  run (PlusLazy r) st = run r st ≫= λ st1, lazy (run r) (length (rest st1)) st1.
Proof. done. Qed.

Lemma run_opt r st : run (Opt r) st = run r st ++ [st].
Proof. done. Qed.

Lemma run_grp r st : run (Grp r) st = capture st <$> run r st.
Proof. done. Qed.

Context (neg : bool) (items : list citem).
Local Abbreviation P := (in_class neg items).

Lemma run_cls_hit c p s g :
  P c = true → run (Cls neg items) (MState p (c :: s) g) = [MState (Some c) s g].
Proof. simpl. by intros ->. Qed.

Lemma run_cls_stop p s g :
  stops P s → run (Cls neg items) (MState p s g) = [].
Proof. destruct s as [|c s]; simpl; [done|]. by intros ->. Qed.

Lemma greedy_cls w : ∀ p s g fuel,
  Forall (λ c, P c = true) w → stops P s → length (w ++ s) ≤ fuel →
  greedy (run (Cls neg items)) fuel (MState p (w ++ s) g)
  = after p s g <$> splits_desc w.
Proof.
  induction w as [|c w IH]; intros p s g fuel Hw Hs Hf.
  - destruct fuel as [|n]; [done|]. cbn [greedy app].
    by rewrite run_cls_stop.
  - destruct fuel as [|n]; [simpl in Hf; lia|].
    apply Forall_cons in Hw as [Hc Hw].
    cbn [greedy]. rewrite <-app_comm_cons, run_cls_hit, bind_singleton by done.
    unfold shorter. cbn [rest length].
    destruct (Nat.ltb_spec (length (w ++ s)) (S (length (w ++ s)))); [|lia].
    rewrite IH by (simpl in Hf; done || lia).
    cbn [splits_desc]. rewrite fmap_app, <-list_fmap_compose. f_equal.
    apply list_fmap_ext. intros _ [a b] _. unfold after. simpl.
    by rewrite plast_cons.
Qed.

Lemma lazy_cls w : ∀ p s g fuel,
  Forall (λ c, P c = true) w → stops P s → length (w ++ s) ≤ fuel →
  lazy (run (Cls neg items)) fuel (MState p (w ++ s) g)
  = after p s g <$> splits_asc w.
Proof.
  induction w as [|c w IH]; intros p s g fuel Hw Hs Hf.
  - destruct fuel as [|n]; [done|]. cbn [lazy app].
    by rewrite run_cls_stop.
  - destruct fuel as [|n]; [simpl in Hf; lia|].
    apply Forall_cons in Hw as [Hc Hw].
    cbn [lazy]. rewrite <-app_comm_cons, run_cls_hit, bind_singleton by done.
    unfold shorter. cbn [rest length].
    destruct (Nat.ltb_spec (length (w ++ s)) (S (length (w ++ s)))); [|lia].
    rewrite IH by (simpl in Hf; done || lia).
    cbn [splits_asc fmap list_fmap]. f_equal. rewrite <-list_fmap_compose.
    apply list_fmap_ext. intros _ [a b] _. unfold after. simpl.
    by rewrite plast_cons.
Qed.

Lemma run_star_cls w p s g :
  Forall (λ c, P c = true) w → stops P s →
  run (Star (Cls neg items)) (MState p (w ++ s) g) = after p s g <$> splits_desc w.
Proof. intros. rewrite run_star. by apply greedy_cls. Qed.

Lemma run_plus_cls w p s g :
  Forall (λ c, P c = true) w → stops P s →
  run (Plus (Cls neg items)) (MState p (w ++ s) g) = after p s g <$> splits1_desc w.
Proof.
  intros Hw Hs. destruct w as [|c w].
  - rewrite run_plus. cbn [app]. by rewrite run_cls_stop.
  - apply Forall_cons in Hw as [Hc Hw]. rewrite run_plus.
    rewrite <-app_comm_cons, run_cls_hit, bind_singleton by done.
    cbn [rest]. rewrite greedy_cls by done. cbn [splits1_desc].
    rewrite <-list_fmap_compose.
    apply list_fmap_ext. intros _ [a b] _. unfold after. simpl.
    by rewrite plast_cons.
Qed.

Lemma run_pluslazy_cls w p s g :
  Forall (λ c, P c = true) w → stops P s →
  run (PlusLazy (Cls neg items)) (MState p (w ++ s) g) = after p s g <$> splits1_asc w.
Proof.
  intros Hw Hs. destruct w as [|c w].
  - rewrite run_pluslazy. cbn [app]. by rewrite run_cls_stop.
  - apply Forall_cons in Hw as [Hc Hw]. rewrite run_pluslazy.
    rewrite <-app_comm_cons, run_cls_hit, bind_singleton by done.
    cbn [rest]. rewrite lazy_cls by done. cbn [splits1_asc].
    rewrite <-list_fmap_compose.
    apply list_fmap_ext. intros _ [a b] _. unfold after. simpl.
    by rewrite plast_cons.
Qed.

(** A group around a loop records the first part of the cut. *)
Lemma run_grp_splits r w p s g (L : list (str * str)) :
  run r (MState p (w ++ s) g) = after p s g <$> L →
  Forall (λ x, x.1 ++ x.2 = w) L →
  run (Grp r) (MState p (w ++ s) g) = after_grp p s <$> L.
Proof.
  intros Hr HL. rewrite run_grp, Hr, <-list_fmap_compose.
  apply Forall_fmap_ext_1. eapply Forall_impl; [exact HL|].
  intros [a b] Hab. simpl in *. unfold capture, after_grp. simpl. f_equal.
  subst w. rewrite <-app_assoc, !length_app.
  replace (length a + (length b + length s) - (length b + length s))
    with (length a) by lia.
  by rewrite take_app_length.
Qed.

End Loops.

Section Scan.
Implicit Types (s t w : str) (p : option N) (g : option str) (r : regex).

Lemma search_go_None r s : ∀ p i,
  search_go r p s i = None ↔
  ∀ a b, s = a ++ b → match_here r (plast p a) b = None.
Proof.
  induction s as [|c s IH]; intros p i; cbn [search_go].
  - destruct (match_here r p []) as [[w g]|] eqn:E.
    + split; [done|]. intros H. specialize (H [] [] eq_refl).
      rewrite plast_nil in H. congruence.
    + split; [|done]. intros _ a b Hab. symmetry in Hab.
      by apply app_eq_nil in Hab as [-> ->].
  - destruct (match_here r p (c :: s)) as [[w g]|] eqn:E.
    + split; [done|]. intros H. specialize (H [] (c :: s) eq_refl).
      rewrite plast_nil in H. congruence.
    + rewrite IH. split.
      * intros H [|d a] b Hab; simpl in Hab.
        -- by subst b.
        -- injection Hab as <- ->. rewrite plast_cons. by apply H.
      * intros H a b ->. specialize (H (c :: a) b eq_refl).
        by rewrite plast_cons in H.
Qed.

Lemma search_go_Some r s : ∀ p i m,
  search_go r p s i = Some m →
  ∃ a b, s = a ++ b ∧ m_start m = i + length a ∧
    match_here r (plast p a) b = Some (m_text m, m_group1 m) ∧
    ∀ a1 a2, a = a1 ++ a2 → a2 ≠ [] →
      match_here r (plast p a1) (a2 ++ b) = None.
Proof.
  induction s as [|c s IH]; intros p i m; cbn [search_go].
  - destruct (match_here r p []) as [[w g]|] eqn:E; [|done].
    intros [= <-]. exists [], []. simpl. rewrite Nat.add_0_r.
    repeat split; [done|]. intros a1 a2 Ha. symmetry in Ha.
    by apply app_eq_nil in Ha as [_ ->].
  - destruct (match_here r p (c :: s)) as [[w g]|] eqn:E.
    + intros [= <-]. exists [], (c :: s). simpl. rewrite Nat.add_0_r.
      repeat split; [done|]. intros a1 a2 Ha. symmetry in Ha.
      by apply app_eq_nil in Ha as [_ ->].
    + intros (a & b & -> & Hst & Hm & Hbefore)%IH.
      exists (c :: a), b. rewrite plast_cons. simpl.
      repeat split; [lia|done|].
      intros [|d a1] a2 Ha Hne; simpl in Ha.
      * subst a2. by rewrite plast_nil.
      * injection Ha as <- ->. rewrite plast_cons. by apply Hbefore.
Qed.

Context (r : regex) (repl : rmatch → str).

Lemma sub_go_done p s i : sub_go r repl (Some 0) p s i 0 = s.
Proof. by destruct s. Qed.

Lemma sub_go_skip count w : ∀ p s i,
  sub_go r repl count p (w ++ s) i (length w)
  = sub_go r repl count (plast p w) s (i + length w) 0.
Proof.
  induction w as [|c w IH]; intros p s i.
  - by rewrite Nat.add_0_r.
  - cbn [app length sub_go]. rewrite IH, plast_cons.
    by replace (i + S (length w)) with (S i + length w) by lia.
Qed.

Lemma sub_go_pass count a : ∀ p s i,
  exhausted count = false →
  (∀ a1 a2, a = a1 ++ a2 → a2 ≠ [] →
     match_here r (plast p a1) (a2 ++ s) = None) →
  sub_go r repl count p (a ++ s) i 0
  = a ++ sub_go r repl count (plast p a) s (i + length a) 0.
Proof.
  induction a as [|c a IH]; intros p s i Hc Hno.
  - by rewrite Nat.add_0_r.
  - pose proof (Hno [] (c :: a) eq_refl ltac:(done)) as H0.
    rewrite plast_nil in H0. cbn [app] in H0.
    cbn [app sub_go]. rewrite Hc, H0, plast_cons.
    rewrite IH; [| done |].
    + cbn [length]. by replace (i + S (length a)) with (S i + length a) by lia.
    + intros a1 a2 -> Hne. rewrite <-(plast_cons p). by apply Hno.
Qed.

Lemma sub_go_hit count w p s i g :
  exhausted count = false → w ≠ [] →
  match_here r p (w ++ s) = Some (w, g) →
  sub_go r repl count p (w ++ s) i 0
  = repl (RMatch i w g) ++
    sub_go r repl (used count) (plast p w) s (i + length w) 0.
Proof.
  intros Hc Hw Hm. destruct w as [|c w]; [done|].
  cbn [app sub_go]. rewrite Hc. cbn [app] in Hm. rewrite Hm.
  cbn [length]. rewrite sub_go_skip, plast_cons.
  by replace (i + S (length w)) with (S i + length w) by lia.
Qed.

(** A pattern that opens with a literal and a replacement that reads only
    the groups make [sub] blind to what came before. *)
Lemma sub_go_indep count s : ∀ p p' i i' k,
  (∀ p p' s, match_here r p s = match_here r p' s) →
  (∀ i i' w g, repl (RMatch i w g) = repl (RMatch i' w g)) →
  sub_go r repl count p s i k = sub_go r repl count p' s i' k.
Proof.
  revert count. induction s as [|c s IH]; intros count p p' i i' k Hm Hr.
  - destruct k; [|done]. cbn [sub_go]. rewrite (Hm p p').
    destruct (match_here r p' []) as [[w g]|]; [|done].
    by rewrite (Hr i i').
  - destruct k as [|k]; cbn [sub_go]; [|by apply IH].
    rewrite (Hm p p').
    destruct (exhausted count); [done|].
    destruct (match_here r p' (c :: s)) as [[w g]|].
    + rewrite (Hr i i'). f_equal.
      destruct (length w); [f_equal|]; by apply IH.
    + f_equal. by apply IH.
Qed.

Lemma findall_go_skip w : ∀ p s,
  findall_go r p (w ++ s) (length w) = findall_go r (plast p w) s 0.
Proof.
  induction w as [|c w IH]; intros p s; [done|].
  cbn [app length findall_go]. by rewrite IH, plast_cons.
Qed.

Lemma findall_go_pass a : ∀ p s,
  (∀ a1 a2, a = a1 ++ a2 → a2 ≠ [] →
     match_here r (plast p a1) (a2 ++ s) = None) →
  findall_go r p (a ++ s) 0 = findall_go r (plast p a) s 0.
Proof.
  induction a as [|c a IH]; intros p s Hno; [done|].
  pose proof (Hno [] (c :: a) eq_refl ltac:(done)) as H0.
  rewrite plast_nil in H0. cbn [app] in H0.
  cbn [app findall_go]. rewrite H0, plast_cons.
  rewrite IH; [done|].
  intros a1 a2 -> Hne. rewrite <-(plast_cons p). by apply Hno.
Qed.

Lemma findall_go_hit w p s g :
  w ≠ [] →
  match_here r p (w ++ s) = Some (w, g) →
  findall_go r p (w ++ s) 0 = default [] g :: findall_go r (plast p w) s 0.
Proof.
  intros Hw Hm. destruct w as [|c w]; [done|].
  cbn [app findall_go]. cbn [app] in Hm. rewrite Hm.
  cbn [length pred]. by rewrite findall_go_skip, plast_cons.
Qed.

End Scan.

Section Delimited.
Implicit Types (s t w k : str) (p : option N) (g : option str) (r : regex).

Lemma bind_assoc_list {A B C} (f : A → list B) (h : B → list C) (l : list A) :
  (l ≫= f) ≫= h = l ≫= (λ x, f x ≫= h).
Proof.
  induction l as [|x l IH]; [done|].
  by rewrite !bind_cons, bind_app, IH.
Qed.

Lemma run_seq_assoc r1 r2 r3 st :
  run ((r1 ⋅ r2) ⋅ r3) st = run (r1 ⋅ r2 ⋅ r3) st.
Proof. rewrite !run_seq. apply bind_assoc_list. Qed.

Lemma run_seq3_cont r1 r2 r3 r4 st :
  run (r1 ⋅ r2 ⋅ r3 ⋅ r4) st = run (r1 ⋅ r2 ⋅ r3) st ≫= run r4.
Proof.
  rewrite <-(run_seq (r1 ⋅ r2 ⋅ r3) r4), run_seq_assoc, !(run_seq r1).
  apply list_bind_ext; [|done]. intros x. symmetry. apply run_seq_assoc.
Qed.

Lemma in_class_differs c x : in_class true [CChar c] x = differs c x.
Proof. unfold in_class, differs. simpl. by rewrite orb_false_r. Qed.

Lemma Forall_differs c w :
  Forall (λ x, in_class true [CChar c] x = true) w ↔ c ∉ w.
Proof.
  rewrite Forall_forall. setoid_rewrite in_class_differs. unfold differs.
  split.
  - intros H Hc. specialize (H c Hc). by rewrite N.eqb_refl in H.
  - intros H x Hx. destruct (N.eqb_spec x c); [by subst|done].
Qed.

Lemma delim_at_Some o c s k t :
  delim_at o c s = Some (k, t) ↔
  s = [o; o] ++ k ++ [c; c] ++ t ∧ k ≠ [] ∧ c ∉ k.
Proof.
  split.
  - destruct s as [|a [|b s]]; [done..|]. cbn [delim_at].
    destruct (N.eqb_spec a o) as [->|]; [|done].
    destruct (N.eqb_spec b o) as [->|]; [|done]. cbn [andb].
    pose proof (take_drop_while (differs c) s) as Hs.
    pose proof (take_while_Forall (differs c) s) as Hk.
    pose proof (drop_while_stops (differs c) s) as Hd.
    destruct (take_while (differs c) s) as [|x k']; [done|].
    destruct (drop_while (differs c) s) as [|y [|z d]]; [done..|].
    destruct (N.eqb_spec z c) as [->|]; [|done].
    intros [= <- <-]. simpl in Hd. unfold differs in Hd.
    apply negb_false_iff, N.eqb_eq in Hd as ->.
    split; [by rewrite <-Hs|]. split; [done|].
    apply Forall_differs. eapply Forall_impl; [exact Hk|].
    intros ??. by rewrite in_class_differs.
  - intros (-> & Hk & Hc). cbn [app delim_at]. rewrite !N.eqb_refl. cbn [andb].
    assert (Forall (λ x, differs c x = true) k) as Hk'.
    { eapply Forall_impl; [by apply Forall_differs|].
      intros ??. by rewrite <-in_class_differs. }
    assert (stops (differs c) (c :: c :: t)) as Hst.
    { simpl. unfold differs. by rewrite N.eqb_refl. }
    rewrite take_while_app_stop, drop_while_app_stop by done.
    destruct k; [done|]. by rewrite N.eqb_refl.
Qed.

Lemma lit_miss_cons c v p x s g :
  x ≠ c → run (lit (c :: v)) (MState p (x :: s) g) = [].
Proof.
  intros Hx. apply run_lit_miss. simpl. intros [y Hy]. simpl in Hy. congruence.
Qed.

Lemma lit_miss_nil c v p g : run (lit (c :: v)) (MState p [] g) = [].
Proof. apply run_lit_miss. simpl. intros [y Hy]. simpl in Hy. congruence. Qed.

Lemma run_delim_gen (grouped : bool) o c p s g :
  run (lit [o; o] ⋅
       (if grouped then Grp (Plus (Cls true [CChar c]))
        else Plus (Cls true [CChar c])) ⋅
       lit [c; c]) (MState p s g)
  = match delim_at o c s with
    | Some (k, t) => [MState (Some c) t (if grouped then Some k else g)]
    | None => []
    end.
Proof.
  destruct s as [|a [|b s]].
  - rewrite run_seq, lit_miss_nil. done.
  - rewrite run_seq. cbn [lit]. rewrite run_seq, run_chr.
    destruct (a =? o)%N; [|done]. rewrite bind_singleton, run_seq, run_chr. done.
  - cbn [delim_at].
    destruct (N.eqb_spec a o) as [->|Ha]; cycle 1.
    { rewrite run_seq, lit_miss_cons; done. }
    destruct (N.eqb_spec b o) as [->|Hb]; cycle 1.
    { rewrite run_seq. cbn [lit]. rewrite run_seq, run_chr, N.eqb_refl.
      rewrite bind_singleton, run_seq, run_chr.
      destruct (N.eqb_spec b o); done. }
    cbn [andb]. rewrite run_seq.
    change (o :: o :: s) with ([o; o] ++ s).
    rewrite (run_lit [o; o] p s g), bind_singleton, run_seq.
    pose proof (take_drop_while (differs c) s) as Hs.
    pose proof (take_while_Forall (differs c) s) as Hk.
    pose proof (drop_while_stops (differs c) s) as Hd.
    set (k := take_while (differs c) s) in *.
    set (d := drop_while (differs c) s) in *.
    clearbody k d. subst s.
    assert (Forall (λ x, in_class true [CChar c] x = true) k) as Hk'.
    { eapply Forall_impl; [exact Hk|]. intros ??. by rewrite in_class_differs. }
    assert (stops (in_class true [CChar c]) d) as Hd'.
    { destruct d; [done|]. simpl in *. by rewrite orb_false_r. }
    assert (run (if grouped then Grp (Plus (Cls true [CChar c]))
                 else Plus (Cls true [CChar c]))
              (MState (plast p [o; o]) (k ++ d) g)
            = (λ x, MState (plast (plast p [o; o]) x.1) (x.2 ++ d)
                           (if grouped then Some x.1 else g))
              <$> splits1_desc k) as ->.
    { destruct grouped.
      - apply run_grp_splits; [by apply run_plus_cls|].
        apply Forall_forall. intros x Hx.
        by apply elem_of_splits1_desc in Hx as [? _].
      - by apply run_plus_cls. }
    rewrite list_fmap_bind.
    destruct k as [|x k]; [done|].
    rewrite bind_splits1_desc_commit; [|done|].
    + cbn [compose fst snd app].
      destruct d as [|y [|z d]].
      * by rewrite lit_miss_nil.
      * cbn [lit]. rewrite run_seq, run_chr.
        destruct (y =? c)%N; [|done]. rewrite bind_singleton, run_seq, run_chr. done.
      * simpl in Hd. unfold differs in Hd.
        apply negb_false_iff, N.eqb_eq in Hd as ->.
        destruct (N.eqb_spec z c) as [->|Hz].
        -- change (c :: c :: d) with ([c; c] ++ d).
           by rewrite (run_lit [c; c] _ d).
        -- cbn [lit]. rewrite run_seq, run_chr, N.eqb_refl.
           rewrite bind_singleton, run_seq, run_chr.
           destruct (N.eqb_spec z c); done.
    + intros w1 y w2 _ Hw. cbn [compose fst snd].
      rewrite <-app_comm_cons. apply lit_miss_cons.
      intros ->. apply Forall_differs in Hk'. apply Hk'. rewrite Hw.
      apply elem_of_app. right. apply list_elem_of_here.
Qed.

End Delimited.

(** ** The matcher reads forward and never runs out of fuel *)

Section MatcherSanity.
Implicit Types (st : mstate) (r : regex) (body : mstate → list mstate).

(** A loop whose body reads forward reads forward. *)
Lemma greedy_suffix body :
  (∀ st st', st' ∈ body st → rest st' `suffix_of` rest st) →
  ∀ fuel st st', st' ∈ greedy body fuel st → rest st' `suffix_of` rest st.
Proof.
  intros Hbody. induction fuel as [|n IH]; intros st st'; cbn [greedy].
  - by intros ->%list_elem_of_singleton.
  - rewrite elem_of_app, list_elem_of_bind, list_elem_of_singleton.
    intros [(st1 & Hin & H1)| ->]; [|done].
    destruct (shorter st1 st); [|by apply elem_of_nil in Hin].
    etrans; [by apply IH|by apply Hbody].
Qed.

Lemma lazy_suffix body :
  (∀ st st', st' ∈ body st → rest st' `suffix_of` rest st) →
  ∀ fuel st st', st' ∈ lazy body fuel st → rest st' `suffix_of` rest st.
Proof.
  intros Hbody. induction fuel as [|n IH]; intros st st'; cbn [lazy].
  - by intros ->%list_elem_of_singleton.
  - rewrite elem_of_cons, list_elem_of_bind.
    intros [->|(st1 & Hin & H1)]; [done|].
    destruct (shorter st1 st); [|by apply elem_of_nil in Hin].
    etrans; [by apply IH|by apply Hbody].
Qed.

(** Every outcome of a run leaves a suffix of the text. *)
Lemma run_suffix r : ∀ st st',
  st' ∈ run r st → rest st' `suffix_of` rest st.
Proof.
  induction r as [|neg items|r1 IH1 r2 IH2|r1 IH1|r1 IH1|r1 IH1|r1 IH1|r1 IH1| |];
    intros st st'; cbn [run].
  - by intros ->%list_elem_of_singleton.
  - destruct (rest st) as [|c t] eqn:Hr; [by intros ?%elem_of_nil|].
    destruct (in_class neg items c); [|by intros ?%elem_of_nil].
    intros ->%list_elem_of_singleton. cbn. by apply suffix_cons_r.
  - intros (st1 & H2 & H1)%list_elem_of_bind.
    etrans; [by apply IH2|by apply IH1].
  - by apply greedy_suffix.
  - intros (st1 & H2 & H1)%list_elem_of_bind.
    etrans; [by eapply greedy_suffix|by apply IH1].
  - rewrite elem_of_app, list_elem_of_singleton.
    intros [?| ->]; [by apply IH1|done].
  - intros (st1 & H2 & H1)%list_elem_of_bind.
    etrans; [by eapply lazy_suffix|by apply IH1].
  - intros (st1 & -> & H1)%list_elem_of_fmap. cbn. by apply IH1.
  - destruct (at_bol st); [|by intros ?%elem_of_nil].
    by intros ->%list_elem_of_singleton.
  - destruct (at_eol st); [|by intros ?%elem_of_nil].
    by intros ->%list_elem_of_singleton.
Qed.

(** More fuel than there are characters left changes nothing: the fuel of
    the loops is for the termination checker only. *)
Lemma greedy_enough body :
  (∀ st st', st' ∈ body st → rest st' `suffix_of` rest st) →
  ∀ n fuel st, length (rest st) ≤ n → n ≤ fuel →
    greedy body fuel st = greedy body n st.
Proof.
  intros Hbody. induction n as [|n IH]; intros fuel st Hlen Hfuel.
  - destruct fuel as [|f]; [done|]. cbn [greedy].
    replace (body st ≫= _) with (@nil mstate); [done|].
    symmetry. induction (body st) as [|st1 l IHl]; [done|].
    rewrite bind_cons, IHl. unfold shorter.
    destruct (Nat.ltb_spec (length (rest st1)) (length (rest st)))
      as [Hlt|_]; [lia|done].
  - destruct fuel as [|f]; [lia|]. cbn [greedy]. f_equal.
    apply Forall_bind_ext, Forall_forall. intros st1 Hst1.
    unfold shorter.
    destruct (Nat.ltb_spec (length (rest st1)) (length (rest st))); [|done].
    apply IH; lia.
Qed.

(** A match reads at least [min_len] characters. *)
Lemma run_consumes r : ∀ st st',
  st' ∈ run r st → length (rest st') + min_len r ≤ length (rest st).
Proof.
  assert (∀ r st st', st' ∈ run r st → length (rest st') ≤ length (rest st))
    as Hle.
  { intros r0 st st' [w Hw]%run_suffix. rewrite Hw, length_app. lia. }
  induction r as [|neg items|r1 IH1 r2 IH2|r1 IH1|r1 IH1|r1 IH1|r1 IH1|r1 IH1| |];
    intros st st' Hin; cbn [min_len];
    try (specialize (Hle _ _ _ Hin); lia).
  - cbn [run] in Hin. destruct (rest st) as [|c t] eqn:Hr; [by apply elem_of_nil in Hin|].
    destruct (in_class neg items c); [|by apply elem_of_nil in Hin].
    apply list_elem_of_singleton in Hin as ->. cbn. lia.
  - cbn [run] in Hin. apply list_elem_of_bind in Hin as (st1 & H2 & H1).
    specialize (IH1 _ _ H1). specialize (IH2 _ _ H2). lia.
  - cbn [run] in Hin. apply list_elem_of_bind in Hin as (st1 & H2 & H1).
    specialize (IH1 _ _ H1).
    apply (greedy_suffix (run r1) (run_suffix r1)) in H2 as [w Hw].
    rewrite Hw, length_app in IH1. lia.
  - cbn [run] in Hin. apply list_elem_of_bind in Hin as (st1 & H2 & H1).
    specialize (IH1 _ _ H1).
    apply (lazy_suffix (run r1) (run_suffix r1)) in H2 as [w Hw].
    rewrite Hw, length_app in IH1. lia.
  - cbn [run] in Hin. apply list_elem_of_fmap in Hin as (st1 & -> & H1).
    cbn. by apply IH1.
Qed.

(** No pattern of the scripts matches the empty word, so the clause of
    [sub] and [findall] for empty matches is never used. *)
Lemma patterns_read_something r p s w g :
  r ∈ all_patterns → match_here r p s = Some (w, g) → w ≠ [].
Proof.
  intros Hr Hm. unfold match_here in Hm.
  destruct (run r (MState p s None)) as [|st' l] eqn:Hrun; [done|].
  injection Hm as <- _.
  assert (st' ∈ run r (MState p s None)) as Hin
    by (rewrite Hrun; apply list_elem_of_here).
  pose proof (run_consumes r _ _ Hin) as Hlen. cbn [rest] in Hlen.
  assert (0 < min_len r) as Hpos.
  { unfold all_patterns in Hr.
    repeat (apply elem_of_cons in Hr as [->|Hr]; [vm_compute; lia|]).
    by apply elem_of_nil in Hr. }
  intros Hnil%(f_equal length). rewrite length_take in Hnil. cbn in Hnil. lia.
Qed.

End MatcherSanity.

(** ** The section split *)

Section SplitSections.
Implicit Types (text s : str).

Lemma slice_concat a b s :
  a ≤ b → take a s ++ slice a b s ++ drop b s = s.
Proof.
  intros Hab. unfold slice.
  replace (drop b s) with (drop (b - a) (drop a s)).
  - by rewrite take_drop, take_drop.
  - rewrite drop_drop. f_equal. lia.
Qed.

Lemma search_start_le r s m : search r s = Some m → m_start m ≤ length s.
Proof.
  intros (a & b & -> & Hst & _)%search_go_Some.
  rewrite Hst, length_app. lia.
Qed.

Lemma split_sections_app text before refs after :
  split_sections text = (before, refs, after) →
  before ++ refs ++ after = text.
Proof.
  unfold split_sections.
  destruct (search heading_re text) as [m|] eqn:Hm.
  - apply search_start_le in Hm.
    destruct (search next_heading_re (drop (m_start m + 1) text));
      intros [= <- <- <-]; apply slice_concat; lia.
  - intros [= <- <- <-]. by rewrite !app_nil_r.
Qed.

(** C10: the three segments of the section split, put back together in
    order, are the input text: no character is lost, repeated or moved. *)
Theorem split_sections_concat text :
  let '(before, refs, after) := split_sections text in
  before ++ refs ++ after = text.
Proof.
  destruct (split_sections text) as [[before refs] after] eqn:Hs.
  by apply split_sections_app.
Qed.

End SplitSections.

(** ** Usage errors *)

Section Usage.
Import Proc.

(** C9: with a wrong number of arguments either tool prints its usage line
    on standard error and exits with status 1; no file is opened, standard
    input is not read, nothing is written to standard output. *)
Theorem wrong_count_usage (t : tool) (argv : list str) (w : world) :
  wrong_count t argv →
  entry t argv w =
    (Exited 1, World (files w) (stdin w) (stdout w)
                     (stderr w ++ usage t ++ [NL]) (trace w)).
Proof.
  destruct t; cbn [wrong_count entry usage]; unfold arguments; intros Hn.
  - unfold fix_cites_main.
    destruct (Nat.eqb_spec (length argv) 2) as [He|_]; [|done].
    destruct argv as [|? [|? [|? ?]]]; simpl in *; done || lia.
  - unfold number_citations_main.
    destruct (Nat.ltb_spec 2 (length argv)) as [_|Hle]; [done|].
    destruct argv as [|? [|? [|? ?]]]; simpl in *; lia.
Qed.

Lemma wrong_count_usage_witness :
  entry FixCitesTool [u "fix_cites.py"] (World ∅ [] [] [] [])
  = (Exited 1, World ∅ [] [] (usage FixCitesTool ++ [NL]) []) ∧
  entry NumberCitationsTool [u "number_citations.py"; u "a.adoc"; u "b.adoc"]
        (World ∅ (u "text") [] [] [])
  = (Exited 1, World ∅ (u "text") [] (usage NumberCitationsTool ++ [NL]) []).
Proof.
  split.
  - apply (wrong_count_usage FixCitesTool). simpl. lia.
  - apply (wrong_count_usage NumberCitationsTool). simpl. lia.
Defined.

End Usage.

(** ** A substitution that finds no match *)

Section FixIdentity.

Lemma sub_no_match r repl count s :
  search r s = None → sub r repl count s = s.
Proof.
  intros Hno. unfold sub.
  destruct (exhausted count) eqn:Hc.
  { destruct count as [[|?]|]; try done. apply sub_go_done. }
  pose proof (proj1 (search_go_None r s None 0) Hno) as Hall.
  rewrite <-(app_nil_r s) at 1. rewrite sub_go_pass; [|done|].
  - cbn [sub_go]. rewrite Hc, (Hall s []) by (by rewrite app_nil_r).
    by rewrite app_nil_r.
  - intros a1 a2 -> _. rewrite app_nil_r. by apply Hall.
Qed.

End FixIdentity.

(** ** Running number_citations.py on its own output *)

Section Idempotence.

(** C4 does not hold of the code: the output of a first run has no marker
    left, and a second run changes it.  [renumber_references] joins the
    lines of the references block with single newlines and emits none
    after the last line, so every run eats the line terminator that ends
    the block; here the second run glues the next heading to the last
    reference. *)
Theorem second_run_changes_output :
  let once := transform sample_doc in
  let twice := transform once in
  once = u "Text [1]." ++ [NL; NL] ++ u "== References" ++ [NL; NL] ++
         u "* [1] A" ++ [NL] ++ u "== Appendix" ++ [NL; NL] ++
         u "More." ++ [NL] ∧
  search citation_re once = None ∧
  search anchor_re once = None ∧
  twice = u "Text [1]." ++ [NL; NL] ++ u "== References" ++ [NL; NL] ++
          u "* [1] A== Appendix" ++ [NL; NL] ++ u "More." ++ [NL] ∧
  twice ≠ once.
Proof. cbv zeta. repeat split; by vm_compute. Qed.

End Idempotence.

(** ** Documents without a References heading *)

Section Passthrough.
Import Proc.
Implicit Types (s t w text : str) (p : option N).

Lemma run_bol r st : run (Bol ⋅ r) st = if at_bol st then run r st else [].
Proof. rewrite run_seq. cbn [run]. destruct (at_bol st); [apply bind_singleton|done]. Qed.

Lemma match_here_Some_run r p s x :
  match_here r p s = Some x → run r (MState p s None) ≠ [].
Proof. unfold match_here. by destruct (run _ _). Qed.

Lemma Forall_is_space_class w :
  Forall (λ c, is_space c = true) w →
  Forall (λ c, in_class false [CSpace] c = true) w.
Proof.
  intros H. eapply Forall_impl; [exact H|].
  intros c Hc. unfold in_class. simpl. by rewrite Hc.
Qed.

Lemma stops_is_space_class s : stops is_space s → stops (in_class false [CSpace]) s.
Proof. destruct s as [|c s]; [done|]. simpl. by intros ->. Qed.

(** Where [heading_re] matches, a line starts, and the text reads
    [== References], white space, and then the line ends. *)
Lemma heading_match_inv p s :
  run heading_re (MState p s None) ≠ [] →
  at_bol (MState p s None) = true ∧
  ∃ w t, s = u "== References" ++ w ++ t ∧
         Forall (λ c, is_space c = true) w ∧
         at_eol (MState None t None) = true.
Proof.
  unfold heading_re, space. rewrite run_bol.
  destruct (at_bol _) eqn:Hbol; [|done]. intros Hrun. split; [done|].
  rewrite run_seq in Hrun.
  destruct (decide (u "== References" `prefix_of` s)) as [[s1 ->]|Hn]; cycle 1.
  { by rewrite run_lit_miss in Hrun. }
  rewrite run_lit, bind_singleton in Hrun.
  pose proof (take_drop_while is_space s1) as Hs.
  pose proof (take_while_Forall is_space s1) as Hw.
  pose proof (drop_while_stops is_space s1) as Hd.
  set (w := take_while is_space s1) in *.
  set (d := drop_while is_space s1) in *. clearbody w d. subst s1.
  rewrite run_seq, run_star_cls in Hrun
    by (by apply Forall_is_space_class || by apply stops_is_space_class).
  rewrite list_fmap_bind in Hrun.
  destruct (splits_desc w ≫= run Eol ∘ after _ d None) as [|st' l] eqn:Hb;
    [done|].
  assert (st' ∈ splits_desc w
                 ≫= run Eol ∘ after (plast p (u "== References")) d None)
    as Hin by (rewrite Hb; apply list_elem_of_here).
  apply list_elem_of_bind in Hin as ([w1 w2] & Hst & Hx%elem_of_splits_desc).
  simpl in Hx. subst w. cbn [compose run after fst snd] in Hst.
  destruct (at_eol _) eqn:Heol in Hst; [|by apply elem_of_nil in Hst].
  exists w1, (w2 ++ d). split; [by rewrite <-app_assoc|]. split.
  - by apply Forall_app in Hw as [? _].
  - done.
Qed.

Lemma lines_nl_head s : ∃ ls, lines_nl s = first_line s :: ls.
Proof.
  induction s as [|c s [ls IH]]; [by eexists|].
  cbn [lines_nl first_line take_while]. unfold differs at 1.
  destruct (c =? NL)%N; simpl; [by eexists|].
  rewrite IH. by eexists.
Qed.

Lemma lines_nl_app_nl a b : lines_nl (a ++ NL :: b) = lines_nl a ++ lines_nl b.
Proof.
  induction a as [|c a IH]; [done|].
  cbn [app lines_nl]. rewrite IH.
  destruct (c =? NL)%N; [done|].
  destruct (lines_nl_head a) as [ls ->]. done.
Qed.

Lemma first_line_in_lines a b :
  at_bol (MState (plast None a) b None) = true →
  first_line b ∈ lines_nl (a ++ b).
Proof.
  unfold at_bol, plast. cbn [prev].
  destruct (last a) as [c|] eqn:Hl.
  - intros ->%N.eqb_eq. apply last_Some in Hl as [a' ->].
    rewrite <-app_assoc. cbn [app]. rewrite lines_nl_app_nl.
    apply elem_of_app. right.
    destruct (lines_nl_head b) as [ls ->]. apply list_elem_of_here.
  - intros _. apply last_None in Hl as ->. cbn [app].
    destruct (lines_nl_head b) as [ls ->]. apply list_elem_of_here.
Qed.

Lemma first_line_app_all w s :
  Forall (λ c, differs NL c = true) w → first_line (w ++ s) = w ++ first_line s.
Proof.
  unfold first_line. induction 1 as [|c w Hc _ IH]; [done|].
  cbn [app take_while]. by rewrite Hc, IH.
Qed.

Lemma first_line_eol w t :
  at_eol (MState None t None) = true →
  ∃ w1 w2, w = w1 ++ w2 ∧ first_line (w ++ t) = w1.
Proof.
  intros Ht. unfold first_line. induction w as [|c w (w1 & w2 & -> & IH)].
  - exists [], []. split; [done|]. destruct t as [|c t]; [done|].
    unfold at_eol in Ht. cbn in Ht. cbn. unfold differs. by rewrite Ht.
  - cbn [app take_while]. destruct (differs NL c).
    + exists (c :: w1), w2. by rewrite IH.
    + by exists [], (c :: w1 ++ w2).
Qed.

Lemma no_heading_no_match text :
  has_references_heading text = false → search heading_re text = None.
Proof.
  intros Hno. apply search_go_None. intros a b ->.
  destruct (match_here heading_re (plast None a) b) as [x|] eqn:Hm; [|done].
  exfalso. apply match_here_Some_run, heading_match_inv in Hm
    as (Hbol & w & t & -> & Hw & Heol).
  apply first_line_in_lines in Hbol.
  rewrite first_line_app_all in Hbol by (by vm_compute; repeat constructor).
  destruct (first_line_eol w t Heol) as (w1 & w2 & -> & Hfl).
  rewrite Hfl in Hbol.
  unfold has_references_heading in Hno.
  apply not_true_iff_false in Hno. apply Hno.
  apply existsb_exists. exists (u "== References" ++ w1).
  split; [by rewrite <-list_elem_of_In|].
  unfold is_references_heading. apply andb_true_iff. split.
  - by apply bool_decide_eq_true.
  - change (drop 13 (u "== References" ++ w1)) with w1.
    apply forallb_forall. intros c Hc%list_elem_of_In.
    apply Forall_app in Hw as [Hw1 _].
    by apply (proj1 (Forall_forall _ _) Hw1).
Qed.

Lemma transform_no_heading text :
  has_references_heading text = false → transform text = text.
Proof.
  intros Hno. unfold transform, split_sections.
  by rewrite no_heading_no_match.
Qed.

(** What the entry point does once it has its input text. *)
Lemma main_output (argv : list str) (w : world) text :
  input_text argv w = Some text →
  number_citations_main argv w
  = (Done (), after_run argv w (transform text)).
Proof.
  intros Hin.
  unfold number_citations_main, transform, after_run, input_event, reads_stdin.
  destruct argv as [|prog [|a [|b argv]]]; [done| | |done]; cbn in Hin |- *.
  - injection Hin as <-.
    unfold bind, stdin_read, stdout_write, ret, log. cbn.
    destruct (split_sections (stdin w)) as [[before refs] after].
    destruct refs as [|c refs]; [done|].
    destruct (parse_reference_keys (c :: refs)) as [ordered_keys key_to_num].
    cbn. by rewrite <-!app_assoc.
  - unfold bind, argv_item, stdin_read, read_text, stdout_write, ret, log. cbn.
    destruct (bool_decide (a = u "-")); cbn.
    + injection Hin as <-.
      destruct (split_sections (stdin w)) as [[before refs] after].
      destruct refs as [|c refs]; [done|].
      destruct (parse_reference_keys (c :: refs)) as [ordered_keys key_to_num].
      cbn. by rewrite <-!app_assoc.
    + destruct (files w !! a) as [[raw ow|e ow]|]; [|done..].
      injection Hin as <-.
      destruct (split_sections (universal_newlines raw))
        as [[before refs] after].
      destruct refs as [|c refs]; [done|].
      destruct (parse_reference_keys (c :: refs)) as [ordered_keys key_to_num].
      cbn. by rewrite <-!app_assoc.
Qed.

(** A text without carriage return is read as it is stored. *)
Lemma universal_newlines_id (s : str) : CR ∉ s → universal_newlines s = s.
Proof.
  induction s as [|c s IH]; [done|]. intros [Hc Hs]%not_elem_of_cons.
  cbn [universal_newlines]. destruct (N.eqb_spec c CR) as [->|_]; [done|].
  by rewrite IH.
Qed.

(** What is read of the input is the input, unless it is a file that
    holds a carriage return. *)
Lemma input_text_raw (argv : list str) (w : world) raw :
  input_raw argv w = Some raw →
  input_text argv w
  = Some (if reads_stdin argv then raw else universal_newlines raw).
Proof.
  unfold input_raw, input_text, reads_stdin.
  destruct argv as [|prog [|a [|b argv]]]; [done| | |done].
  - by intros [= <-].
  - destruct (bool_decide (a = u "-")); [by intros [= <-]|].
    destruct (files w !! a) as [[raw' ow|e ow]|]; [|done..].
    by intros [= <-].
Qed.

(** C8, as the code has it: the text the tool works on is standard input
    as it is, or the file with its line ends translated (CRLF and CR read
    as LF).  When no line of that text is a top-level References heading
    (the heading, possibly followed by white space), the run ends
    normally and writes that text, and nothing else, to standard output.
    What is written is the input itself when the input is standard input
    or a file without carriage return. *)
Theorem no_references_passthrough (argv : list str) (raw : str) (w : world) :
  input_raw argv w = Some raw →
  let text := if reads_stdin argv then raw else universal_newlines raw in
  has_references_heading text = false →
  transform text = text ∧
  number_citations_main argv w = (Done (), after_run argv w text) ∧
  (reads_stdin argv = true ∨ CR ∉ raw → text = raw).
Proof.
  intros Hraw text Hno. pose proof (transform_no_heading text Hno) as Hid.
  split; [done|]. split.
  - rewrite (main_output argv w text); [by rewrite Hid|].
    by apply input_text_raw.
  - subst text. intros [-> | Hcr]; [done|].
    destruct (reads_stdin argv); [done|]. by apply universal_newlines_id.
Qed.

Lemma no_references_passthrough_witness :
  let doc := u "= Title" ++ [NL] ++ u "See <<a>>." ++ [NL] ++
             u "=== References" ++ [NL] ++ u "* [[a]] A" ++ [NL] in
  let w := World {[ u "doc.adoc" := Text doc None ]} [] [] [] [] in
  transform doc = doc ∧
  number_citations_main [u "number_citations.py"; u "doc.adoc"] w
  = (Done (),
     World {[ u "doc.adoc" := Text doc None ]} [] doc []
           [OpenRead (u "doc.adoc")]) ∧
  (reads_stdin [u "number_citations.py"; u "doc.adoc"] = true ∨ CR ∉ doc →
   doc = doc).
Proof.
  refine (no_references_passthrough [u "number_citations.py"; u "doc.adoc"]
    (u "= Title" ++ [NL] ++ u "See <<a>>." ++ [NL] ++
     u "=== References" ++ [NL] ++ u "* [[a]] A" ++ [NL])
    (World {[ u "doc.adoc" :=
                Text (u "= Title" ++ [NL] ++ u "See <<a>>." ++ [NL] ++
                      u "=== References" ++ [NL] ++ u "* [[a]] A" ++ [NL])
                     None ]}
           [] [] [] [])
    _ _).
  - vm_compute. reflexivity.
  - vm_compute. reflexivity.
Defined.

(** The claim of C8 as it is written fails for a file with CRLF line
    ends: the file has no References heading, and the output is not the
    file's content, since every CRLF has become LF.  With CR alone as
    line end, a heading that no line of the stored file shows is even
    found, and the document numbered. *)
Lemma crlf_file_not_passed_through :
  let argv := [u "number_citations.py"; u "doc.adoc"] in
  let raw := u "One" ++ [CR; NL] ++ u "two" ++ [CR; NL] in
  let mac := u "See <<a>>." ++ [CR] ++ u "== References" ++ [CR] ++
             u "* [[a]] A" in
  has_references_heading raw = false ∧
  (number_citations_main argv
     (World {[ u "doc.adoc" := Text raw None ]} [] [] [] [])).1 = Done () ∧
  stdout (number_citations_main argv
            (World {[ u "doc.adoc" := Text raw None ]} [] [] [] [])).2
  = u "One" ++ [NL] ++ u "two" ++ [NL] ∧
  stdout (number_citations_main argv
            (World {[ u "doc.adoc" := Text raw None ]} [] [] [] [])).2
  ≠ raw ∧
  has_references_heading mac = false ∧
  stdout (number_citations_main argv
            (World {[ u "doc.adoc" := Text mac None ]} [] [] [] [])).2
  = u "See [1]." ++ [NL] ++ u "== References" ++ [NL] ++ u "* [1] A".
Proof.
  cbv zeta. repeat split; by vm_compute.
Qed.

End Passthrough.

(** ** Anchors of the references block *)

Section Anchors.
Implicit Types (s t line pre key post : str) (p : option N).

Lemma anchor_re_run p s g :
  run anchor_re (MState p s g)
  = match delim_at 91 93 s with
    | Some (k, t) => [MState (Some 93%N) t (Some k)]
    | None => []
    end.
Proof. apply (run_delim_gen true 91 93). Qed.

Lemma anchor_plain_re_run p s g :
  run anchor_plain_re (MState p s g)
  = match delim_at 91 93 s with
    | Some (k, t) => [MState (Some 93%N) t g]
    | None => []
    end.
Proof. apply (run_delim_gen false 91 93). Qed.

Lemma consumed_prefix (w t : str) : take (length (w ++ t) - length t) (w ++ t) = w.
Proof.
  rewrite length_app.
  replace (length w + length t - length t) with (length w) by lia.
  by rewrite take_app_length.
Qed.

Lemma match_here_first r p (w t : str) st' l :
  run r (MState p (w ++ t) None) = st' :: l → rest st' = t →
  match_here r p (w ++ t) = Some (w, grp st').
Proof.
  intros Hr Ht. unfold match_here. rewrite Hr, Ht. by rewrite consumed_prefix.
Qed.

Lemma anchor_text key post :
  [91; 91]%N ++ key ++ [93; 93]%N ++ post = ([91; 91]%N ++ key ++ [93; 93]%N) ++ post.
Proof. by rewrite <-!app_assoc. Qed.

Lemma anchor_re_here p s :
  match_here anchor_re p s
  = (λ x, ([91; 91]%N ++ x.1 ++ [93; 93]%N, Some x.1)) <$> delim_at 91 93 s.
Proof.
  destruct (delim_at 91 93 s) as [[k t]|] eqn:Hd.
  - pose proof Hd as (-> & _ & _)%delim_at_Some. rewrite anchor_text.
    rewrite (match_here_first anchor_re p _ t (MState (Some 93%N) t (Some k)) []);
      [done| |done].
    rewrite <-anchor_text, anchor_re_run, Hd. done.
  - unfold match_here. by rewrite anchor_re_run, Hd.
Qed.

Lemma anchor_plain_re_here p s :
  match_here anchor_plain_re p s
  = (λ x, ([91; 91]%N ++ x.1 ++ [93; 93]%N, None)) <$> delim_at 91 93 s.
Proof.
  destruct (delim_at 91 93 s) as [[k t]|] eqn:Hd.
  - pose proof Hd as (-> & _ & _)%delim_at_Some. rewrite anchor_text.
    rewrite (match_here_first anchor_plain_re p _ t (MState (Some 93%N) t None) []);
      [done| |done].
    rewrite <-anchor_text, anchor_plain_re_run, Hd. done.
  - unfold match_here. by rewrite anchor_plain_re_run, Hd.
Qed.

Lemma anchor_in_here key post :
  delim_at 91 93 (91 :: 91 :: key ++ 93 :: 93 :: post)%N = Some (key, post) ↔
  key ≠ [] ∧ 93%N ∉ key.
Proof.
  rewrite delim_at_Some. cbn [app]. split; [by intros (_ & ? & ?)|]. by intros [??].
Qed.

Lemma find_anchor_None_1 line : find_anchor line = None → no_anchor line.
Proof.
  intros Hf pre key post Ha. revert pre Ha.
  induction line as [|c line IH]; intros pre (Ha & Hb & Hc).
  { symmetry in Ha. apply app_eq_nil in Ha as [_ ?]. done. }
  cbn [find_anchor] in Hf.
  destruct (delim_at 91 93 (c :: line)) as [[k t]|] eqn:Hd; [done|].
  destruct pre as [|d pre].
  { cbn [app] in Ha. rewrite Ha in Hd.
    rewrite (proj2 (anchor_in_here key post)) in Hd; done. }
  injection Ha as <- Ha.
  destruct (find_anchor line) eqn:Hf'; [done|].
  by apply (IH eq_refl pre).
Qed.

Lemma find_anchor_Some line pre key post :
  find_anchor line = Some (pre, key, post) ↔ first_anchor line pre key post.
Proof.
  revert pre key post. induction line as [|c line IH]; intros pre key post.
  - cbn. split; [done|]. intros [(H & _ & _) _].
    symmetry in H. apply app_eq_nil in H as [_ H]. done.
  - cbn [find_anchor].
    destruct (delim_at 91 93 (c :: line)) as [[k t]|] eqn:Hd.
    + pose proof Hd as (Hl & Hk & Hc)%delim_at_Some. split.
      * intros [= <- <- <-]. split; [done|]. intros; simpl; lia.
      * intros [(Hl' & Hk' & Hc') Hmin].
        specialize (Hmin [] k t (conj Hl (conj Hk Hc))).
        destruct pre; [|simpl in Hmin; lia].
        cbn [app] in Hl'. rewrite Hl' in Hd.
        rewrite (proj2 (anchor_in_here key post)) in Hd by done.
        by injection Hd as <- <-.
    + destruct (find_anchor line) as [[[pre0 k0] t0]|] eqn:Hf; cbn.
      * pose proof (proj1 (IH pre0 k0 t0) eq_refl) as [(Hl & Hk & Hc) Hmin]. split.
        -- intros [= <- <- <-]. split; [split; [by rewrite Hl|done]|].
           intros pre' key' post' (Hl' & Hk' & Hc').
           destruct pre' as [|d pre'].
           { cbn [app] in Hl'. rewrite Hl' in Hd.
             rewrite (proj2 (anchor_in_here key' post')) in Hd; done. }
           injection Hl' as <- Hl'. simpl.
           specialize (Hmin pre' key' post' (conj Hl' (conj Hk' Hc'))). lia.
        -- intros [(Hl' & Hk' & Hc') Hmin'].
           destruct pre as [|d pre].
           { cbn [app] in Hl'. rewrite Hl' in Hd.
             rewrite (proj2 (anchor_in_here key post)) in Hd; done. }
           injection Hl' as <- Hl'.
           assert (Some (pre0, k0, t0) = Some (pre, key, post)) as Hf'.
           { apply IH. split; [done|]. intros pre' key' post' (Ha & Hb & Hc0).
             specialize (Hmin' (c :: pre') key' post').
             simpl in Hmin'. apply Nat.succ_le_mono, Hmin'.
             split; [by rewrite Ha|done]. }
           by injection Hf' as -> -> ->.
      * split; [done|]. intros [(Hl' & Hk' & Hc') _]. exfalso.
        destruct pre as [|d pre].
        { cbn [app] in Hl'. rewrite Hl' in Hd.
          rewrite (proj2 (anchor_in_here key post)) in Hd; done. }
        injection Hl' as <- Hl'.
        by apply (find_anchor_None_1 line Hf pre key post).
Qed.

Lemma find_anchor_None line : find_anchor line = None ↔ no_anchor line.
Proof.
  split; [apply find_anchor_None_1|].
  intros Hno. destruct (find_anchor line) as [[[pre key] post]|] eqn:Hf; [|done].
  apply find_anchor_Some in Hf as [Ha _]. by apply Hno in Ha.
Qed.

(** [re.search] with the anchor pattern finds the leftmost anchor. *)
Lemma search_anchor_go line : ∀ p i,
  search_go anchor_re p line i
  = (λ x, RMatch (i + length x.1.1) ([91; 91]%N ++ x.1.2 ++ [93; 93]%N) (Some x.1.2))
    <$> find_anchor line.
Proof.
  induction line as [|c line IH]; intros p i.
  - cbn [search_go find_anchor]. rewrite anchor_re_here. done.
  - cbn [search_go find_anchor]. rewrite anchor_re_here.
    destruct (delim_at 91 93 (c :: line)) as [[k t]|]; cbn.
    + by rewrite Nat.add_0_r.
    + rewrite IH. destruct (find_anchor line) as [[[pre k] t]|]; cbn; [|done].
      do 2 f_equal. lia.
Qed.

Lemma search_anchor line :
  search anchor_re line
  = (λ x, RMatch (length x.1.1) ([91; 91]%N ++ x.1.2 ++ [93; 93]%N) (Some x.1.2))
    <$> find_anchor line.
Proof. unfold search. by rewrite search_anchor_go. Qed.

(** Replacing the first match of the plain anchor pattern. *)
Lemma sub_anchor_once line pre key post (f : rmatch → str) p i :
  find_anchor line = Some (pre, key, post) →
  sub_go anchor_plain_re f (Some 1) p line i 0
  = pre ++ f (RMatch (i + length pre) ([91; 91]%N ++ key ++ [93; 93]%N) None) ++ post.
Proof.
  revert pre p i. induction line as [|c line IH]; intros pre p i.
  - cbn [find_anchor]. done.
  - cbn [find_anchor sub_go exhausted]. rewrite anchor_plain_re_here.
    destruct (delim_at 91 93 (c :: line)) as [[k t]|] eqn:Hd.
    + intros [= <- <- <-]. cbn [fmap option_fmap option_map fst app length].
      rewrite Nat.add_0_r. f_equal.
      apply delim_at_Some in Hd as (Hl & _ & _). cbn [app] in Hl.
      injection Hl as -> ->. cbn [length].
      replace (91 :: k ++ 93 :: 93 :: t)%N
        with ((91%N :: k ++ [93; 93]%N) ++ t)
        by (cbn [app]; by rewrite <-app_assoc).
      change (S (length (k ++ [93; 93]%N)))
        with (length (91%N :: k ++ [93; 93]%N)).
      rewrite sub_go_skip. apply sub_go_done.
    + destruct (find_anchor line) as [[[pre0 k0] t0]|] eqn:Hf; [|done].
      cbn. intros [= <- <- <-]. f_equal.
      rewrite (IH pre0) by done. cbn [length app].
      by replace (S i + length pre0) with (i + S (length pre0)) by lia.
Qed.

End Anchors.

(** ** Key collection *)

Section KeyCollection.
Implicit Types (line key k : str) (keys seen : list str)
  (key_to_num : gmap str nat).

Lemma record_key_note acc line :
  record_key acc line = from_option (note_key acc) acc (line_key line).
Proof.
  destruct acc as [keys key_to_num]. unfold record_key, line_key, note_key.
  rewrite search_anchor.
  destruct (find_anchor line) as [[[pre k] post]|]; [|done]. cbn.
  by destruct (key_to_num !! strip k).
Qed.

Lemma foldl_record_key lines : ∀ acc,
  foldl record_key acc lines = foldl note_key acc (omap line_key lines).
Proof.
  induction lines as [|line lines IH]; intros acc; [done|].
  cbn [foldl omap list_omap]. rewrite IH, record_key_note.
  by destruct (line_key line).
Qed.

Lemma parse_reference_keys_fold refs :
  parse_reference_keys refs = foldl note_key ([], ∅) (block_keys refs).
Proof. apply foldl_record_key. Qed.

Lemma numbers_nil : numbers_first_occurrences [] [] ∅.
Proof.
  split; [constructor|]. split; [done|]. split.
  - intros k n. rewrite lookup_empty. split; [done|]. by intros (i & ? & _).
  - intros l1 k l2 H. by destruct l1.
Qed.

Lemma distinct_count seen keys :
  NoDup keys → (∀ k, k ∈ keys ↔ k ∈ seen) →
  size (list_to_set seen : gset str) = length keys.
Proof.
  intros Hnd Hsame. rewrite <-(size_list_to_set (C := gset str) keys) by done.
  f_equal. apply set_eq. intros k. rewrite !elem_of_list_to_set. by rewrite Hsame.
Qed.

Lemma numbers_step seen keys key_to_num key :
  numbers_first_occurrences seen keys key_to_num →
  numbers_first_occurrences (seen ++ [key])
    (note_key (keys, key_to_num) key).1 (note_key (keys, key_to_num) key).2.
Proof.
  intros (Hnd & Hsame & Hnum & Hrank). unfold note_key. cbn [fst snd].
  destruct (key_to_num !! key) as [n|] eqn:Hk; cbn [fst snd].
  - (* already numbered *)
    assert (key ∈ seen) as Hin.
    { apply Hsame. apply Hnum in Hk as (i & Hi & _).
      by eapply list_elem_of_lookup_2. }
    split; [done|]. split; [|split; [done|]].
    + intros k. rewrite elem_of_app, list_elem_of_singleton, Hsame.
      split; [by left|]. by intros [?| ->].
    + intros l1 k l2 Hs Hnot.
      destruct l2 as [|x l2 _] using rev_ind.
      * apply app_inj_tail in Hs as [-> ->]. done.
      * rewrite app_comm_cons, app_assoc in Hs.
        apply app_inj_tail in Hs as [-> _]. by eapply Hrank.
  - (* a new identifier *)
    assert (key ∉ keys) as Hnew.
    { intros (i & Hi)%list_elem_of_lookup_1.
      assert (key_to_num !! key = Some (S i)) as Hc by (apply Hnum; eauto).
      congruence. }
    split; [|split; [|split]].
    + apply NoDup_app. split; [done|]. split; [|apply NoDup_singleton].
      intros x Hx ->%list_elem_of_singleton. done.
    + intros k. rewrite !elem_of_app, Hsame. done.
    + intros k n. destruct (decide (k = key)) as [->|Hne].
      * rewrite lookup_insert_eq, length_app. cbn [length]. split.
        -- intros [= <-]. exists (length keys). split; [|lia].
           by rewrite lookup_app_r, Nat.sub_diag by lia.
        -- intros (i & Hi & ->). f_equal.
           apply lookup_app_Some in Hi as [Hi|[Hlen Hi]].
           ++ destruct Hnew. by eapply list_elem_of_lookup_2.
           ++ apply list_lookup_singleton_Some in Hi as [Hi _]. lia.
      * rewrite lookup_insert_ne by done. rewrite Hnum. split.
        -- intros (i & Hi & ->). exists i. split; [|done].
           by apply lookup_app_l_Some.
        -- intros (i & Hi & ->). exists i. split; [|done].
           apply lookup_app_Some in Hi as [Hi|[_ Hi]]; [done|].
           apply list_lookup_singleton_Some in Hi as [_ ?]. congruence.
    + intros l1 k l2 Hs Hnot.
      destruct l2 as [|x l2 _] using rev_ind.
      * apply app_inj_tail in Hs as [-> ->].
        rewrite lookup_insert_eq, length_app. cbn [length].
        rewrite (distinct_count l1 keys) by done. f_equal. lia.
      * rewrite app_comm_cons, app_assoc in Hs.
        apply app_inj_tail in Hs as [-> ->].
        assert (k ≠ x) as Hne.
        { intros ->. apply Hnew, Hsame. apply elem_of_app. right.
          apply list_elem_of_here. }
        rewrite lookup_insert_ne by done. by eapply Hrank.
Qed.

Lemma numbers_fold ids : ∀ seen acc,
  numbers_first_occurrences seen acc.1 acc.2 →
  numbers_first_occurrences (seen ++ ids)
    (foldl note_key acc ids).1 (foldl note_key acc ids).2.
Proof.
  induction ids as [|key ids IH]; intros seen [keys key_to_num] Hacc.
  - by rewrite app_nil_r.
  - cbn [foldl]. rewrite (assoc_L _ seen [key] ids : seen ++ key :: ids = _).
    apply IH. by apply numbers_step.
Qed.

Lemma parsed_keys_numbered refs :
  numbers_first_occurrences (block_keys refs)
    (parse_reference_keys refs).1 (parse_reference_keys refs).2.
Proof.
  rewrite parse_reference_keys_fold.
  apply (numbers_fold (block_keys refs) [] ([], ∅) numbers_nil).
Qed.

(** C2: the keys of the references block are collected line by line; each
    distinct identifier is recorded once, when it first occurs, and its
    number is its 1-based position in that order: one more than the number
    of distinct identifiers before its first occurrence.  A line
    whose identifier is already numbered changes nothing.  The function
    reads the references block only, so the body has no part in the
    numbering. *)
Theorem reference_keys_first_occurrence (refs : str) :
  let ids := block_keys refs in
  let '(keys, key_to_num) := parse_reference_keys refs in
  NoDup keys ∧
  (∀ k, k ∈ keys ↔ k ∈ ids) ∧
  (∀ k n, key_to_num !! k = Some n ↔ ∃ i, keys !! i = Some k ∧ n = S i) ∧
  (∀ l1 k l2, ids = l1 ++ k :: l2 → k ∉ l1 →
     key_to_num !! k = Some (S (size (list_to_set l1 : gset str)))) ∧
  (∀ acc line k, line_key line = Some k → is_Some (acc.2 !! k) →
     record_key acc line = acc).
Proof.
  cbv zeta. pose proof (parsed_keys_numbered refs) as H.
  destruct (parse_reference_keys refs) as [keys key_to_num].
  destruct H as (H1 & H2 & H3 & H4).
  repeat split; try done; try apply H2; try apply H3.
  intros acc line k Hk [n Hn]. rewrite record_key_note, Hk. cbn.
  unfold note_key. by rewrite Hn.
Qed.

End KeyCollection.

(** ** The rewrite of the references block *)

Section ReferencesRewrite.
Implicit Types (line key k : str) (keys : list str)
  (key_to_num : gmap str nat).

Lemma enumerate_keys_lookup keys : ∀ i acc k n,
  NoDup keys →
  enumerate_keys i keys acc !! k = Some n ↔
  (∃ j, keys !! j = Some k ∧ n = i + j + 1) ∨ ((k ∉ keys) ∧ acc !! k = Some n).
Proof.
  induction keys as [|x keys IH]; intros i acc k n Hnd.
  - cbn. split; [intros ?; right; split; [apply not_elem_of_nil|done]|].
    intros [(j & Hj & _)|[_ ?]]; done.
  - apply NoDup_cons in Hnd as [Hx Hnd]. cbn [enumerate_keys].
    rewrite IH by done. split.
    + intros [(j & Hj & ->)|[Hk Hacc]].
      * left. exists (S j). split; [done|lia].
      * destruct (decide (x = k)) as [->|Hne].
        -- rewrite lookup_insert_eq in Hacc. injection Hacc as <-.
           left. exists 0. split; [done|lia].
        -- rewrite lookup_insert_ne in Hacc by done. right.
           split; [|done]. apply not_elem_of_cons. by split.
    + intros [(j & Hj & ->)|[Hk Hacc]].
      * destruct j as [|j]; cbn in Hj.
        -- injection Hj as ->. right. split; [done|].
           rewrite lookup_insert_eq. f_equal. lia.
        -- left. exists j. split; [done|lia].
      * apply not_elem_of_cons in Hk as [Hne Hk]. right. split; [done|].
        by rewrite lookup_insert_ne.
Qed.

(** The dictionary rebuilt by [renumber_references] is the one built by
    [parse_reference_keys]. *)
Lemma enumerate_keys_same keys key_to_num :
  NoDup keys →
  (∀ k n, key_to_num !! k = Some n ↔ ∃ i, keys !! i = Some k ∧ n = S i) →
  enumerate_keys 0 keys ∅ = key_to_num.
Proof.
  intros Hnd Hnum. apply map_eq. intros k. apply option_eq. intros n.
  rewrite enumerate_keys_lookup, Hnum by done. split.
  - intros [(j & Hj & ->)|[_ Hc]]; [|by rewrite lookup_empty in Hc].
    exists j. split; [done|lia].
  - intros (j & Hj & ->). left. exists j. split; [done|lia].
Qed.

Lemma renumber_line_spec key_to_num line :
  renumber_line key_to_num line =
  match find_anchor line with
  | Some (pre, key, post) =>
      match key_to_num !! strip key with
      | Some n => pre ++ (u "[" ++ str_of_nat n ++ u "]") ++ post
      | None => line
      end
  | None => line
  end.
Proof.
  unfold renumber_line. rewrite search_anchor.
  destruct (find_anchor line) as [[[pre key] post]|] eqn:Hf; [|done]. cbn.
  destruct (key_to_num !! strip key) as [n|]; [|done].
  unfold sub. by rewrite (sub_anchor_once line pre key post).
Qed.

(** The output when there is a References section: the body, the lines of
    the block rewritten and joined by newlines, the trailing block. *)
Lemma transform_split (text before refs after : str) :
  split_sections text = (before, refs, after) → refs ≠ [] →
  transform text
  = replace_citations before (parse_reference_keys refs).2 ++
    join [NL] (renumber_line (parse_reference_keys refs).2 <$> splitlines refs)
    ++ after.
Proof.
  intros Hsplit Hne.
  pose proof (parsed_keys_numbered refs) as Hkeys.
  destruct (parse_reference_keys refs) as [keys key_to_num] eqn:Hparse.
  destruct Hkeys as (Hnd & Hsame & Hnum & _).
  unfold transform. rewrite Hsplit. destruct refs as [|c refs]; [done|].
  rewrite Hparse. unfold renumber_references. cbn [snd].
  by rewrite (enumerate_keys_same keys key_to_num).
Qed.

(** Each line of the block is rewritten as described.  A line without
    anchor is copied; in a line with one, the leftmost anchor alone is
    replaced by the bracketed number of its key, the number being the
    1-based position of the stripped key among the collected keys; what
    stands before and after the anchor is kept. *)
Lemma renumbered_lines (refs : str) :
  let '(keys, key_to_num) := parse_reference_keys refs in
  Forall (λ line,
    (no_anchor line ∧ renumber_line key_to_num line = line) ∨
    (∃ pre key post i,
       first_anchor line pre key post ∧
       keys !! i = Some (strip key) ∧
       renumber_line key_to_num line
       = pre ++ (u "[" ++ str_of_nat (S i) ++ u "]") ++ post))
    (splitlines refs).
Proof.
  pose proof (parsed_keys_numbered refs) as Hkeys.
  destruct (parse_reference_keys refs) as [keys key_to_num] eqn:Hparse.
  destruct Hkeys as (Hnd & Hsame & Hnum & _).
  apply Forall_forall.
  intros line Hline. rewrite renumber_line_spec.
  destruct (find_anchor line) as [[[pre key] post]|] eqn:Hf.
  - right. pose proof Hf as Hfa%find_anchor_Some.
    assert (strip key ∈ keys) as (i & Hi)%list_elem_of_lookup_1.
    { apply Hsame. unfold block_keys. apply list_elem_of_omap.
      exists line. split; [done|]. unfold line_key. by rewrite Hf. }
    assert (key_to_num !! strip key = Some (S i)) as -> by (apply Hnum; eauto).
    by exists pre, key, post, i.
  - left. split; [|done]. by apply find_anchor_None.
Qed.

End ReferencesRewrite.

(** ** The line terminator that every run drops *)

Section Terminator.

(** The slip in general.  Joining the lines of a text drops its last line
    terminator. *)
Lemma splitlines_nil s : splitlines s = [] → s = [].
Proof.
  destruct s as [|c t]; [done|]. cbn [splitlines].
  destruct (is_linebreak c); [done|]. by destruct (splitlines t).
Qed.

Lemma join_cons_length (x : str) (ls : list str) :
  length (join [NL] (x :: ls))
  = length x + match ls with [] => 0 | _ => 1 + length (join [NL] ls) end.
Proof.
  destruct ls as [|y ls]; cbn [join]; [lia|].
  rewrite !length_app. cbn [length]. lia.
Qed.

Lemma ends_with_break_cons c t :
  ends_with_break (c :: t)
  = match t with [] => is_linebreak c | _ => ends_with_break t end.
Proof. unfold ends_with_break. destruct t; [done|]. by rewrite last_cons_cons. Qed.

Lemma rejoined_length n : ∀ s,
  length s ≤ n →
  length (join [NL] (splitlines s)) + (if ends_with_break s then 1 else 0)
  ≤ length s.
Proof.
  induction n as [|n IH]; intros s Hn.
  { destruct s; [cbn; lia|cbn in Hn; lia]. }
  destruct s as [|c t]; [cbn; lia|]. cbn [length] in Hn.
  rewrite ends_with_break_cons. cbn [splitlines].
  destruct (is_linebreak c) eqn:Hc.
  - rewrite join_cons_length. cbn [length].
    destruct t as [|d t'].
    + cbn. lia.
    + destruct ((c =? CR)%N && (d =? NL)%N) eqn:Hcrlf.
      * pose proof (IH t' ltac:(cbn in Hn; lia)) as Ht'.
        apply andb_true_iff in Hcrlf as [_ Hd%N.eqb_eq]. subst d.
        rewrite ends_with_break_cons.
        destruct t' as [|e t'']; [cbn; lia|].
        destruct (splitlines (e :: t'')); cbn [length] in *; lia.
      * pose proof (IH (d :: t') ltac:(lia)) as Ht.
        destruct (splitlines (d :: t')); cbn [length] in *; lia.
  - pose proof (IH t ltac:(lia)) as Ht.
    destruct (splitlines t) as [|l ls] eqn:Hl.
    + apply splitlines_nil in Hl as ->. cbn. lia.
    + rewrite join_cons_length in *. cbn [length].
      destruct t as [|d t']; [done|]. lia.
Qed.

Lemma rejoined_shorter s :
  ends_with_break s = true → length (join [NL] (splitlines s)) < length s.
Proof.
  intros He. pose proof (rejoined_length (length s) s ltac:(lia)) as H.
  rewrite He in H. lia.
Qed.

(** Hence a document without markers whose references block ends with a
    line terminator never comes back unchanged. *)
Lemma unmarked_document_shrinks text before refs after :
  split_sections text = (before, refs, after) →
  ends_with_break refs = true →
  search citation_re before = None →
  block_keys refs = [] →
  length (transform text) < length text.
Proof.
  intros Hsplit Hend Hbody Hkeys.
  pose proof (split_sections_app _ _ _ _ Hsplit) as Htext.
  unfold transform. rewrite Hsplit.
  destruct refs as [|c refs]; [done|].
  destruct (parse_reference_keys (c :: refs)) as [keys key_to_num].
  unfold replace_citations. rewrite sub_no_match by done.
  unfold renumber_references.
  replace (renumber_line (enumerate_keys 0 keys ∅) <$> splitlines (c :: refs))
    with (splitlines (c :: refs)).
  - rewrite <-Htext, !length_app.
    pose proof (rejoined_shorter (c :: refs) Hend). lia.
  - unfold block_keys in Hkeys.
    induction (splitlines (c :: refs)) as [|line lines IHl]; [done|].
    cbn [omap list_omap] in Hkeys.
    destruct (line_key line) eqn:Hline; [done|].
    rewrite fmap_cons, <-IHl by done. f_equal.
    rewrite renumber_line_spec. unfold line_key in Hline.
    by destruct (find_anchor line).
Qed.

(** *** The block that is written and the block that is described *)

Lemma lines_with_ends_nil s : lines_with_ends s = [] → s = [].
Proof.
  destruct s as [|c t]; [done|]. cbn [lines_with_ends].
  destruct (is_linebreak c).
  - destruct t as [|d t']; [done|]. by destruct ((c =? CR)%N && (d =? NL)%N).
  - by destruct (lines_with_ends t) as [|[l e] ls].
Qed.

(** The lines of [splitlines] are those lines, and nothing of the text
    is lost when the terminators are kept. *)
Lemma lines_with_ends_spec n : ∀ s,
  length s ≤ n →
  splitlines s = fst <$> lines_with_ends s ∧
  concat ((λ le, le.1 ++ le.2) <$> lines_with_ends s) = s ∧
  (ends_with_break s = true →
   Forall (λ le : str * str, le.2 ≠ []) (lines_with_ends s)).
Proof.
  induction n as [|n IH]; intros s Hn.
  { destruct s; [by repeat split|cbn in Hn; lia]. }
  destruct s as [|c t]; [by repeat split|]. cbn [length] in Hn.
  rewrite ends_with_break_cons. cbn [splitlines lines_with_ends].
  destruct (is_linebreak c) eqn:Hc.
  - destruct t as [|d t'].
    { split; [done|]. split; [done|]. intros _. by repeat constructor. }
    destruct ((c =? CR)%N && (d =? NL)%N) eqn:Hcrlf.
    + destruct (IH t' ltac:(cbn in Hn; lia)) as (H1 & H2 & H3).
      rewrite ends_with_break_cons.
      split; [by rewrite H1|].
      split; [cbn [fmap list_fmap concat fst snd app]; by rewrite H2|].
      intros He. constructor; [done|].
      destruct t' as [|e t'']; [constructor|]. by apply H3.
    + destruct (IH (d :: t') ltac:(lia)) as (H1 & H2 & H3).
      split; [by rewrite H1|].
      split; [cbn [fmap list_fmap concat fst snd app]; by rewrite H2|].
      intros He. constructor; [done|]. by apply H3.
  - destruct (IH t ltac:(lia)) as (H1 & H2 & H3). rewrite H1.
    destruct (lines_with_ends t) as [|[l e] ls] eqn:Hl.
    + apply lines_with_ends_nil in Hl as ->. by repeat split.
    + split; [done|].
      split; [cbn [fmap list_fmap concat fst snd app] in *; by rewrite H2|].
      destruct t as [|d t']; [done|]. intros He.
      specialize (H3 He). apply Forall_cons in H3 as [He1 Hls].
      by constructor.
Qed.

(** Lines that all have a terminator: joining them with single newlines
    gives less than writing each with its terminator. *)
Lemma joined_shorter (g : str → str) (ls : list (str * str)) :
  ls ≠ [] → Forall (λ le : str * str, le.2 ≠ []) ls →
  length (join [NL] (g <$> (fst <$> ls)))
  < length (concat ((λ le, g le.1 ++ le.2) <$> ls)).
Proof.
  intros Hne Hall. induction Hall as [|[l e] ls He _ IH]; [done|].
  cbn [fmap list_fmap fst snd concat] in *.
  rewrite join_cons_length, !length_app.
  assert (0 < length e) by (destruct e; [done|cbn; lia]).
  destruct ls as [|le ls]; [cbn; lia|].
  specialize (IH ltac:(done)). cbn [fmap list_fmap] in *. lia.
Qed.

Lemma claimed_line_renumber key_to_num line :
  renumber_line key_to_num line = claimed_line key_to_num line.
Proof. apply renumber_line_spec. Qed.

Lemma block_written_shorter refs key_to_num :
  ends_with_break refs = true →
  length (join [NL] (renumber_line key_to_num <$> splitlines refs))
  < length (claimed_block refs key_to_num).
Proof.
  intros He.
  destruct (lines_with_ends_spec (length refs) refs ltac:(lia))
    as (H1 & _ & H3).
  rewrite H1. unfold claimed_block.
  assert (lines_with_ends refs ≠ []) as Hne.
  { intros Hnil. apply lines_with_ends_nil in Hnil. by subst refs. }
  rewrite (list_fmap_ext _ (claimed_line key_to_num) (fst <$> lines_with_ends refs))
    by (intros; apply claimed_line_renumber).
  by apply (joined_shorter (claimed_line key_to_num)), H3.
Qed.

(** C7 does not hold of the code.  Each line of the references block is
    rewritten as the claim says, but the block that is written is not
    the block with its lines rewritten: the lines are joined by single
    newlines and nothing follows the last one.  Whenever the block ends
    with a line terminator, as it does when another section follows or
    when the document ends with a newline, the output is shorter than
    the rewritten body, the rewritten block and the trailing block put
    together, and so is what the run writes to standard output. *)
Theorem references_block_loses_terminator (text before refs after : str) :
  split_sections text = (before, refs, after) →
  ends_with_break refs = true →
  length (transform text) < length (claimed_output text) ∧
  transform text ≠ claimed_output text ∧
  ∀ (argv : list str) (w : Proc.world),
    input_text argv w = Some text →
    Proc.number_citations_main argv w
    = (Proc.Done (), after_run argv w (transform text)) ∧
    Proc.stdout (Proc.number_citations_main argv w).2
    ≠ Proc.stdout w ++ claimed_output text.
Proof.
  intros Hsplit He.
  assert (refs ≠ []) as Hne by (by intros ->).
  assert (length (transform text) < length (claimed_output text)) as Hlt.
  { rewrite (transform_split text before refs after Hsplit Hne).
    unfold claimed_output. rewrite Hsplit.
    destruct refs as [|c refs]; [done|].
    destruct (parse_reference_keys (c :: refs)) as [keys key_to_num].
    cbn [snd]. rewrite !length_app.
    pose proof (block_written_shorter (c :: refs) key_to_num He). lia. }
  split; [done|]. split; [intros Heq; rewrite Heq in Hlt; lia|].
  intros argv w Hin. rewrite (main_output argv w text Hin).
  split; [done|]. cbn [snd after_run Proc.stdout].
  intros Heq%app_inv_head. rewrite Heq in Hlt. lia.
Qed.

Lemma references_block_loses_terminator_witness :
  length (transform short_doc) < length (claimed_output short_doc) ∧
  transform short_doc ≠ claimed_output short_doc ∧
  ∀ (argv : list str) (w : Proc.world),
    input_text argv w = Some short_doc →
    Proc.number_citations_main argv w
    = (Proc.Done (), after_run argv w (transform short_doc)) ∧
    Proc.stdout (Proc.number_citations_main argv w).2
    ≠ Proc.stdout w ++ claimed_output short_doc.
Proof.
  refine (references_block_loses_terminator short_doc
            (u "Text <<a>>." ++ [NL])
            (u "== References" ++ [NL] ++ u "* [[a]] A" ++ [NL])
            (u "== Appendix" ++ [NL]) _ _).
  - vm_compute. reflexivity.
  - vm_compute. reflexivity.
Defined.

(** On that document the next heading is glued to the reference; the
    block described keeps it on its own line. *)
Lemma short_doc_glued :
  transform short_doc
  = u "Text [1]." ++ [NL] ++ u "== References" ++ [NL] ++
    u "* [1] A== Appendix" ++ [NL] ∧
  claimed_output short_doc
  = u "Text [1]." ++ [NL] ++ u "== References" ++ [NL] ++
    u "* [1] A" ++ [NL] ++ u "== Appendix" ++ [NL].
Proof. split; by vm_compute. Qed.

End Terminator.

(** ** The citation pattern *)

Section CitationPattern.
Implicit Types (s t w : str) (p : option N) (g : option str).

(** White space before something that cannot start with white space: the
    loop reads all of it and never has to give any back. *)
Lemma run_spaces_commit r p s g :
  (∀ p' x t g', is_space x = true → run r (MState p' (x :: t) g') = []) →
  run (Star space ⋅ r) (MState p s g)
  = run r (MState (plast p (take_while is_space s)) (drop_while is_space s) g).
Proof.
  intros Hr.
  pose proof (take_drop_while is_space s) as Hs.
  pose proof (take_while_Forall is_space s) as Hw.
  pose proof (drop_while_stops is_space s) as Hst.
  set (w := take_while is_space s) in *.
  set (t := drop_while is_space s) in *. clearbody w t. subst s.
  rewrite run_seq. unfold space.
  rewrite run_star_cls
    by (by apply Forall_is_space_class || by apply stops_is_space_class).
  rewrite list_fmap_bind, bind_splits_desc_commit; [done|].
  intros w1 x w2 ->. cbn [compose after fst snd app].
  apply Hr.
  apply Forall_app in Hw as [_ Hw]. by apply Forall_cons in Hw as [? _].
Qed.

Lemma chr_space_miss (d : N) r p x s g :
  is_space x = true → is_space d = false →
  run (chr d ⋅ r) (MState p (x :: s) g) = [].
Proof.
  intros Hx Hd. rewrite run_seq, run_chr.
  destruct (N.eqb_spec x d) as [->|]; [congruence|done].
Qed.

Lemma lit_space_miss (d : N) (v : str) r p x s g :
  is_space x = true → is_space d = false →
  run (lit (d :: v) ⋅ r) (MState p (x :: s) g) = [].
Proof.
  intros Hx Hd. rewrite run_seq, lit_miss_cons; [done|]. intros ->; congruence.
Qed.

Lemma link_re_run p s g :
  run link_re (MState p s g)
  = match link_at s with
    | Some (c, t) => [MState (Some 62%N) t g]
    | None => []
    end.
Proof.
  unfold link_re, link_at.
  rewrite run_spaces_commit by (intros; by apply chr_space_miss).
  rewrite run_seq, run_chr.
  destruct (drop_while is_space s) as [|c s2]; [done|].
  destruct (c =? 44)%N; [|done]. rewrite bind_singleton.
  rewrite run_spaces_commit by (intros; by apply lit_space_miss).
  rewrite (run_delim_gen false 60 62).
  by destruct (delim_at 60 62 (drop_while is_space s2)) as [[k t]|].
Qed.

Lemma marker_here c t : marker_content c → delim_at 60 62 (marker c ++ t) = Some (c, t).
Proof.
  intros [Hc Hgt]. apply delim_at_Some. unfold marker.
  by rewrite <-!app_assoc.
Qed.

Lemma link_here l t :
  link_ok l → link_at (link_text l ++ t) = Some (content l, t).
Proof.
  intros (Hb & Ha & Hc). unfold link_at, link_text. rewrite <-!app_assoc.
  rewrite drop_while_app_stop by done. cbn [app]. rewrite N.eqb_refl.
  rewrite drop_while_app_stop by done. by apply marker_here.
Qed.

Lemma link_text_length l : 0 < length (link_text l).
Proof. unfold link_text. rewrite !length_app. simpl. lia. Qed.

(** The loop over the further markers of a run reads all of them first. *)
Lemma greedy_links links : ∀ p post g fuel,
  Forall link_ok links → link_at post = None →
  length (concat (link_text <$> links) ++ post) ≤ fuel →
  ∃ p' tl,
    greedy (run link_re) fuel (MState p (concat (link_text <$> links) ++ post) g)
    = MState p' post g :: tl.
Proof.
  induction links as [|l links IH]; intros p post g fuel Hok Hpost Hfuel.
  - cbn [fmap list_fmap concat app]. destruct fuel as [|n]; [by eexists _, _|].
    cbn [greedy]. rewrite link_re_run, Hpost. by eexists _, _.
  - apply Forall_cons in Hok as [Hl Hok].
    cbn [fmap list_fmap concat] in *. rewrite <-app_assoc in *.
    pose proof (link_text_length l) as Hpos.
    rewrite length_app in Hfuel.
    destruct fuel as [|n]; [lia|].
    cbn [greedy]. rewrite link_re_run, link_here by done.
    rewrite bind_singleton. unfold shorter. cbn [rest].
    destruct (Nat.ltb_spec (length (concat (link_text <$> links) ++ post))
                (length (link_text l ++ concat (link_text <$> links) ++ post)))
      as [_|Hge]; [|rewrite length_app in Hge; lia].
    destruct (IH (Some 62%N) post g n Hok Hpost ltac:(lia)) as (p' & tl & ->).
    by eexists _, _.
Qed.

Lemma citation_re_unfold :
  citation_re
  = Grp (lit [60; 60]%N ⋅ Plus (Cls true [CChar 62]) ⋅ lit [62; 62]%N ⋅
         Star link_re).
Proof. done. Qed.

Lemma citation_re_miss p s g :
  delim_at 60 62 s = None → run citation_re (MState p s g) = [].
Proof.
  intros Hd. rewrite citation_re_unfold, run_grp, run_seq3_cont.
  by rewrite (run_delim_gen false 60 62), Hd.
Qed.

Lemma citation_miss_here p s :
  delim_at 60 62 s = None → match_here citation_re p s = None.
Proof. intros Hd. unfold match_here. by rewrite citation_re_miss. Qed.

(** At the first marker of a run that cannot be continued, the citation
    pattern matches the whole run. *)
Lemma citation_here p c0 links post :
  marker_content c0 → Forall link_ok links → link_at post = None →
  match_here citation_re p (run_text c0 links ++ post)
  = Some (run_text c0 links, Some (run_text c0 links)).
Proof.
  intros Hc Hok Hpost.
  assert (∃ p' tl,
    run (lit [60; 60]%N ⋅ Plus (Cls true [CChar 62]) ⋅ lit [62; 62]%N ⋅
         Star link_re) (MState p (run_text c0 links ++ post) None)
    = MState p' post None :: tl) as (p' & tl & Hrun).
  { rewrite run_seq3_cont, (run_delim_gen false 60 62).
    unfold run_text. rewrite <-app_assoc, marker_here by done.
    rewrite bind_singleton, run_star. by apply greedy_links. }
  rewrite (match_here_first citation_re p _ post
             (capture (MState p (run_text c0 links ++ post) None)
                      (MState p' post None))
             (capture (MState p (run_text c0 links ++ post) None) <$> tl));
    [|by rewrite citation_re_unfold, run_grp, Hrun|done].
  unfold capture. cbn [grp rest]. by rewrite consumed_prefix.
Qed.

(** The pattern opens with a literal: what came before does not matter. *)
Lemma citation_prev_irrelevant p p' s :
  match_here citation_re p s = match_here citation_re p' s.
Proof.
  unfold match_here. rewrite citation_re_unfold, !run_grp.
  assert (∀ r, run (lit [60; 60]%N ⋅ r) (MState p s None)
               = run (lit [60; 60]%N ⋅ r) (MState p' s None)) as ->; [|done].
  intros r. cbn [lit]. by rewrite !run_seq, !run_chr.
Qed.

End CitationPattern.

(** ** The identifiers of a run *)

Section RunIdentifiers.
Implicit Types (s t w : str) (p : option N) (g : option str).

Lemma splits_desc_snoc w x :
  ∃ tl, splits_desc (w ++ [x]) = (w ++ [x], []) :: (w, [x]) :: tl.
Proof.
  induction w as [|c w (tl & IH)]; [by eexists|].
  cbn [app splits_desc]. rewrite IH. cbn. by eexists.
Qed.

Lemma bind_splits_asc_first {B} (F : str * str → list B) k1 : ∀ k2 x l,
  F (k1, k2) = x :: l →
  (∀ a b, k1 = a ++ b → b ≠ [] → F (a, b ++ k2) = []) →
  ∃ l', splits_asc (k1 ++ k2) ≫= F = x :: l'.
Proof.
  revert F. induction k1 as [|c k1 IH]; intros F k2 x l Hhit Hmiss.
  - cbn [app]. destruct k2; cbn [splits_asc]; rewrite bind_cons, Hhit; by eexists.
  - pose proof (Hmiss [] (c :: k1) eq_refl ltac:(done)) as H0.
    cbn [app] in H0.
    cbn [app splits_asc]. rewrite bind_cons, H0. cbn [app].
    rewrite list_fmap_bind.
    apply (IH (F ∘ (λ y, (c :: y.1, y.2))) k2 x l); [done|].
    intros a b -> Hb. by apply (Hmiss (c :: a) b).
Qed.

Lemma bind_splits1_asc_first {B} (F : str * str → list B) k1 k2 x l :
  k1 ≠ [] →
  F (k1, k2) = x :: l →
  (∀ a b, k1 = a ++ b → a ≠ [] → b ≠ [] → F (a, b ++ k2) = []) →
  ∃ l', splits1_asc (k1 ++ k2) ≫= F = x :: l'.
Proof.
  destruct k1 as [|c k1]; [done|]. intros _ Hhit Hmiss.
  cbn [app splits1_asc]. rewrite list_fmap_bind.
  apply (bind_splits_asc_first (F ∘ (λ y, (c :: y.1, y.2))) k1 k2 x l); [done|].
  intros a b -> Hb. by apply (Hmiss (c :: a) b).
Qed.

(** [rstrip] cuts off a tail of white space and nothing else. *)
Lemma rstrip_split s :
  ∃ trail, s = rstrip s ++ trail ∧
    Forall (λ c, is_space c = true) trail ∧
    (rstrip s = [] ∨ ∃ a x, rstrip s = a ++ [x] ∧ is_space x = false).
Proof.
  unfold rstrip.
  pose proof (take_drop_while is_space (reverse s)) as Hs.
  pose proof (take_while_Forall is_space (reverse s)) as Hw.
  pose proof (drop_while_stops is_space (reverse s)) as Hst.
  exists (reverse (take_while is_space (reverse s))). split; [|split].
  - by rewrite <-reverse_app, Hs, reverse_involutive.
  - by apply Forall_reverse.
  - destruct (drop_while is_space (reverse s)) as [|x d]; [by left|].
    right. exists (reverse d), x. by rewrite reverse_cons.
Qed.

Lemma strip_rstrip s : strip s = rstrip (drop_while is_space s).
Proof. done. Qed.

Lemma forallb_is_space w :
  forallb is_space w = true ↔ Forall (λ c, is_space c = true) w.
Proof.
  rewrite forallb_forall, Forall_forall. by setoid_rewrite list_elem_of_In.
Qed.

Lemma drop_while_all w t :
  Forall (λ c, is_space c = true) w →
  drop_while is_space (w ++ t) = drop_while is_space t.
Proof. induction 1 as [|c w Hc _ IH]; [done|]. cbn. by rewrite Hc. Qed.

Lemma not_gt_class w :
  62%N ∉ w → Forall (λ x, in_class true [CChar 62] x = true) w.
Proof. apply Forall_differs. Qed.

(** The tail of the key pattern after the group: white space, then [>>]. *)
Lemma key_tail_run p k2 t g :
  62%N ∉ k2 →
  run (Star space ⋅ lit [62; 62]%N) (MState p (k2 ++ [62; 62]%N ++ t) g)
  = if forallb is_space k2 then [MState (Some 62%N) t g] else [].
Proof.
  intros Hk2.
  rewrite run_spaces_commit; cycle 1.
  { intros p' x t' g' Hx. apply lit_miss_cons. intros ->. discriminate Hx. }
  destruct (forallb is_space k2) eqn:Hall.
  - apply forallb_is_space in Hall.
    rewrite drop_while_all by done.
    change (drop_while is_space ([62; 62]%N ++ t)) with ([62; 62]%N ++ t).
    by rewrite run_lit.
  - pose proof (take_drop_while is_space k2) as Hs.
    pose proof (take_while_Forall is_space k2) as Hw.
    pose proof (drop_while_stops is_space k2) as Hst.
    destruct (drop_while is_space k2) as [|x d] eqn:Hd.
    { rewrite app_nil_r in Hs. rewrite <-Hs in Hall.
      apply not_true_iff_false in Hall. destruct Hall.
      by apply forallb_is_space. }
    rewrite <-Hs, <-app_assoc, drop_while_all by done.
    cbn [app drop_while]. cbn in Hst. rewrite Hst.
    rewrite lit_miss_cons; [done|].
    intros ->. apply Hk2. rewrite <-Hs. apply elem_of_app. right.
    apply list_elem_of_here.
Qed.

Lemma splits1_asc_sound w :
  Forall (λ x : str * str, x.1 ++ x.2 = w) (splits1_asc w).
Proof.
  destruct w as [|c w]; [constructor|]. cbn [splits1_asc].
  apply Forall_fmap, Forall_forall. intros [a b] Hab%elem_of_splits_asc.
  cbn in *. by subst.
Qed.

(** The group of the key pattern and what follows it, at the start of the
    part [c'] of a marker's content: the group takes the shortest
    beginning of [c'] that leaves white space only. *)
Lemma key_group_run q c' t :
  62%N ∉ c' →
  run (Grp (PlusLazy (Cls true [CChar 62])) ⋅ Star space ⋅ lit [62; 62]%N)
      (MState q (c' ++ [62; 62]%N ++ t) None)
  = splits1_asc c' ≫=
      (λ x, if forallb is_space x.2 then [MState (Some 62%N) t (Some x.1)]
            else []).
Proof.
  intros Hc'. rewrite run_seq.
  rewrite (run_grp_splits _ c' q _ None (splits1_asc c')); cycle 1.
  { apply run_pluslazy_cls; [by apply not_gt_class|done]. }
  { apply splits1_asc_sound. }
  rewrite list_fmap_bind. apply Forall_bind_ext.
  eapply Forall_impl; [apply splits1_asc_sound|].
  intros [a b] Hab. cbn [compose after_grp fst snd] in *.
  apply key_tail_run. intros Hb. apply Hc'. rewrite <-Hab.
  apply elem_of_app. by right.
Qed.

Lemma forallb_is_space_snoc_false b x trail :
  is_space x = false → forallb is_space ((b ++ [x]) ++ trail) = false.
Proof.
  intros Hx. apply not_true_iff_false. intros H%forallb_is_space.
  apply Forall_app in H as [H _]. apply Forall_app in H as [_ H].
  apply Forall_cons in H as [H _]. congruence.
Qed.

Lemma key_re_unfold :
  key_re
  = lit [60; 60]%N ⋅ Star space ⋅
    (Grp (PlusLazy (Cls true [CChar 62])) ⋅ Star space ⋅ lit [62; 62]%N).
Proof. done. Qed.

(** At a marker the key pattern matches the marker, and its group is the
    marker's identifier. *)
Lemma key_run p c t :
  marker_content c →
  ∃ p' tl,
    run key_re (MState p (marker c ++ t) None)
    = MState p' t (Some (ident c)) :: tl.
Proof.
  intros [Hne Hgt]. rewrite key_re_unfold. unfold marker.
  rewrite <-app_assoc, run_seq, run_lit, bind_singleton.
  set (q := plast p [60; 60]%N). clearbody q.
  set (R2 := Grp (PlusLazy (Cls true [CChar 62])) ⋅ Star space ⋅ lit [62; 62]%N).
  unfold ident. destruct (forallb is_space c) eqn:Hall.
  - (* nothing but white space *)
    apply forallb_is_space in Hall.
    destruct c as [|x c _] using rev_ind; [done|]. clear Hne.
    rewrite last_snoc. cbn [option_list].
    rewrite run_seq. unfold space.
    rewrite <-(app_assoc (c ++ [x])).
    rewrite run_star_cls
      by (by apply Forall_is_space_class || done).
    destruct (splits_desc_snoc c x) as (tl & ->).
    rewrite !fmap_cons, !bind_cons. unfold after at 1 2. cbn [fst snd].
    unfold R2 at 1. rewrite (key_group_run _ [] t) by apply not_elem_of_nil.
    cbn [splits1_asc]. cbn [mbind list_bind app].
    unfold R2 at 1. rewrite (key_group_run _ [x] t); cycle 1.
    { intros <-%list_elem_of_singleton. apply Hgt, elem_of_app. right.
      apply list_elem_of_here. }
    cbn. by eexists _, _.
  - (* white space, the identifier, white space *)
    pose proof (take_drop_while is_space c) as Hs.
    pose proof (take_while_Forall is_space c) as Hlead.
    pose proof (drop_while_stops is_space c) as Hst.
    rewrite strip_rstrip.
    destruct (rstrip_split (drop_while is_space c))
      as (trail & Hsplit & Htrail & Hlast).
    set (lead := take_while is_space c) in *.
    set (k := rstrip (drop_while is_space c)) in *.
    destruct (drop_while is_space c) as [|x0 c'] eqn:Hc'.
    { rewrite app_nil_r in Hs. rewrite <-Hs in Hall.
      apply not_true_iff_false in Hall. destruct Hall.
      by apply forallb_is_space. }
    destruct Hlast as [Hk|(a & x & Hk & Hx)].
    { rewrite Hk in Hsplit. cbn in Hsplit. rewrite <-Hsplit in Htrail.
      apply Forall_cons in Htrail as [Hx0 _]. cbn in Hst. congruence. }
    clearbody lead k. 
    assert (62%N ∉ k ++ trail) as Hgt'.
    { rewrite <-Hsplit. intros Hin. apply Hgt. rewrite <-Hs.
      apply elem_of_app. by right. }
    rewrite <-Hs, Hsplit, <-!app_assoc.
    rewrite run_seq. unfold space.
    rewrite run_star_cls; [|by apply Forall_is_space_class|]; cycle 1.
    { rewrite app_assoc, <-Hsplit. cbn. by rewrite Hst. }
    destruct (splits_desc_head lead) as (tl & ->).
    rewrite fmap_cons, bind_cons. unfold after at 1. cbn [fst snd app].
    unfold R2 at 1.
    rewrite (app_assoc k trail), (key_group_run _ (k ++ trail) t) by done.
    destruct (bind_splits1_asc_first
      (λ x1 : str * str,
         if forallb is_space x1.2 then [MState (Some 62%N) t (Some x1.1)]
         else []) k trail (MState (Some 62%N) t (Some k)) [])
      as (l' & ->).
    + rewrite Hk. by destruct a.
    + cbn [fst snd]. by rewrite (proj2 (forallb_is_space trail) Htrail).
    + intros a' b Hab Ha' Hb. cbn [fst snd].
      destruct b as [|y b _] using rev_ind; [done|].
      rewrite Hk, app_assoc in Hab. apply app_inj_tail in Hab as [_ ->].
      by rewrite forallb_is_space_snoc_false.
    + by eexists _, _.
Qed.

Lemma key_here p c t :
  marker_content c →
  match_here key_re p (marker c ++ t) = Some (marker c, Some (ident c)).
Proof.
  intros Hc. destruct (key_run p c t Hc) as (p' & tl & Hrun).
  by rewrite (match_here_first key_re p _ t _ _ Hrun).
Qed.

Lemma key_miss p s : head s ≠ Some 60%N → match_here key_re p s = None.
Proof.
  intros Hs. unfold match_here. rewrite key_re_unfold, run_seq.
  destruct s as [|x s]; [by rewrite lit_miss_nil|].
  rewrite lit_miss_cons; [done|]. intros ->. by apply Hs.
Qed.

Lemma link_text_app l t :
  link_text l ++ t
  = ((before_comma l ++ [44%N]) ++ after_comma l) ++ marker (content l) ++ t.
Proof. unfold link_text. by rewrite <-!app_assoc. Qed.

Lemma findall_links links : ∀ p,
  Forall link_ok links →
  findall_go key_re p (concat (link_text <$> links)) 0
  = ident <$> (content <$> links).
Proof.
  induction links as [|l links IH]; intros p Hok.
  - cbn. by rewrite key_miss.
  - apply Forall_cons in Hok as [(Hb & Ha & Hc) Hok].
    cbn [fmap list_fmap concat]. rewrite link_text_app.
    rewrite findall_go_pass; cycle 1.
    { intros a1 a2 Ha12 Hne. apply key_miss.
      destruct a2 as [|y a2]; [done|]. cbn. intros [= ->].
      assert (Forall (λ c, is_space c = true ∨ c = 44%N)
                ((before_comma l ++ [44%N]) ++ after_comma l)) as Hall.
      { rewrite !Forall_app. repeat split.
        - eapply Forall_impl; [exact Hb|]. intros ??. by left.
        - apply Forall_singleton. by right.
        - eapply Forall_impl; [exact Ha|]. intros ??. by left. }
      rewrite Ha12 in Hall. apply Forall_app in Hall as [_ Hall].
      apply Forall_cons in Hall as [[?|?] _]; done. }
    rewrite findall_go_hit with (g := Some (ident (content l)));
      [|by destruct Hc as [? _]; unfold marker; by destruct (content l)
       |by apply key_here].
    cbn [default from_option id fmap list_fmap]. f_equal. by apply IH.
Qed.

(** [re.findall] with the key pattern gives the identifiers of a run, in
    the order of its markers. *)
Lemma findall_run c0 links :
  marker_content c0 → Forall link_ok links →
  findall key_re (run_text c0 links) = ident <$> run_contents c0 links.
Proof.
  intros Hc Hok. unfold findall, run_text, run_contents.
  rewrite findall_go_hit with (g := Some (ident c0));
    [|by unfold marker|by apply key_here].
  cbn [default from_option id fmap list_fmap]. f_equal.
  by apply findall_links.
Qed.

End RunIdentifiers.

(** ** The rewrite of the body *)

Section BodyRewrite.
Import Proc.
Implicit Types (s t pre post : str) (m : gmap str nat).

Lemma marker_starts_in_false pre s :
  marker_starts_in pre s = false →
  ∀ a1 a2, pre = a1 ++ a2 → a2 ≠ [] → delim_at 60 62 (a2 ++ s) = None.
Proof.
  induction pre as [|c pre IH]; intros Hno a1 a2 Ha Hne.
  - symmetry in Ha. by apply app_eq_nil in Ha as [_ ->].
  - cbn [marker_starts_in] in Hno. apply orb_false_iff in Hno as [Hhere Hno].
    destruct a1 as [|d a1]; cbn [app] in Ha.
    + subst a2. apply bool_decide_eq_false in Hhere.
      destruct (delim_at 60 62 ((c :: pre) ++ s)); [|done].
      destruct Hhere. by eexists.
    + injection Ha as <- ->. by apply (IH Hno a1 a2).
Qed.

Lemma repl_keys_known m group keys : ∀ nums acc,
  Forall2 (λ k n, m !! k = Some n) keys nums →
  repl_keys m group keys acc
  = u "[" ++ join (u ", ") (acc ++ (str_of_nat <$> nums)) ++ u "]".
Proof.
  induction keys as [|k keys IH]; intros nums acc Hall.
  - apply Forall2_nil_inv_l in Hall as ->. cbn [repl_keys fmap list_fmap].
    by rewrite app_nil_r.
  - apply Forall2_cons_inv_l in Hall as (n & nums' & Hk & Hall & ->).
    cbn [repl_keys]. rewrite Hk, (IH nums') by done.
    by rewrite <-app_assoc.
Qed.

Lemma repl_keys_unknown m group keys : ∀ acc,
  Exists (λ k, m !! k = None) keys → repl_keys m group keys acc = group.
Proof.
  induction keys as [|k keys IH]; intros acc Hex.
  - by apply Exists_nil in Hex.
  - cbn [repl_keys]. destruct (m !! k) as [n|] eqn:Hk; [|done].
    apply IH. apply Exists_cons in Hex as [Hex|Hex]; [congruence|done].
Qed.

(** What [sub] does at the first run of a text. *)
Lemma replace_at_run pre c0 links post m :
  marker_content c0 → Forall link_ok links →
  marker_starts_in pre (run_text c0 links ++ post) = false →
  link_at post = None →
  replace_citations (pre ++ run_text c0 links ++ post) m
  = pre ++ repl_keys m (run_text c0 links) (ident <$> run_contents c0 links) []
        ++ replace_citations post m.
Proof.
  intros Hc Hok Hpre Hpost. unfold replace_citations, sub.
  rewrite sub_go_pass; [|done|]; cycle 1.
  { intros a1 a2 Ha Hne. apply citation_miss_here.
    by apply (marker_starts_in_false pre _ Hpre a1 a2). }
  f_equal.
  rewrite sub_go_hit with (g := Some (run_text c0 links));
    [|done|by unfold run_text, marker|by apply citation_here].
  unfold repl at 1, group1. cbn [m_group1 default from_option id].
  rewrite findall_run by done. f_equal.
  apply sub_go_indep.
  - apply citation_prev_irrelevant.
  - done.
Qed.

(** C1: a run of markers, each identifier of which has a number, is
    replaced by one bracketed list of these numbers, in the order of the
    markers and separated by a comma and a space.  The run is the first
    one of the text ([pre] holds no start of a marker), cannot be extended
    ([post] does not go on with a comma and a marker), and the rest of the
    text is rewritten in the same way. *)
Theorem known_run_numbered pre (c0 : str) (links : list link) post m
    (nums : list nat) :
  marker_content c0 → Forall link_ok links →
  marker_starts_in pre (run_text c0 links ++ post) = false →
  link_at post = None →
  Forall2 (λ c n, m !! ident c = Some n) (run_contents c0 links) nums →
  replace_citations (pre ++ run_text c0 links ++ post) m
  = pre ++ (u "[" ++ join (u ", ") (str_of_nat <$> nums) ++ u "]")
        ++ replace_citations post m.
Proof.
  intros Hc Hok Hpre Hpost Hnums.
  rewrite replace_at_run by done. do 2 f_equal.
  rewrite (repl_keys_known m _ _ nums []); [done|].
  by apply Forall2_fmap_l.
Qed.

Lemma known_run_numbered_witness :
  replace_citations (u "See <<a>>, <<b>>, <<c>>.")
    {[ u "a" := 1; u "b" := 2; u "c" := 3 ]}
  = u "See [1, 2, 3].".
Proof.
  refine (known_run_numbered (u "See ") (u "a")
            [Link [] (u " ") (u "b"); Link [] (u " ") (u "c")] (u ".")
            {[ u "a" := 1; u "b" := 2; u "c" := 3 ]} [1; 2; 3] _ _ _ _ _).
  - unfold marker_content. by_decide.
  - unfold link_ok, marker_content. by_decide.
  - vm_compute. reflexivity.
  - vm_compute. reflexivity.
  - repeat constructor; vm_compute; reflexivity.
Defined.

(** C3: a run with an identifier that has no number stays as it is, the
    identifiers that have one included; the function is total, and the
    entry point ends normally whatever the text it reads. *)
Theorem unknown_run_kept pre (c0 : str) (links : list link) post m :
  marker_content c0 → Forall link_ok links →
  marker_starts_in pre (run_text c0 links ++ post) = false →
  link_at post = None →
  Exists (λ c, m !! ident c = None) (run_contents c0 links) →
  replace_citations (pre ++ run_text c0 links ++ post) m
  = pre ++ run_text c0 links ++ replace_citations post m ∧
  ∀ (argv : list str) (w : world) (text : str),
    input_text argv w = Some text →
    (number_citations_main argv w).1 = Done ().
Proof.
  intros Hc Hok Hpre Hpost Hex. split.
  - rewrite replace_at_run by done. do 2 f_equal.
    apply repl_keys_unknown. by apply Exists_fmap.
  - intros argv w text Hin. by rewrite (main_output argv w text).
Qed.

Lemma unknown_run_kept_witness :
  replace_citations (u "See <<a>>, <<zzz>>.") {[ u "a" := 1 ]}
  = u "See <<a>>, <<zzz>>." ∧
  ∀ (argv : list str) (w : world) (text : str),
    input_text argv w = Some text →
    (number_citations_main argv w).1 = Done ().
Proof.
  refine (unknown_run_kept (u "See ") (u "a") [Link [] (u " ") (u "zzz")]
            (u ".") {[ u "a" := 1 ]} _ _ _ _ _).
  - unfold marker_content. by_decide.
  - unfold link_ok, marker_content. by_decide.
  - vm_compute. reflexivity.
  - vm_compute. reflexivity.
  - apply Exists_cons_tl, Exists_cons_hd. vm_compute. reflexivity.
Defined.

End BodyRewrite.

(** ** Where the patterns of fix_cites.py can match *)

Section FixHeads.
Import FixCites.
Implicit Types (s t a w L : str) (p : option N) (g : option str).

Lemma mentions_suffix w a1 a2 :
  mentions w (a1 ++ a2) = false → mentions w a2 = false.
Proof.
  induction a1 as [|c a1 IH]; [done|]. cbn [app mentions].
  intros [_ H]%orb_false_iff. by apply IH.
Qed.

Lemma mentions_prefix w s : w `prefix_of` s → mentions w s = true.
Proof.
  intros H. destruct s; cbn [mentions]; by rewrite bool_decide_eq_true_2.
Qed.

(** A word that opens with its only backslash cannot begin in a text and
    end in a following text that opens with a backslash. *)
Lemma prefix_inside L' a2 rest :
  92%N ∉ L' → a2 ≠ [] → (rest = [] ∨ head rest = Some 92%N) →
  (92%N :: L') `prefix_of` (a2 ++ rest) → (92%N :: L') `prefix_of` a2.
Proof.
  intros HL Ha Hrest [b Hb].
  destruct a2 as [|x a2]; [done|]. cbn [app] in Hb. injection Hb as -> Hb.
  apply prefix_cons.
  clear Ha. revert L' HL Hb. induction a2 as [|y a2 IH]; intros L' HL Hb.
  - cbn [app] in Hb. destruct L' as [|z L']; [apply prefix_nil|].
    destruct Hrest as [->|Hh]; [done|]. destruct rest as [|r rest]; [done|].
    cbn in Hh. injection Hh as ->. cbn in Hb. injection Hb as <- _.
    destruct HL. apply list_elem_of_here.
  - destruct L' as [|z L']; [apply prefix_nil|].
    cbn [app] in Hb. injection Hb as -> Hb. apply prefix_cons.
    apply IH; [|done]. intros Hin. apply HL. by apply list_elem_of_further.
Qed.

Lemma no_prefix_in_calm L' seg rest :
  92%N ∉ L' → mentions (92%N :: L') seg = false →
  (rest = [] ∨ head rest = Some 92%N) →
  ∀ a1 a2, seg = a1 ++ a2 → a2 ≠ [] → ¬ (92%N :: L') `prefix_of` (a2 ++ rest).
Proof.
  intros HL Hno Hrest a1 a2 -> Ha Hpre.
  apply mentions_suffix in Hno.
  apply prefix_inside in Hpre; [|done..].
  apply mentions_prefix in Hpre. congruence.
Qed.

Lemma backslash_then_clean d a b :
  92%N ∉ a → backslash_then d (a ++ b) = backslash_then d b.
Proof.
  induction a as [|x a IH]; [done|]. intros [Hx Ha]%not_elem_of_cons.
  cbn [app backslash_then]. rewrite IH by done.
  destruct (N.eqb_spec x 92); [congruence|done].
Qed.

Lemma no_prefix_without_pair d L'' a rest :
  backslash_then d a = false →
  ∀ a1 a2, a = a1 ++ a2 → a2 ≠ [] →
    ¬ (92%N :: d :: L'') `prefix_of` (a2 ++ rest).
Proof.
  intros Hno a1 a2 -> Ha [b Hb].
  assert (backslash_then d a2 = false) as Hno2.
  { clear -Hno. induction a1 as [|c a1 IH]; [done|].
    cbn [app backslash_then] in Hno. apply orb_false_iff in Hno as [_ Hno].
    by apply IH. }
  destruct a2 as [|x a2]; [done|]. cbn [app] in Hb. injection Hb as -> Hb.
  cbn [backslash_then] in Hno2. apply orb_false_iff in Hno2 as [Hno2 _].
  rewrite N.eqb_refl in Hno2. cbn [andb] in Hno2.
  destruct a2 as [|y a2]; [done|]. cbn [app] in Hb. injection Hb as -> _.
  by rewrite N.eqb_refl in Hno2.
Qed.

(** Each pattern opens with a literal. *)
Lemma spaced_miss p s :
  ¬ TEXTBACKSLASH `prefix_of` s → match_here spaced_re p s = None.
Proof.
  intros Hs. unfold match_here, spaced_re. by rewrite run_seq, run_lit_miss.
Qed.

Lemma slashed_miss p s :
  ¬ TEXTBACKSLASH `prefix_of` s → match_here slashed_re p s = None.
Proof.
  intros Hs. unfold match_here, slashed_re. rewrite run_seq, run_lit_miss; [done|].
  intros [b Hb]. apply Hs. exists (u "\cite" ++ b). cbn [rest] in Hb.
  rewrite Hb. reflexivity.
Qed.

Lemma residual_miss p s :
  ¬ CITE_OPEN `prefix_of` s → match_here residual_re p s = None.
Proof.
  intros Hs. unfold match_here, residual_re. by rewrite run_seq, run_lit_miss.
Qed.

End FixHeads.

(** ** The patterns of fix_cites.py at an escaped macro *)

Section FixPieces.
Import FixCites.
Implicit Types (s t a w k : str) (p : option N) (g : option str)
  (e : escaped).

Lemma leads_app l1 l2 t g : leads l1 t g → leads (l1 ++ l2) t g.
Proof. intros (p' & tl & ->). by eexists _, _. Qed.

Lemma leads_bind l (f : mstate → list mstate) x tl t g :
  l = x :: tl → leads (f x) t g → leads (l ≫= f) t g.
Proof. intros -> H. rewrite bind_cons. by apply leads_app. Qed.

Lemma leads_single p' t g : leads [MState p' t g] t g.
Proof. by eexists _, _. Qed.

Lemma match_here_leads r p w t g :
  leads (run r (MState p (w ++ t) None)) t g →
  match_here r p (w ++ t) = Some (w, g).
Proof.
  intros (p' & tl & Hrun).
  by rewrite (match_here_first r p w t _ _ Hrun).
Qed.

Lemma not_brace_class w :
  125%N ∉ w → Forall (λ x, in_class true [CChar 125] x = true) w.
Proof. apply Forall_differs. Qed.

Lemma opt_backslash_no_brace b : 125%N ∉ opt_backslash b.
Proof.
  destruct b; cbn; [|apply not_elem_of_nil].
  by intros [=]%list_elem_of_singleton.
Qed.

(** An optional backslash before a brace: with or without it, the brace
    is reached. *)
Lemma opt_brace_leads (c : N) r b p s g t g' :
  c ≠ 92%N →
  (∀ q, leads (run r (MState q s g)) t g') →
  leads (run (Opt (chr 92) ⋅ chr c ⋅ r)
           (MState p (opt_backslash b ++ [c] ++ s) g)) t g'.
Proof.
  intros Hc Hr. rewrite run_seq, run_opt, run_chr.
  destruct b; cbn [opt_backslash app].
  - rewrite N.eqb_refl. cbn [app]. eapply leads_bind; [done|].
    rewrite run_seq, run_chr, N.eqb_refl, bind_singleton. apply Hr.
  - destruct (N.eqb_spec c 92) as [|_]; [done|]. cbn [app].
    rewrite bind_singleton, run_seq, run_chr, N.eqb_refl, bind_singleton.
    apply Hr.
Qed.

(** The group and the closing brace shared by the two escaped forms. *)
Lemma braced_tail_leads p k (b : bool) t g :
  k ++ opt_backslash b ≠ [] → 125%N ∉ k →
  leads (run braced_tail (MState p (k ++ opt_backslash b ++ [125%N] ++ t) g))
        t (Some (k ++ opt_backslash b)).
Proof.
  intros Hne Hno. unfold braced_tail. rewrite app_assoc.
  assert (125%N ∉ k ++ opt_backslash b) as Hno'.
  { rewrite elem_of_app. intros [?|?]; [done|]. by eapply opt_backslash_no_brace. }
  set (X := k ++ opt_backslash b) in *. clearbody X.
  rewrite run_seq.
  rewrite (run_grp_splits _ X p _ g (splits1_desc X)); cycle 1.
  { apply run_plus_cls; [by apply not_brace_class|done]. }
  { apply Forall_forall. intros x Hx. by apply elem_of_splits1_desc in Hx as [? _]. }
  destruct X as [|c X]; [done|].
  destruct (splits1_desc_head c X) as (tl & ->).
  rewrite fmap_cons. eapply leads_bind; [done|].
  unfold after_grp. cbn [fst snd app].
  rewrite run_seq, run_opt, run_chr. cbn.
  apply leads_single.
Qed.

Lemma escaped_text_spaces w ob k st rest :
  escaped_text (Escaped (Spaces w) ob k st) ++ rest
  = TEXTBACKSLASH ++ w ++ CITE ++ opt_backslash ob ++ [123%N] ++
    k ++ opt_backslash st ++ [125%N] ++ rest.
Proof.
  unfold escaped_text, sep_text. cbn [sep brace_escaped key stray].
  by rewrite <-!app_assoc.
Qed.

Lemma escaped_text_backslash ob k st rest :
  escaped_text (Escaped Backslash ob k st) ++ rest
  = (TEXTBACKSLASH ++ 92%N :: CITE) ++ opt_backslash ob ++ [123%N] ++
    k ++ opt_backslash st ++ [125%N] ++ rest.
Proof.
  unfold escaped_text, sep_text. cbn [sep brace_escaped key stray].
  by rewrite <-!app_assoc.
Qed.

(** The first pattern at an escaped macro with white space, whatever the
    key holds but a closing brace; the key may be empty when a stray
    backslash follows it. *)
Lemma spaced_hit p w ob k st rest :
  w ≠ [] → Forall (λ c, is_space c = true) w →
  k ++ opt_backslash st ≠ [] → 125%N ∉ k →
  match_here spaced_re p (escaped_text (Escaped (Spaces w) ob k st) ++ rest)
  = Some (escaped_text (Escaped (Spaces w) ob k st),
          Some (k ++ opt_backslash st)).
Proof.
  intros Hw Hsp Hk Hbrace.
  apply match_here_leads. rewrite escaped_text_spaces.
  unfold spaced_re. rewrite run_seq, (run_lit TEXTBACKSLASH), bind_singleton.
  rewrite run_seq. unfold space.
  rewrite run_plus_cls; [|by apply Forall_is_space_class|done].
  destruct w as [|c w]; [done|].
  destruct (splits1_desc_head c w) as (tl & ->).
  rewrite fmap_cons. eapply leads_bind; [done|].
  unfold after. cbn [fst snd app].
  rewrite run_seq, (run_lit CITE), bind_singleton.
  apply opt_brace_leads; [done|]. intros q.
  by apply braced_tail_leads.
Qed.

Lemma spaced_here p w ob k st rest :
  well_formed (Escaped (Spaces w) ob k st) →
  match_here spaced_re p (escaped_text (Escaped (Spaces w) ob k st) ++ rest)
  = Some (escaped_text (Escaped (Spaces w) ob k st),
          Some (k ++ opt_backslash st)).
Proof.
  intros ([Hw Hsp] & Hk & Hbrace & _). cbn [sep key] in *.
  apply spaced_hit; [done..| |done]. by destruct k.
Qed.

(** The second pattern at an escaped macro with a backslash. *)
Lemma slashed_hit p ob k st rest :
  k ++ opt_backslash st ≠ [] → 125%N ∉ k →
  match_here slashed_re p (escaped_text (Escaped Backslash ob k st) ++ rest)
  = Some (escaped_text (Escaped Backslash ob k st),
          Some (k ++ opt_backslash st)).
Proof.
  intros Hk Hbrace.
  apply match_here_leads. rewrite escaped_text_backslash.
  unfold slashed_re.
  rewrite run_seq, (run_lit (TEXTBACKSLASH ++ 92%N :: CITE)), bind_singleton.
  apply opt_brace_leads; [done|]. intros q.
  by apply braced_tail_leads.
Qed.

Lemma slashed_here p ob k st rest :
  well_formed (Escaped Backslash ob k st) →
  match_here slashed_re p (escaped_text (Escaped Backslash ob k st) ++ rest)
  = Some (escaped_text (Escaped Backslash ob k st),
          Some (k ++ opt_backslash st)).
Proof.
  intros (_ & Hk & Hbrace & _). cbn [sep key] in *.
  apply slashed_hit; [|done]. by destruct k.
Qed.

(** The first pattern finds no white space at a macro with a backslash. *)
Lemma spaced_at_backslash p ob k st rest :
  match_here spaced_re p (escaped_text (Escaped Backslash ob k st) ++ rest)
  = None.
Proof.
  unfold match_here. rewrite escaped_text_backslash.
  unfold spaced_re. rewrite <-app_assoc.
  rewrite run_seq, (run_lit TEXTBACKSLASH), bind_singleton.
  rewrite run_seq. unfold space.
  by rewrite run_plus, run_cls_stop.
Qed.

(** The group and the closing of the clean-up pattern. *)
Lemma residual_tail_nil p t g :
  run (Grp (Star (Cls true [CChar 125])) ⋅ lit [92; 125]%N)
      (MState p (125%N :: t) g) = [].
Proof.
  rewrite run_seq.
  rewrite (run_grp_splits _ [] p (125%N :: t) g (splits_desc []));
    [|by apply (run_star_cls true [CChar 125] [])|by repeat constructor].
  cbn [splits_desc]. rewrite list_fmap_singleton, bind_singleton.
  unfold after_grp. cbn [fst snd app]. by apply lit_miss_cons.
Qed.

Lemma splits_desc_snoc_all w x :
  splits_desc (w ++ [x])
  = (w ++ [x], []) :: ((λ y, (y.1, y.2 ++ [x])) <$> splits_desc w).
Proof.
  induction w as [|c w IH]; [done|].
  cbn [app splits_desc]. rewrite IH. cbn [fmap list_fmap].
  rewrite fmap_app, <-!list_fmap_compose. done.
Qed.

Lemma residual_tail_snoc p w x t g :
  125%N ∉ w → x ≠ 125%N →
  run (Grp (Star (Cls true [CChar 125])) ⋅ lit [92; 125]%N)
      (MState p ((w ++ [x]) ++ 125%N :: t) g)
  = if (x =? 92)%N then [MState (Some 125%N) t (Some w)] else [].
Proof.
  intros Hw Hx. rewrite run_seq.
  rewrite (run_grp_splits _ (w ++ [x]) p (125%N :: t) g (splits_desc (w ++ [x])));
    cycle 1.
  { apply run_star_cls; [|done]. apply not_brace_class.
    rewrite elem_of_app, list_elem_of_singleton. intros [?|?]; done. }
  { apply Forall_forall. intros y Hy. by apply elem_of_splits_desc in Hy. }
  rewrite splits_desc_snoc_all, fmap_cons, bind_cons.
  unfold after_grp at 1. cbn [fst snd app]. rewrite lit_miss_cons by done.
  cbn [app]. rewrite <-list_fmap_compose, list_fmap_bind.
  rewrite bind_splits_desc_commit.
  - unfold after_grp. cbn [compose fst snd app].
    destruct (N.eqb_spec x 92) as [->|Hne].
    + change (92 :: 125 :: t)%N with ([92; 125]%N ++ t). by rewrite run_lit.
    + by rewrite lit_miss_cons.
  - intros w1 c w2 Hsplit. unfold after_grp. cbn [compose fst snd app].
    rewrite <-app_assoc. cbn [app].
    destruct (N.eqb_spec c 92) as [->|Hne]; [|by rewrite lit_miss_cons].
    apply run_lit_miss. cbn [rest]. intros [b Hb].
    destruct w2 as [|d w2]; cbn in Hb; injection Hb as Hd _.
    + done.
    + apply Hw. rewrite Hsplit, <-Hd. apply elem_of_app. right.
      apply list_elem_of_further, list_elem_of_here.
Qed.

(** The clean-up pattern at a macro written [\cite{key}] or [\cite{key\}]. *)
Lemma residual_at_cite p k (st : bool) rest :
  k ≠ [] → 125%N ∉ k → 92%N ∉ k →
  match_here residual_re p
    ((CITE_OPEN ++ k ++ opt_backslash st ++ [125%N]) ++ rest)
  = if st then Some (CITE_OPEN ++ k ++ opt_backslash st ++ [125%N], Some k)
    else None.
Proof.
  intros Hk Hbrace Hslash. destruct st; cbn [opt_backslash].
  - apply match_here_leads. unfold residual_re.
    rewrite <-!app_assoc, run_seq, (run_lit CITE_OPEN), bind_singleton.
    rewrite (app_assoc k). cbn [app].
    rewrite residual_tail_snoc by done. apply leads_single.
  - unfold match_here, residual_re.
    rewrite <-!app_assoc, run_seq, (run_lit CITE_OPEN), bind_singleton.
    destruct k as [|x k _] using rev_ind; [done|].
    cbn [app]. rewrite residual_tail_snoc.
    + destruct (N.eqb_spec x 92) as [->|]; [|done].
      destruct Hslash. apply elem_of_app. right. apply list_elem_of_here.
    + intros ?. apply Hbrace, elem_of_app. by left.
    + intros ->. apply Hbrace, elem_of_app. right. apply list_elem_of_here.
Qed.

End FixPieces.

(** ** The three substitutions of fix_cites.py over a document *)

Section FixPasses.
Import FixCites.
Implicit Types (s t a w k seg rest : str) (p : option N) (e : escaped)
  (P : regex).

Lemma residual_safe_suffix a1 a2 :
  residual_safe (a1 ++ a2) = true → residual_safe a2 = true.
Proof.
  induction a1 as [|c a1 IH]; [done|]. cbn [app residual_safe].
  intros [_ H]%andb_true_iff. by apply IH.
Qed.

(** Over calm text the first two patterns find nothing. *)
Lemma pass_calm_escape P seg rest p i :
  (∀ p s, ¬ TEXTBACKSLASH `prefix_of` s → match_here P p s = None) →
  calm seg → (rest = [] ∨ head rest = Some 92%N) →
  sub_go P cite_template None p (seg ++ rest) i 0
  = seg ++ sub_go P cite_template None (plast p seg) rest (i + length seg) 0.
Proof.
  intros Hmiss [Hno _] Hrest. apply sub_go_pass; [done|].
  intros a1 a2 Ha Hne. apply Hmiss.
  assert (92%N ∉ tail TEXTBACKSLASH) as HL by by_decide.
  exact (no_prefix_in_calm (tail TEXTBACKSLASH) seg rest HL Hno Hrest
           a1 a2 Ha Hne).
Qed.

(** Neither does the clean-up pattern. *)
Lemma pass_calm_residual seg rest p i :
  calm seg → (rest = [] ∨ head rest = Some 92%N) →
  sub_go residual_re cite_template None p (seg ++ rest) i 0
  = seg ++ sub_go residual_re cite_template None (plast p seg) rest
             (i + length seg) 0.
Proof.
  intros [_ Hsafe] Hrest. apply sub_go_pass; [done|].
  intros a1 a2 -> Hne.
  destruct (decide (CITE_OPEN `prefix_of` (a2 ++ rest))) as [Hpre|Hpre];
    [|by apply residual_miss].
  apply (prefix_inside (tail CITE_OPEN)) in Hpre; [|by_decide|done..].
  apply residual_safe_suffix in Hsafe.
  pose proof Hpre as [a3 ->].
  change ((92%N :: tail CITE_OPEN) ++ a3) with (92%N :: tail CITE_OPEN ++ a3) in Hsafe.
  cbn [residual_safe] in Hsafe. apply andb_true_iff in Hsafe as [Hsafe _].
  rewrite bool_decide_eq_true_2 in Hsafe by done.
  change (drop 6 (92%N :: tail CITE_OPEN ++ a3)) with a3 in Hsafe.
  pose proof (take_drop_while (differs 125) a3) as Hs.
  pose proof (take_while_Forall (differs 125) a3) as Hx.
  pose proof (drop_while_stops (differs 125) a3) as Hst.
  set (X := take_while (differs 125) a3) in *.
  destruct (drop_while (differs 125) a3) as [|c a4]; [done|].
  cbn in Hst. unfold differs in Hst.
  apply negb_false_iff, N.eqb_eq in Hst as ->.
  assert (125%N ∉ X) as HX.
  { apply Forall_differs. eapply Forall_impl; [exact Hx|].
    intros ??. by rewrite in_class_differs. }
  clearbody X. subst a3.
  unfold match_here, residual_re.
  change (92%N :: tail CITE_OPEN) with CITE_OPEN.
  rewrite <-!app_assoc, run_seq, (run_lit CITE_OPEN), bind_singleton.
  cbn [app].
  destruct X as [|x X _] using rev_ind.
  - cbn [app]. by rewrite residual_tail_nil.
  - rewrite last_snoc in Hsafe.
    rewrite residual_tail_snoc.
    + apply negb_true_iff in Hsafe. by rewrite Hsafe.
    + intros ?. apply HX, elem_of_app. by left.
    + intros ->. apply HX, elem_of_app. right. apply list_elem_of_here.
Qed.

(** A piece of text in which the pattern finds nothing is copied. *)
Lemma pass_piece P (d : N) (L : str) (x : N) a rest p i :
  (∀ p s, ¬ (92%N :: d :: L) `prefix_of` s → match_here P p s = None) →
  match_here P p ((x :: a) ++ rest) = None →
  backslash_then d a = false →
  sub_go P cite_template None p ((x :: a) ++ rest) i 0
  = (x :: a) ++ sub_go P cite_template None (plast p (x :: a)) rest
                  (i + length (x :: a)) 0.
Proof.
  intros Hmiss H0 Hbt. apply sub_go_pass; [done|].
  intros [|y a1] a2 Ha Hne.
  - cbn [app] in Ha. by rewrite <-Ha.
  - injection Ha as -> ->. apply Hmiss.
    by apply (no_prefix_without_pair d L (a1 ++ a2) rest Hbt a1 a2).
Qed.

Lemma backslash_then_key (d : N) k (st : bool) :
  92%N ∉ k → d ≠ 125%N →
  backslash_then d (k ++ opt_backslash st ++ [125%N]) = false.
Proof.
  intros Hk Hd. rewrite backslash_then_clean by done.
  destruct st; cbn [opt_backslash app backslash_then]; [|done].
  rewrite N.eqb_refl. cbn [andb].
  destruct (N.eqb_spec 125 d); [congruence|done].
Qed.

Lemma cite_template_stray i e w :
  cite_template (RMatch i w (Some (key e ++ opt_backslash (stray e))))
  = cite_stray e.
Proof.
  unfold cite_template, cite_stray, group1. cbn [m_group1 default from_option id].
  change (u "\cite{") with CITE_OPEN. change (u "}") with [125%N].
  by rewrite <-app_assoc.
Qed.

(** The first substitution at an escaped macro. *)
Lemma spaced_piece e rest p i :
  well_formed e →
  ∃ p' i',
    sub_go spaced_re cite_template None p (escaped_text e ++ rest) i 0
    = after_spaced e ++ sub_go spaced_re cite_template None p' rest i' 0.
Proof.
  intros Hwf. destruct e as [[w|] ob k st]; unfold after_spaced; cbn [sep].
  - eexists _, _.
    rewrite sub_go_hit with (g := Some (k ++ opt_backslash st));
      [|done|by unfold escaped_text|by apply spaced_here].
    by rewrite (cite_template_stray _ (Escaped (Spaces w) ob k st)).
  - eexists _, _.
    destruct Hwf as (_ & _ & _ & Hslash). cbn [key] in Hslash.
    apply (pass_piece spaced_re 116 (tail (tail TEXTBACKSLASH)) 92
             (tail (escaped_text (Escaped Backslash ob k st)))).
    + apply spaced_miss.
    + apply spaced_at_backslash.
    + unfold escaped_text, sep_text. cbn [sep brace_escaped key stray].
      destruct ob; cbn; by apply backslash_then_key.
Qed.

(** The second substitution at what the first one has left. *)
Lemma slashed_piece e rest p i :
  well_formed e →
  ∃ p' i',
    sub_go slashed_re cite_template None p (after_spaced e ++ rest) i 0
    = cite_stray e ++ sub_go slashed_re cite_template None p' rest i' 0.
Proof.
  intros Hwf. destruct e as [[w|] ob k st]; unfold after_spaced; cbn [sep].
  - eexists _, _.
    destruct Hwf as (_ & _ & _ & Hslash). cbn [key] in Hslash.
    apply (pass_piece slashed_re 116 (tail (tail TEXTBACKSLASH)) 92
             (tail (cite_stray (Escaped (Spaces w) ob k st)))).
    + apply slashed_miss.
    + apply slashed_miss. unfold cite_stray. by intros [b [=]].
    + unfold cite_stray. cbn [key stray]. cbn. by apply backslash_then_key.
  - eexists _, _.
    rewrite sub_go_hit with (g := Some (k ++ opt_backslash st));
      [|done|by unfold escaped_text|by apply slashed_here].
    by rewrite (cite_template_stray _ (Escaped Backslash ob k st)).
Qed.

(** The clean-up at what the first two have left. *)
Lemma residual_piece e rest p i :
  well_formed e →
  ∃ p' i',
    sub_go residual_re cite_template None p (cite_stray e ++ rest) i 0
    = cite_text (key e) ++ sub_go residual_re cite_template None p' rest i' 0.
Proof.
  intros (_ & Hk & Hbrace & Hslash).
  pose proof (residual_at_cite p (key e) (stray e) rest Hk Hbrace Hslash) as Hm.
  unfold cite_stray. destruct (stray e); cbn [opt_backslash] in *.
  - eexists _, _.
    rewrite sub_go_hit with (g := Some (key e)); [|done|done|exact Hm].
    unfold cite_template, group1. cbn [m_group1 default from_option id].
    done.
  - eexists _, _. cbn [app].
    apply (pass_piece residual_re 99 (tail (tail CITE_OPEN)) 92
             (tail (CITE_OPEN ++ key e ++ [125%N]))).
    + apply residual_miss.
    + exact Hm.
    + cbn. by apply (backslash_then_key 99 (key e) false).
Qed.

(** A substitution that copies calm text and turns each macro written by
    [f] into the one written by [g] turns a document into a document. *)
Lemma pass_document P (f g : escaped → str) :
  (∀ seg rest p i, calm seg → (rest = [] ∨ head rest = Some 92%N) →
     sub_go P cite_template None p (seg ++ rest) i 0
     = seg ++ sub_go P cite_template None (plast p seg) rest
                (i + length seg) 0) →
  (∀ e rest p i, well_formed e →
     ∃ p' i', sub_go P cite_template None p (f e ++ rest) i 0
              = g e ++ sub_go P cite_template None p' rest i' 0) →
  (∀ p i, sub_go P cite_template None p [] i 0 = []) →
  (∀ e, head (f e) = Some 92%N) →
  ∀ items seg0 p i,
    calm seg0 → Forall (λ x, well_formed x.1 ∧ calm x.2) items →
    sub_go P cite_template None p (document f seg0 items) i 0
    = document g seg0 items.
Proof.
  intros Hseg Hpiece Hend Hhead.
  induction items as [|[e seg] items IH]; intros seg0 p i Hcalm Hitems.
  - unfold document. cbn [fmap list_fmap concat].
    rewrite Hseg by (done || by left). by rewrite Hend.
  - apply Forall_cons in Hitems as [[Hwf Hcalm'] Hitems]. cbn [fst snd] in *.
    assert (∀ h, document h seg0 ((e, seg) :: items)
                 = seg0 ++ h e ++ document h seg items) as Hdoc.
    { intros h. unfold document. cbn [fmap list_fmap concat fst snd].
      by rewrite <-!app_assoc. }
    rewrite !Hdoc. rewrite Hseg; [|done|]; cycle 1.
    { right. specialize (Hhead e). destruct (f e); [done|]. done. }
    f_equal.
    destruct (Hpiece e (document f seg items) (plast p seg0)
                (i + length seg0) Hwf) as (p' & i' & ->).
    f_equal. by apply IH.
Qed.

Lemma sub_go_end P p i :
  match_here P p [] = None → sub_go P cite_template None p [] i 0 = [].
Proof. intros H. cbn [sub_go exhausted]. by rewrite H. Qed.

Lemma spaced_document seg0 (items : list (escaped * str)) :
  calm seg0 → Forall (λ x, well_formed x.1 ∧ calm x.2) items →
  sub spaced_re cite_template None (document escaped_text seg0 items)
  = document after_spaced seg0 items.
Proof.
  intros Hcalm Hitems. unfold sub.
  apply (pass_document spaced_re escaped_text after_spaced); [| | | |done..].
  - intros. apply pass_calm_escape; [apply spaced_miss|done..].
  - intros. by apply spaced_piece.
  - intros. apply sub_go_end, spaced_miss. by intros [b [=]].
  - done.
Qed.

Lemma slashed_document seg0 (items : list (escaped * str)) :
  calm seg0 → Forall (λ x, well_formed x.1 ∧ calm x.2) items →
  sub slashed_re cite_template None (document after_spaced seg0 items)
  = document cite_stray seg0 items.
Proof.
  intros Hcalm Hitems. unfold sub.
  apply (pass_document slashed_re after_spaced cite_stray); [| | | |done..].
  - intros. apply pass_calm_escape; [apply slashed_miss|done..].
  - intros. by apply slashed_piece.
  - intros. apply sub_go_end, slashed_miss. by intros [b [=]].
  - by intros [[w|] ob k st].
Qed.

Lemma residual_document seg0 (items : list (escaped * str)) :
  calm seg0 → Forall (λ x, well_formed x.1 ∧ calm x.2) items →
  sub residual_re cite_template None (document cite_stray seg0 items)
  = document (λ e, cite_text (key e)) seg0 items.
Proof.
  intros Hcalm Hitems. unfold sub.
  apply (pass_document residual_re cite_stray (λ e, cite_text (key e)));
    [| | | |done..].
  - intros. by apply pass_calm_residual.
  - intros. by apply residual_piece.
  - intros. apply sub_go_end, residual_miss. by intros [b [=]].
  - done.
Qed.

End FixPasses.
(** ** What the entry points do to their environment *)

Section Process.
Import Proc FixCites.

(** X1: number_citations.py never changes a file, whatever its arguments
    and whatever it reads: the files are as they were, and the run adds at
    most one event, which is not a write (it opens its input for reading
    or reads standard input). *)
Theorem number_citations_reads_only (argv : list str) (w : world) :
  let w' := (number_citations_main argv w).2 in
  files w' = files w ∧
  ∃ evs, trace w' = trace w ++ evs ∧ length evs ≤ 1 ∧
         Forall (λ e, writes e = false) evs.
Proof.
  cbv zeta.
  destruct (input_text argv w) as [text|] eqn:Hin.
  { rewrite (main_output argv w text Hin). split; [done|].
    exists [input_event argv]. repeat split; [done|].
    apply Forall_singleton. unfold input_event. by destruct (reads_stdin argv). }
  assert (∀ l : list event,
            l = l ++ [] ∧ length ([] : list event) ≤ 1 ∧
            Forall (λ e, writes e = false) []) as Hnone.
  { intros l. rewrite app_nil_r. repeat split; [cbn; lia|constructor]. }
  destruct argv as [|prog [|a [|b argv]]]; cbn in Hin; try done.
  - split; [done|]. exists []. apply Hnone.
  - unfold number_citations_main. cbn.
    unfold bind, argv_item, read_text, ret, log. cbn.
    destruct (bool_decide (a = u "-")); [done|].
    destruct (files w !! a) as [[raw ow|e ow]|]; [done|..]; cbn;
      (split; [done|]; exists [OpenRead a]; repeat split; [done|];
       by apply Forall_singleton).
  - split; [done|]. exists []. apply Hnone.
Qed.

(** X2: when the path a tool opens cannot be read as text, the tool ends
    with the exception of that path uncaught, right after trying to open
    it: [FileNotFoundError] for a path that names nothing, and for the
    others what the system or the decoding raises ([IsADirectoryError],
    [NotADirectoryError], [PermissionError], [UnicodeDecodeError], ...).
    fix_cites.py opens its argument as [pathlib.Path] writes it,
    number_citations.py its argument as it is, [-] not being a path.
    Nothing is written to standard output, no file is created or changed,
    and the process prints the traceback on standard error and ends with
    status 1. *)
Theorem unreadable_input_raises (t : tool) (prog arg : str) (w : world)
    (e : exn) :
  (t = NumberCitationsTool → arg ≠ u "-") →
  read_failure w (opened t arg) = Some e →
  entry t [prog; arg] w =
    (Raised e,
     World (files w) (stdin w) (stdout w) (stderr w)
           (trace w ++ [OpenRead (opened t arg)])) ∧
  ∀ traceback : exn → str,
    script traceback (entry t [prog; arg]) w =
      (1, World (files w) (stdin w) (stdout w) (stderr w ++ traceback e)
                (trace w ++ [OpenRead (opened t arg)])).
Proof.
  intros Hdash Hf.
  assert (entry t [prog; arg] w =
            (Raised e,
             World (files w) (stdin w) (stdout w) (stderr w)
                   (trace w ++ [OpenRead (opened t arg)]))) as Hrun.
  { unfold read_failure in Hf. destruct t; cbn [entry opened] in *.
    - unfold fix_cites_main, bind, argv_item, read_text, log. cbn.
      destruct (files w !! path_str arg) as [[raw ow|e' ow]|]; [done|..];
        by injection Hf as ->.
    - unfold number_citations_main, bind, argv_item, read_text, ret, log. cbn.
      rewrite bool_decide_eq_false_2 by auto. cbn.
      destruct (files w !! arg) as [[raw ow|e' ow]|]; [done|..];
        by injection Hf as ->. }
  split; [done|]. intros traceback. unfold script. by rewrite Hrun.
Qed.

Lemma unreadable_input_raises_witness :
  let dir := Unreadable (Failure (u "IsADirectoryError"))
                        (Some (Failure (u "IsADirectoryError"))) in
  let w := World {[ u "docs" := dir ]} (u "in") [] [] [] in
  entry FixCitesTool [u "fix_cites.py"; u "./docs/"] w
  = (Raised (Failure (u "IsADirectoryError")),
     World {[ u "docs" := dir ]} (u "in") [] [] [OpenRead (u "docs")]) ∧
  ∀ traceback : exn → str,
    script traceback (entry FixCitesTool [u "fix_cites.py"; u "./docs/"]) w
    = (1, World {[ u "docs" := dir ]} (u "in") []
                ([] ++ traceback (Failure (u "IsADirectoryError")))
                [OpenRead (u "docs")]).
Proof.
  refine (unreadable_input_raises FixCitesTool (u "fix_cites.py")
            (u "./docs/")
            (World {[ u "docs" :=
                        Unreadable (Failure (u "IsADirectoryError"))
                                   (Some (Failure (u "IsADirectoryError"))) ]}
                   (u "in") [] [] [])
            (Failure (u "IsADirectoryError")) _ _).
  - intros [=].
  - vm_compute. reflexivity.
Defined.

(** X3: fix_cites.py reads no standard input and writes nothing to
    standard output.  It opens a file for writing at most once, after
    having read it, and the path is the one it has read: its argument as
    [pathlib.Path] writes it; what it writes is the fixed text of what it
    read there, line ends translated by the reading.  So a path whose
    content differs after the run is that one; it named a text file
    before the run, and no file is created. *)
Theorem fix_cites_touches_argument_only (argv : list str) (w : world) :
  let w' := (fix_cites_main argv w).2 in
  stdin w' = stdin w ∧ stdout w' = stdout w ∧
  (∃ evs, trace w' = trace w ++ evs ∧
     ∀ p d, OpenWrite p d ∈ evs →
       ∃ prog arg raw on_write,
         argv = [prog; arg] ∧ p = path_str arg ∧
         files w !! p = Some (Text raw on_write) ∧
         d = fix_text (universal_newlines raw) ∧
         evs = [OpenRead p; OpenWrite p d]) ∧
  ∀ q, files w' !! q ≠ files w !! q →
    ∃ prog arg raw,
      argv = [prog; arg] ∧ q = path_str arg ∧
      files w !! q = Some (Text raw None) ∧
      files w' !! q = Some (Text (fix_text (universal_newlines raw)) None).
Proof.
  cbv zeta. unfold fix_cites_main.
  assert (∀ l : list event,
            ∃ evs : list event, l = l ++ evs ∧
              ∀ p d, OpenWrite p d ∈ evs →
                ∃ prog arg raw on_write,
                  argv = [prog; arg] ∧ p = path_str arg ∧
                  files w !! p = Some (Text raw on_write) ∧
                  d = fix_text (universal_newlines raw) ∧
                  evs = [OpenRead p; OpenWrite p d]) as Hnone.
  { intros l. exists []. split; [by rewrite app_nil_r|].
    intros p d Hin. by apply elem_of_nil in Hin. }
  assert (∀ (l : list event) path,
            ∃ evs : list event, l ++ [OpenRead path] = l ++ evs ∧
              ∀ p d, OpenWrite p d ∈ evs →
                ∃ prog arg raw on_write,
                  argv = [prog; arg] ∧ p = path_str arg ∧
                  files w !! p = Some (Text raw on_write) ∧
                  d = fix_text (universal_newlines raw) ∧
                  evs = [OpenRead p; OpenWrite p d]) as Hread.
  { intros l path. exists [OpenRead path]. split; [done|].
    intros p d Hin. apply list_elem_of_singleton in Hin. done. }
  destruct (Nat.eqb_spec (length argv) 2) as [Hlen|Hlen]; cbn [negb].
  - destruct argv as [|prog [|arg [|? ?]]]; try done.
    unfold bind, argv_item, read_text, write_text, log. cbn.
    destruct (files w !! path_str arg) as [[raw ow|e ow]|] eqn:Hf; cbn;
      [|by repeat split..].
    assert (∃ evs : list event,
              (trace w ++ [OpenRead (path_str arg)]) ++
                [OpenWrite (path_str arg) (fix_text (universal_newlines raw))]
              = trace w ++ evs ∧
              ∀ p d, OpenWrite p d ∈ evs →
                ∃ prog0 arg0 raw0 on_write,
                  [prog; arg] = [prog0; arg0] ∧ p = path_str arg0 ∧
                  files w !! p = Some (Text raw0 on_write) ∧
                  d = fix_text (universal_newlines raw0) ∧
                  evs = [OpenRead p; OpenWrite p d]) as Hwrite.
    { exists [OpenRead (path_str arg);
              OpenWrite (path_str arg) (fix_text (universal_newlines raw))].
      split; [by rewrite <-app_assoc|]. intros p d Hin.
      apply elem_of_cons in Hin as [[=]|Hin].
      apply list_elem_of_singleton in Hin. injection Hin as -> ->.
      by exists prog, arg, raw, ow. }
    rewrite Hf. destruct ow as [e|]; cbn; [by repeat split|].
    repeat split; [done|]. intros q Hq.
    destruct (decide (path_str arg = q)) as [<-|Hne].
    + exists prog, arg, raw. by rewrite lookup_insert_eq.
    + by rewrite lookup_insert_ne in Hq.
  - unfold bind, print_stderr, sys_exit. cbn. by repeat split.
Qed.

End Process.

(** ** The table and the lines of renumber_references *)

Section RenumberTable.
Implicit Types (line key k : str) (keys : list str)
  (key_to_num : gmap str nat).

Lemma enumerate_keys_last_lookup keys : ∀ i acc k n,
  enumerate_keys i keys acc !! k = Some n ↔
  (∃ j, keys !! j = Some k ∧ n = i + j + 1 ∧ k ∉ drop (S j) keys) ∨
  ((k ∉ keys) ∧ acc !! k = Some n).
Proof.
  induction keys as [|x keys IH]; intros i acc k n.
  - cbn. split; [intros ?; right; split; [apply not_elem_of_nil|done]|].
    intros [(j & Hj & _)|[_ ?]]; done.
  - cbn [enumerate_keys]. rewrite IH. split.
    + intros [(j & Hj & -> & Hlast)|[Hk Hacc]].
      * left. exists (S j). repeat split; [done|lia|done].
      * destruct (decide (x = k)) as [->|Hne].
        -- rewrite lookup_insert_eq in Hacc. injection Hacc as <-.
           left. exists 0. repeat split; [lia|done].
        -- rewrite lookup_insert_ne in Hacc by done. right.
           split; [|done]. apply not_elem_of_cons. by split.
    + intros [(j & Hj & -> & Hlast)|[Hk Hacc]].
      * destruct j as [|j]; cbn in Hj, Hlast.
        -- injection Hj as ->. right. split; [done|].
           rewrite lookup_insert_eq. f_equal. lia.
        -- left. exists j. repeat split; [done|lia|done].
      * apply not_elem_of_cons in Hk as [Hne Hk]. right. split; [done|].
        by rewrite lookup_insert_ne.
Qed.

Lemma renumber_table_listed keys k n :
  enumerate_keys 0 keys ∅ !! k = Some n → k ∈ keys.
Proof.
  intros [(j & Hj & _)|[_ Hc]]%enumerate_keys_last_lookup.
  - by apply list_elem_of_lookup_2 in Hj.
  - by rewrite lookup_empty in Hc.
Qed.

(** X4: the table [renumber_references] builds from [ordered_keys]
    numbers a key by its last position in the list, counted from 1: of a
    key listed twice, the later place wins; a key that is not listed has
    no number. *)
Theorem renumber_table_last_position keys k n :
  enumerate_keys 0 keys ∅ !! k = Some n ↔
  ∃ i, keys !! i = Some k ∧ n = S i ∧ k ∉ drop (S i) keys.
Proof.
  rewrite enumerate_keys_last_lookup. split.
  - intros [(j & Hj & -> & Hlast)|[_ Hc]]; [|by rewrite lookup_empty in Hc].
    exists j. repeat split; [done|lia|done].
  - intros (j & Hj & -> & Hlast). left. exists j. repeat split; [done|lia|done].
Qed.

(** X5: for the keys that [parse_reference_keys] collects, the table
    rebuilt by [renumber_references] is the table [parse_reference_keys]
    returned: a key has the same number in the body and in the references
    block. *)
Theorem numbering_tables_agree (refs : str) :
  let '(keys, key_to_num) := parse_reference_keys refs in
  enumerate_keys 0 keys ∅ = key_to_num.
Proof.
  pose proof (parsed_keys_numbered refs) as H.
  destruct (parse_reference_keys refs) as [keys key_to_num].
  destruct H as (Hnd & _ & Hnum & _). by apply enumerate_keys_same.
Qed.

Lemma renumber_line_unknown key_to_num line :
  (∀ k, line_key line = Some k → key_to_num !! k = None) →
  renumber_line key_to_num line = line.
Proof.
  intros Hk. rewrite renumber_line_spec. unfold line_key in Hk.
  destruct (find_anchor line) as [[[pre key] post]|]; [|done].
  by rewrite (Hk (strip key)).
Qed.

(** X6: a line whose key is not in [ordered_keys] is copied.  When no key
    of the block is listed (an empty list, for one), the block comes back
    as its lines joined by newlines. *)
Theorem renumber_unknown_keys (refs : str) keys :
  (∀ k, k ∈ block_keys refs → k ∉ keys) →
  renumber_references refs keys = join [NL] (splitlines refs).
Proof.
  intros Hnone. unfold renumber_references. f_equal.
  unfold block_keys in Hnone.
  induction (splitlines refs) as [|line lines IH]; [done|].
  rewrite fmap_cons. f_equal.
  - apply renumber_line_unknown. intros k Hk.
    destruct (enumerate_keys 0 keys ∅ !! k) as [n|] eqn:Hn; [|done].
    apply renumber_table_listed in Hn.
    destruct (Hnone k); [|done].
    cbn [omap list_omap]. rewrite Hk. apply list_elem_of_here.
  - apply IH. intros k Hk. apply Hnone.
    cbn [omap list_omap]. destruct (line_key line); [by right|done].
Qed.

Lemma renumber_unknown_keys_witness :
  renumber_references (u "* [[a]] A" ++ [NL] ++ u "* plain" ++ [NL]) [u "b"]
  = join [NL] (splitlines (u "* [[a]] A" ++ [NL] ++ u "* plain" ++ [NL])).
Proof.
  refine (renumber_unknown_keys _ [u "b"] _).
  intros k Hk.
  replace (block_keys (u "* [[a]] A" ++ [NL] ++ u "* plain" ++ [NL]))
    with [u "a"] in Hk by (by vm_compute).
  apply list_elem_of_singleton in Hk as ->.
  apply not_elem_of_cons. split; [by vm_compute|apply not_elem_of_nil].
Defined.

Lemma splitlines_no_break n : ∀ s,
  length s ≤ n →
  Forall (Forall (λ c, is_linebreak c = false)) (splitlines s).
Proof.
  induction n as [|n IH]; intros s Hn.
  { destruct s; [constructor|cbn in Hn; lia]. }
  destruct s as [|c t]; [constructor|]. cbn [length] in Hn.
  cbn [splitlines]. destruct (is_linebreak c) eqn:Hc.
  - constructor; [constructor|].
    destruct t as [|d t']; [constructor|].
    destruct ((c =? CR)%N && (d =? NL)%N); apply IH; cbn in *; lia.
  - pose proof (IH t ltac:(lia)) as Ht.
    destruct (splitlines t) as [|l ls].
    + by repeat constructor.
    + apply Forall_cons in Ht as [Hl Hls].
      constructor; [by constructor|done].
Qed.

Lemma digits_no_break d : Forall (λ c, is_linebreak c = false) (digits d).
Proof. induction d; constructor; done. Qed.

Lemma join_Forall (P : N → Prop) sep (ls : list str) :
  Forall P sep → Forall (Forall P) ls → Forall P (join sep ls).
Proof.
  intros Hsep. induction 1 as [|x ls Hx Hls IH]; [constructor|].
  cbn [join]. destruct ls as [|y ls]; [done|].
  rewrite !Forall_app. auto.
Qed.

Lemma renumber_line_no_break key_to_num line :
  Forall (λ c, is_linebreak c = false) line →
  Forall (λ c, is_linebreak c = false) (renumber_line key_to_num line).
Proof.
  intros Hline. rewrite renumber_line_spec.
  destruct (find_anchor line) as [[[pre key] post]|] eqn:Hf; [|done].
  destruct (key_to_num !! strip key) as [n|]; [|done].
  apply find_anchor_Some in Hf as [(-> & _) _].
  rewrite !Forall_app in Hline. destruct Hline as (Hpre & _ & _ & _ & Hpost).
  rewrite !Forall_app. repeat split; try done.
  - by repeat constructor.
  - apply digits_no_break.
  - by repeat constructor.
Qed.

(** X7: the rewritten references block is cut into lines by newlines
    only: every character of it that [splitlines] takes for a line
    boundary is a newline.  Whatever terminated the lines of the block
    ([\r\n], [\r], a form feed, a Unicode line separator, ...) does not
    come out. *)
Theorem renumbered_block_newlines (refs : str) keys :
  Forall (λ c, is_linebreak c = true → c = NL)
         (renumber_references refs keys).
Proof.
  unfold renumber_references. apply join_Forall.
  - by apply Forall_singleton.
  - apply Forall_fmap, Forall_forall. intros line Hline. cbn.
    pose proof (splitlines_no_break (length refs) refs ltac:(lia)) as Hall.
    eapply Forall_impl.
    + apply renumber_line_no_break.
      by apply (proj1 (Forall_forall _ _) Hall).
    + cbn. intros c Hc. by rewrite Hc.
Qed.

End RenumberTable.

(** ** Where split_sections cuts *)

Section SplitShape.
Implicit Types (s t w l x y text : str) (p : option N).

Lemma take_while_app_all (f : N → bool) w s :
  Forall (λ c, f c = true) w → take_while f (w ++ s) = w ++ take_while f s.
Proof. induction 1 as [|c w Hc _ IH]; [done|]. cbn. by rewrite Hc, IH. Qed.

Lemma drop_while_app_all (f : N → bool) w s :
  Forall (λ c, f c = true) w → drop_while f (w ++ s) = drop_while f s.
Proof. induction 1 as [|c w Hc _ IH]; [done|]. cbn. by rewrite Hc, IH. Qed.

Lemma at_bol_line_start x s g :
  at_bol (MState (plast None x) s g) = line_start x.
Proof. unfold at_bol, line_start, plast. cbn. by destruct (last x). Qed.

Lemma line_start_snoc x : line_start (x ++ [NL]) = true.
Proof. unfold line_start. by rewrite last_snoc. Qed.

Lemma at_eol_app y s g g' :
  y ≠ [] → at_eol (MState None (y ++ s) g) = at_eol (MState None y g').
Proof. by destruct y. Qed.

(** *** The References heading *)

(** At the start of a line that reads [== References] and white space,
    the heading pattern matches. *)
Lemma heading_here p w t :
  at_bol (MState p [] None) = true →
  Forall (λ c, is_space c = true) w →
  at_eol (MState None t None) = true →
  is_Some (match_here heading_re p (u "== References" ++ w ++ t)).
Proof.
  intros Hbol Hw Heol.
  assert (MState (plast (plast p (u "== References")) w) t None
          ∈ run heading_re (MState p (u "== References" ++ w ++ t) None))
    as Hin.
  { unfold heading_re, space. rewrite run_bol.
    replace (at_bol _) with true by done.
    rewrite run_seq, run_lit, bind_singleton, run_seq.
    pose proof (take_drop_while is_space t) as Ht.
    rewrite <-Ht at 2. rewrite (assoc_L (++) w).
    rewrite run_star_cls; cycle 1.
    { apply Forall_is_space_class, Forall_app. split; [done|].
      apply take_while_Forall. }
    { apply stops_is_space_class, drop_while_stops. }
    apply list_elem_of_bind.
    exists (after (plast p (u "== References")) (drop_while is_space t) None
                  (w, take_while is_space t)).
    split.
    - unfold after. cbn [fst snd run]. rewrite Ht.
      replace (at_eol _) with true by done. apply list_elem_of_here.
    - apply list_elem_of_fmap. exists (w, take_while is_space t).
      split; [done|]. by apply elem_of_splits_desc. }
  unfold match_here.
  destruct (run heading_re _); [by apply elem_of_nil in Hin|by eexists].
Qed.

Lemma lines_nl_no_nl s : Forall (λ l, NL ∉ l) (lines_nl s).
Proof.
  induction s as [|c s IH]; cbn [lines_nl].
  - apply Forall_singleton, not_elem_of_nil.
  - destruct (N.eqb_spec c NL) as [->|Hc].
    + constructor; [apply not_elem_of_nil|done].
    + destruct (lines_nl s) as [|l ls].
      * apply Forall_singleton, not_elem_of_cons.
        split; [congruence|apply not_elem_of_nil].
      * apply Forall_cons in IH as [Hl Hls].
        constructor; [|done]. apply not_elem_of_cons. split; [congruence|done].
Qed.

Lemma stops_differs_eol y p g :
  stops (differs NL) y → at_eol (MState p y g) = true.
Proof.
  destruct y as [|c y]; [done|]. unfold differs. cbn.
  by intros ->%negb_false_iff.
Qed.

Lemma lines_nl_tail s : ∀ l0 ls l,
  lines_nl s = l0 :: ls → l ∈ ls →
  ∃ x y, s = x ++ NL :: l ++ y ∧ at_eol (MState None y None) = true.
Proof.
  induction s as [|c s IH]; intros l0 ls l Hs Hl; cbn [lines_nl] in Hs.
  - injection Hs as <- <-. by apply elem_of_nil in Hl.
  - destruct (N.eqb_spec c NL) as [->|Hc].
    + injection Hs as <- <-.
      destruct (lines_nl_head s) as [ls' Hls]. rewrite Hls in Hl.
      apply elem_of_cons in Hl as [->|Hl].
      * exists [], (drop_while (differs NL) s). split.
        -- cbn [app]. unfold first_line. by rewrite take_drop_while.
        -- apply stops_differs_eol, drop_while_stops.
      * destruct (IH _ _ l Hls Hl) as (x & y & -> & Hy).
        by exists (NL :: x), y.
    + destruct (lines_nl s) as [|l1 ls'] eqn:Hls.
      * injection Hs as <- <-. by apply elem_of_nil in Hl.
      * injection Hs as <- <-.
        destruct (IH _ _ l eq_refl Hl) as (x & y & -> & Hy).
        by exists (c :: x), y.
Qed.

(** A line of the text stands at the start of a line and is followed by
    a newline or by nothing. *)
Lemma lines_nl_elem s l :
  l ∈ lines_nl s →
  ∃ x y, s = x ++ l ++ y ∧ line_start x = true ∧
         at_eol (MState None y None) = true.
Proof.
  intros Hl. destruct (lines_nl_head s) as [ls Hs]. rewrite Hs in Hl.
  apply elem_of_cons in Hl as [->|Hl].
  - exists [], (drop_while (differs NL) s). repeat split.
    + cbn [app]. unfold first_line. by rewrite take_drop_while.
    + apply stops_differs_eol, drop_while_stops.
  - destruct (lines_nl_tail s _ _ l Hs Hl) as (x & y & -> & Hy).
    exists (x ++ [NL]), y. rewrite <-app_assoc. repeat split; [|done].
    apply line_start_snoc.
Qed.

Lemma heading_line_text l :
  is_references_heading l = true →
  ∃ w, l = u "== References" ++ w ∧ Forall (λ c, is_space c = true) w.
Proof.
  unfold is_references_heading.
  intros [Ht%bool_decide_eq_true Hw%forallb_is_space]%andb_true_iff.
  exists (drop 13 l). split; [|done]. by rewrite <-Ht, take_drop.
Qed.

(** A heading line of the text is a place where the pattern matches. *)
Lemma heading_line_match x l y :
  line_start x = true → is_references_heading l = true →
  at_eol (MState None y None) = true →
  is_Some (match_here heading_re (plast None x) (l ++ y)).
Proof.
  intros Hx (w & -> & Hw)%heading_line_text Hy.
  rewrite <-app_assoc. apply heading_here; [|done..].
  by rewrite at_bol_line_start.
Qed.

Lemma search_None_no_heading text :
  search heading_re text = None → has_references_heading text = false.
Proof.
  intros Hno. apply not_true_iff_false. intros Hhas.
  apply existsb_exists in Hhas as (l & Hl%list_elem_of_In & Hhead).
  apply lines_nl_elem in Hl as (x & y & -> & Hx & Hy).
  pose proof (proj1 (search_go_None heading_re _ None 0) Hno x (l ++ y) eq_refl)
    as Hnone.
  destruct (heading_line_match x l y Hx Hhead Hy) as [m Hm]. congruence.
Qed.

(** What [split_sections] returns once the heading has been found:
    [a] is the text before the heading and [c :: s] the text from the
    heading on. *)
Lemma split_sections_found text m :
  search heading_re text = Some m →
  ∃ a c s,
    text = a ++ c :: s ∧ m_start m = length a ∧
    is_Some (match_here heading_re (plast None a) (c :: s)) ∧
    (∀ a1 a2, a = a1 ++ a2 → a2 ≠ [] →
       match_here heading_re (plast None a1) (a2 ++ c :: s) = None) ∧
    split_sections text =
      match search next_heading_re s with
      | Some m' => (a, c :: take (m_start m') s, drop (m_start m') s)
      | None => (a, c :: s, [])
      end.
Proof.
  intros Hs. unfold split_sections. rewrite Hs.
  apply search_go_Some in Hs as (a & b & -> & Hst & Hm & Hbefore).
  cbn in Hst. rewrite Hst.
  destruct b as [|c s].
  { apply match_here_Some_run, heading_match_inv in Hm
      as (_ & w & t & Hb & _). by destruct w. }
  exists a, c, s. repeat split; [by eexists|done|].
  assert (∀ k, drop (length a + k) (a ++ c :: s) = drop k (c :: s)) as Hdrop.
  { intros k. by rewrite <-drop_drop, drop_app_length. }
  rewrite take_app_length, (Hdrop 1). cbn [drop]. rewrite drop_0. unfold slice.
  rewrite drop_app_length.
  destruct (search next_heading_re s) as [m'|] eqn:Hnext.
  - rewrite <-!Nat.add_assoc, Hdrop.
    replace (length a + (1 + m_start m') - length a)
      with (S (m_start m')) by lia.
    done.
  - rewrite drop_all, take_ge; [done|]. rewrite length_app. cbn. lia.
Qed.

(** *** The heading that ends the block *)

Lemma run_cls_cons neg items c p s g :
  run (Cls neg items) (MState p (c :: s) g)
  = if in_class neg items c then [MState (Some c) s g] else [].
Proof. done. Qed.

Lemma rest_of_line_run p s g :
  run (Star dot ⋅ Eol) (MState p s g) ≠ [].
Proof.
  pose proof (take_drop_while (differs NL) s) as Hs.
  pose proof (take_while_Forall (differs NL) s) as HL.
  pose proof (drop_while_stops (differs NL) s) as He.
  set (L := take_while (differs NL) s) in *.
  set (e := drop_while (differs NL) s) in *. clearbody L e. subst s.
  rewrite run_seq. unfold dot. rewrite run_star_cls; cycle 1.
  { eapply Forall_impl; [exact HL|]. intros ??. by rewrite in_class_differs. }
  { destruct e as [|c e]; [done|]. unfold stops in *. by rewrite in_class_differs. }
  destruct (splits_desc_head L) as [tl ->].
  cbn [fmap list_fmap]. rewrite bind_cons. unfold after at 1. cbn [fst snd app run].
  by rewrite stops_differs_eol.
Qed.

(** The pattern of the next heading matches exactly at the start of a
    line where a heading opens. *)
Lemma next_heading_run p s :
  run next_heading_re (MState p s None) ≠ [] ↔
  at_bol (MState p s None) = true ∧ opens_heading s = true.
Proof.
  unfold next_heading_re. rewrite run_bol.
  destruct (at_bol _); [|by split; [|intros [? _]]].
  change (u "==") with [61; 61]%N.
  destruct s as [|a [|b t]].
  - rewrite run_seq, lit_miss_nil. by split; [|intros [_ ?]].
  - rewrite run_seq, run_lit_miss; [by split; [|intros [_ ?]]|].
    intros [k Hk]. discriminate.
  - cbn [opens_heading].
    destruct (N.eqb_spec a 61) as [->|Ha]; cycle 1.
    { rewrite run_seq, lit_miss_cons by done. by split; [|intros [_ ?]]. }
    destruct (N.eqb_spec b 61) as [->|Hb]; cycle 1.
    { rewrite run_seq, run_lit_miss; [by split; [|intros [_ ?]]|].
      intros [k Hk]. cbn in Hk. congruence. }
    cbn [andb].
    change (61 :: 61 :: t)%N with ([61; 61]%N ++ t).
    rewrite run_seq, run_lit, bind_singleton.
    pose proof (take_drop_while is_space t) as Ht.
    pose proof (take_while_Forall is_space t) as HW.
    pose proof (drop_while_stops is_space t) as Hd.
    set (W := take_while is_space t) in *.
    set (d := drop_while is_space t) in *. clearbody W d. subst t.
    rewrite run_seq. unfold space.
    rewrite run_plus_cls
      by (by apply Forall_is_space_class || by apply stops_is_space_class).
    rewrite list_fmap_bind.
    destruct W as [|x W]; [by split; [|intros [_ ?]]|].
    rewrite bind_splits1_desc_commit; [|done|].
    + unfold compose, after. cbn [fst snd app].
      destruct d as [|c d']; [by split; [|intros [_ ?]]|].
      cbn in Hd. rewrite run_seq, run_cls_cons.
      unfold in_class. cbn [existsb item_match]. rewrite Hd. cbn [orb].
      rewrite orb_false_r.
      destruct (c =? 61)%N; cbn [xorb negb]; [by split; [|intros [_ ?]]|].
      rewrite bind_singleton. split; [done|]. intros _.
      apply rest_of_line_run.
    + intros w1 c w2 _ Hw. unfold compose, after. cbn [fst snd].
      rewrite <-app_comm_cons, run_seq, run_cls_cons.
      assert (is_space c = true) as Hc.
      { apply (proj1 (Forall_forall _ _) HW). rewrite Hw.
        apply elem_of_app. right. apply list_elem_of_here. }
      unfold in_class. cbn [existsb item_match]. rewrite Hc.
      by rewrite orb_true_r.
Qed.

Lemma next_heading_here p s :
  match_here next_heading_re p s = None ↔
  at_bol (MState p s None) = false ∨ opens_heading s = false.
Proof.
  pose proof (next_heading_run p s) as H. unfold match_here.
  destruct (run next_heading_re _) as [|st' l].
  - split; [|done]. intros _.
    destruct (at_bol _); [|by left]. right.
    destruct (opens_heading s); [|done]. by destruct (proj2 H).
  - split; [done|]. destruct (proj1 H) as [-> ->]; [done|]. by intros [?|?].
Qed.

Lemma first_line_app_nl x y : first_line (x ++ NL :: y) = first_line x.
Proof.
  unfold first_line. induction x as [|d x IH]; [done|].
  cbn [app take_while]. by rewrite IH.
Qed.

Lemma line_start_app x y : y ≠ [] → line_start (x ++ y) = line_start y.
Proof.
  intros Hy. unfold line_start. rewrite last_app.
  destruct (last y) eqn:Hl; [done|]. by apply last_None in Hl.
Qed.

Lemma line_start_nl x : x ≠ [] → line_start x = true → ∃ x', x = x' ++ [NL].
Proof.
  intros Hx. unfold line_start. destruct (last x) as [c|] eqn:Hl.
  - intros ->%N.eqb_eq. by apply last_Some in Hl.
  - by apply last_None in Hl.
Qed.

(** The two outcomes of [split_sections]. *)
Lemma split_sections_cases text before refs after :
  split_sections text = (before, refs, after) →
  (search heading_re text = None ∧ before = text ∧ refs = [] ∧ after = []) ∨
  (∃ s a' w t,
     refs = 61%N :: a' ∧ text = before ++ 61%N :: s ∧ s = a' ++ after ∧
     61%N :: s = u "== References" ++ w ++ t ∧
     Forall (λ c, is_space c = true) w ∧
     at_eol (MState None t None) = true ∧
     line_start before = true ∧
     (∀ a1 a2, before = a1 ++ a2 → a2 ≠ [] →
        match_here heading_re (plast None a1) (a2 ++ 61%N :: s) = None) ∧
     (after = [] ∨ (a' ≠ [] ∧ line_start a' = true ∧
                    opens_heading after = true)) ∧
     (∀ a1 a2, a' = a1 ++ a2 → a2 ≠ [] →
        match_here next_heading_re (plast None a1) (a2 ++ after) = None)).
Proof.
  intros Hsplit.
  destruct (search heading_re text) as [m|] eqn:Hs; cycle 1.
  { left. unfold split_sections in Hsplit. rewrite Hs in Hsplit.
    by injection Hsplit as <- <- <-. }
  right.
  destruct (split_sections_found text m Hs)
    as (a & c & s & -> & _ & [x Hm] & Hbefore & Heq).
  rewrite Hsplit in Heq.
  pose proof Hm as (Hbol & w & t & Hcs & Hw & Ht)%match_here_Some_run%heading_match_inv.
  rewrite at_bol_line_start in Hbol.
  assert (c = 61%N) as ->.
  { change (u "== References") with (61%N :: u "= References") in Hcs.
    cbn [app] in Hcs. by injection Hcs as -> _. }
  destruct (search next_heading_re s) as [m'|] eqn:Hnext.
  - injection Heq as -> -> ->.
    apply search_go_Some in Hnext as (a0 & b0 & -> & Hst & Hm' & Hbefore').
    cbn in Hst. rewrite Hst, take_app_length, drop_app_length.
    assert (run next_heading_re (MState (plast None a0) b0 None) ≠ [])
      as [Hbol' Hopen]%next_heading_run by by eapply match_here_Some_run.
    rewrite at_bol_line_start in Hbol'.
    assert (a0 ≠ []) as Hne.
    { intros ->. cbn [app] in Hcs.
      change (u "== References") with ([61; 61; 32]%N ++ u "References") in Hcs.
      cbn [app] in Hcs. injection Hcs as ->. done. }
    exists (a0 ++ b0), a0, w, t. repeat split; try done.
    by right.
  - injection Heq as -> -> ->.
    exists s, s, w, t. rewrite app_nil_r. repeat split; try done; [by left|].
    intros a1 a2 -> _. rewrite app_nil_r.
    by apply (proj1 (search_go_None next_heading_re _ None 0) Hnext).
Qed.

(** X8: [split_sections] finds no references block exactly when no line
    of the text is a References heading, and then returns the text as the
    body.  Otherwise it cuts at the first heading line: the body ends
    where a line starts and has no heading line itself, and the references
    block opens with the heading line. *)
Theorem references_heading_found text before refs after :
  split_sections text = (before, refs, after) →
  (refs = [] ↔ has_references_heading text = false) ∧
  (refs = [] → before = text ∧ after = []) ∧
  (refs ≠ [] →
     line_start before = true ∧
     has_references_heading before = false ∧
     is_references_heading (first_line refs) = true).
Proof.
  intros [(Hs & -> & -> & ->)|
          (s & a' & w & t & -> & -> & -> & Hcs & Hw & Ht & Hbol & Hbefore &
           Hafter & Hnext)]%split_sections_cases.
  { repeat split; try done. intros _. by apply search_None_no_heading. }
  assert (has_references_heading before = false) as Hbody.
  { apply not_true_iff_false. intros Hhas.
    apply existsb_exists in Hhas as (l & Hl%list_elem_of_In & Hhead).
    pose proof (proj1 (Forall_forall _ _) (lines_nl_no_nl before) l Hl) as Hnl.
    apply lines_nl_elem in Hl as (x & y & -> & Hx & Hy).
    assert (l ≠ []) as Hne by (by intros ->).
    assert (at_eol (MState None (y ++ 61%N :: a' ++ after) None) = true) as Hy'.
    { destruct y as [|d y]; [|done]. exfalso.
      rewrite app_nil_r, line_start_app in Hbol by done.
      destruct (line_start_nl l Hne Hbol) as [l' ->].
      apply Hnl, elem_of_app. right. apply list_elem_of_here. }
    destruct (heading_line_match x l _ Hx Hhead Hy') as [m Hm].
    pose proof (Hbefore x (l ++ y) eq_refl ltac:(by destruct l)) as Hnone.
    rewrite <-app_assoc in Hnone. congruence. }
  repeat split; try done.
  - intros Hno. exfalso.
    apply no_heading_no_match in Hno.
    pose proof (proj1 (search_go_None heading_re _ None 0) Hno before _ eq_refl)
      as Hnone.
    assert (is_Some (match_here heading_re (plast None before)
                                (61%N :: a' ++ after))) as [m Hm]; [|congruence].
    rewrite Hcs. apply heading_here; [by rewrite at_bol_line_start|done..].
  - assert (first_line (61%N :: a') = first_line (61%N :: a' ++ after)) as ->.
    { destruct Hafter as [->|(Hne & Hst & _)]; [by rewrite app_nil_r|].
      destruct (line_start_nl a' Hne Hst) as [a'' ->].
      rewrite <-app_assoc. cbn [app].
      change (first_line ((61%N :: a'') ++ NL :: [])
              = first_line ((61%N :: a'') ++ NL :: after)).
      by rewrite !first_line_app_nl. }
    rewrite Hcs.
    rewrite first_line_app_all by (by vm_compute; repeat constructor).
    destruct (first_line_eol w t Ht) as (w1 & w2 & -> & ->).
    unfold is_references_heading. apply andb_true_iff. split.
    + by apply bool_decide_eq_true.
    + change (drop 13 (u "== References" ++ w1)) with w1.
      apply forallb_is_space. by apply Forall_app in Hw as [? _].
Qed.

Lemma references_heading_found_witness :
  let before := u "Text <<a>>." ++ [NL; NL] in
  let refs := u "== References" ++ [NL; NL] ++ u "* [[a]] A" ++ [NL; NL] in
  (refs = [] ↔ has_references_heading sample_doc = false) ∧
  (refs = [] →
     before = sample_doc ∧
     u "== Appendix" ++ [NL; NL] ++ u "More." ++ [NL] = []) ∧
  (refs ≠ [] →
     line_start before = true ∧
     has_references_heading before = false ∧
     is_references_heading (first_line refs) = true).
Proof.
  refine (references_heading_found sample_doc
            (u "Text <<a>>." ++ [NL; NL])
            (u "== References" ++ [NL; NL] ++ u "* [[a]] A" ++ [NL; NL])
            (u "== Appendix" ++ [NL; NL] ++ u "More." ++ [NL]) _).
  vm_compute. reflexivity.
Defined.

(** X9: the references block ends where the next top-level heading
    opens, or with the text.  The trailing block is empty or opens, at the
    start of a line, with [==], white space and a character that is
    neither [=] nor white space; and no such heading opens at the start of
    a line inside the block, after its heading line. *)
Theorem references_block_end text before refs after :
  split_sections text = (before, refs, after) → refs ≠ [] →
  (after = [] ∨
   (line_start (before ++ refs) = true ∧ opens_heading after = true)) ∧
  (∀ a b, refs = a ++ b → a ≠ [] → b ≠ [] → line_start a = true →
     opens_heading (b ++ after) = false).
Proof.
  intros [(_ & _ & -> & _)|
          (s & a' & w & t & -> & -> & -> & Hcs & Hw & Ht & Hbol & Hbefore &
           Hafter & Hnext)]%split_sections_cases Hrefs; [done|].
  split.
  - destruct Hafter as [->|(Hne & Hst & Hopen)]; [by left|]. right.
    split; [|done].
    rewrite line_start_app by done.
    change (61%N :: a') with ([61%N] ++ a'). by rewrite line_start_app.
  - intros a b Hab Ha Hb Hst.
    destruct a as [|c a1]; [done|]. injection Hab as <- ->.
    destruct a1 as [|d a1]; [done|].
    change (61%N :: d :: a1) with ([61%N] ++ d :: a1) in Hst.
    rewrite line_start_app in Hst by done.
    apply (Hnext (d :: a1) b eq_refl) in Hb.
    apply next_heading_here in Hb as [Hb|Hb]; [|done].
    rewrite at_bol_line_start in Hb. congruence.
Qed.

Lemma references_block_end_witness :
  let before := u "Text <<a>>." ++ [NL; NL] in
  let refs := u "== References" ++ [NL; NL] ++ u "* [[a]] A" ++ [NL; NL] in
  let after := u "== Appendix" ++ [NL; NL] ++ u "More." ++ [NL] in
  (after = [] ∨
   (line_start (before ++ refs) = true ∧ opens_heading after = true)) ∧
  (∀ a b, refs = a ++ b → a ≠ [] → b ≠ [] → line_start a = true →
     opens_heading (b ++ after) = false).
Proof.
  refine (references_block_end sample_doc
            (u "Text <<a>>." ++ [NL; NL])
            (u "== References" ++ [NL; NL] ++ u "* [[a]] A" ++ [NL; NL])
            (u "== Appendix" ++ [NL; NL] ++ u "More." ++ [NL]) _ _).
  - vm_compute. reflexivity.
  - vm_compute. discriminate.
Defined.

End SplitShape.

(** ** The body rewrite as a scan *)

Section Scanner.
Implicit Types (s t pre post : str) (m : gmap str nat).

Lemma read_link_Some s l t :
  read_link s = Some (l, t) → s = link_text l ++ t ∧ link_ok l.
Proof.
  unfold read_link.
  pose proof (take_drop_while is_space s) as Hs.
  pose proof (take_while_Forall is_space s) as Hw.
  destruct (drop_while is_space s) as [|c s2]; [done|].
  destruct (N.eqb_spec c 44) as [->|]; [|done].
  pose proof (take_drop_while is_space s2) as Hs2.
  pose proof (take_while_Forall is_space s2) as Hw2.
  destruct (delim_at 60 62 (drop_while is_space s2)) as [[k t']|] eqn:Hd;
    [|done].
  intros [= <- <-]. apply delim_at_Some in Hd as (Hd & Hk & Hgt).
  split.
  - unfold link_text, marker. cbn [before_comma after_comma content].
    rewrite <-Hs at 1. rewrite <-Hs2 at 1. rewrite Hd.
    by rewrite <-!app_assoc.
  - by repeat split.
Qed.

Lemma read_link_None s : read_link s = None → link_at s = None.
Proof.
  unfold read_link, link_at.
  destruct (drop_while is_space s) as [|c s2]; [done|].
  destruct (c =? 44)%N; [|done].
  by destruct (delim_at 60 62 (drop_while is_space s2)) as [[k t']|].
Qed.

Lemma read_links_spec fuel : ∀ s links post,
  read_links fuel s = (links, post) → length s ≤ fuel →
  s = concat (link_text <$> links) ++ post ∧
  Forall link_ok links ∧ link_at post = None.
Proof.
  induction fuel as [|n IH]; intros s links post Hr Hf.
  - destruct s; [|cbn in Hf; lia]. injection Hr as <- <-. by repeat split.
  - cbn [read_links] in Hr.
    destruct (read_link s) as [[l t]|] eqn:Hl; cycle 1.
    { injection Hr as <- <-. repeat split; [done|]. by apply read_link_None. }
    apply read_link_Some in Hl as (-> & Hok).
    destruct (read_links n t) as [ls post'] eqn:Ht. injection Hr as <- <-.
    pose proof (link_text_length l) as Hpos.
    rewrite length_app in Hf.
    destruct (IH t ls post' Ht ltac:(lia)) as (-> & Hall & Hpost).
    cbn [fmap list_fmap concat]. rewrite <-app_assoc.
    repeat split; [|done]. by constructor.
Qed.

Lemma repl_keys_run m group c0 links :
  group = run_text c0 links →
  repl_keys m group (ident <$> run_contents c0 links) []
  = numbered_run m c0 links.
Proof.
  intros ->. unfold numbered_run.
  destruct (mapM _ _) as [nums|] eqn:Hn.
  - apply mapM_Some in Hn.
    rewrite (repl_keys_known m _ _ nums []); [done|].
    by apply Forall2_fmap_l.
  - apply mapM_None in Hn. apply repl_keys_unknown. by apply Exists_fmap.
Qed.

Lemma replace_citations_nil m : replace_citations [] m = [].
Proof.
  unfold replace_citations, sub. cbn [sub_go exhausted].
  by rewrite citation_miss_here.
Qed.

Lemma replace_citations_cons c s m :
  delim_at 60 62 (c :: s) = None →
  replace_citations (c :: s) m = c :: replace_citations s m.
Proof.
  intros Hd. unfold replace_citations, sub. cbn [sub_go exhausted].
  rewrite citation_miss_here by done. f_equal.
  apply sub_go_indep; [apply citation_prev_irrelevant|done].
Qed.

(** The substitution is the scan, once the scan has fuel for the whole
    text. *)
Lemma replace_citations_scan fuel : ∀ body m,
  length body ≤ fuel → replace_citations body m = number_runs fuel m body.
Proof.
  induction fuel as [|n IH]; intros body m Hf.
  { destruct body; [|cbn in Hf; lia]. apply replace_citations_nil. }
  cbn [number_runs].
  destruct (delim_at 60 62 body) as [[c0 t]|] eqn:Hd.
  - apply delim_at_Some in Hd as (-> & Hc).
    destruct (read_links (length t) t) as [links post] eqn:Hl.
    destruct (read_links_spec _ _ _ _ Hl ltac:(done)) as (-> & Hok & Hpost).
    pose proof (replace_at_run [] c0 links post m Hc Hok eq_refl Hpost) as Hr.
    unfold run_text, marker in Hr. cbn [app] in Hr |- *.
    rewrite <-!app_assoc in Hr. cbn [app] in Hr. rewrite Hr.
    rewrite (repl_keys_run m _ c0 links)
      by (unfold run_text, marker; by rewrite <-!app_assoc).
    f_equal. apply IH. rewrite !length_app in Hf. cbn [length] in Hf. lia.
  - destruct body as [|c s]; [apply replace_citations_nil|].
    rewrite replace_citations_cons by done. f_equal.
    apply IH. cbn in Hf. lia.
Qed.

(** X10: for every body and every table, [replace_citations] is the scan
    from left to right: at each marker it takes the longest run that
    starts there, writes the bracketed numbers of its identifiers if all
    of them are in the table and the run itself if not, and goes on after
    the run; every character outside the runs is copied. *)
Theorem replace_citations_is_scan body m :
  replace_citations body m = number_runs (length body) m body.
Proof. by apply replace_citations_scan. Qed.

Lemma number_runs_empty fuel : ∀ s,
  length s ≤ fuel → number_runs fuel ∅ s = s.
Proof.
  induction fuel as [|n IH]; intros s Hf; [done|].
  cbn [number_runs].
  destruct (delim_at 60 62 s) as [[c0 t]|] eqn:Hd.
  - apply delim_at_Some in Hd as (-> & Hc).
    destruct (read_links (length t) t) as [links post] eqn:Hl.
    destruct (read_links_spec _ _ _ _ Hl ltac:(done)) as (-> & Hok & Hpost).
    rewrite !length_app in Hf. cbn [length] in Hf.
    rewrite IH by lia.
    unfold numbered_run, run_contents.
    replace (mapM _ _) with (@None (list nat)).
    + unfold run_text, marker. by rewrite <-!app_assoc.
    + symmetry. apply mapM_None, Exists_cons_hd, lookup_empty.
  - destruct s as [|c s]; [done|]. rewrite IH; [done|]. cbn in Hf. lia.
Qed.

Lemma replace_citations_empty body : replace_citations body ∅ = body.
Proof.
  rewrite (replace_citations_scan (length body)) by done.
  by apply number_runs_empty.
Qed.

(** X11: with an empty table the body comes back as it was, whatever
    markers it holds: every run has an identifier without a number. *)
Theorem empty_table_keeps_body body : replace_citations body ∅ = body.
Proof.
  rewrite (replace_citations_scan (length body)) by done.
  by apply number_runs_empty.
Qed.

Lemma transform_without_anchors text before refs after :
  split_sections text = (before, refs, after) →
  block_keys refs = [] →
  transform text = before ++ join [NL] (splitlines refs) ++ after.
Proof.
  intros Hsplit Hkeys. unfold transform. rewrite Hsplit.
  destruct refs as [|c refs].
  { by apply split_sections_app in Hsplit. }
  rewrite parse_reference_keys_fold, Hkeys. cbn [foldl].
  rewrite replace_citations_empty. do 2 f_equal.
  unfold renumber_references. cbn [enumerate_keys]. f_equal.
  induction (splitlines (c :: refs)) as [|line lines IH]; [done|].
  rewrite fmap_cons, IH. f_equal.
  apply renumber_line_unknown. intros k _. apply lookup_empty.
Qed.

End Scanner.

(** ** Documents that come back unchanged *)

Section FixedPoints.
Implicit Types (s t : str).

Lemma join_cons_cons c (l : str) (ls : list str) :
  join [NL] ((c :: l) :: ls) = c :: join [NL] (l :: ls).
Proof. by destruct ls. Qed.

(** Joining the lines gives the text back when newlines are its only
    line terminators and it does not end with one. *)
Lemma rejoined_same s :
  Forall (λ c, is_linebreak c = true → c = NL) s →
  ends_with_break s = false →
  join [NL] (splitlines s) = s.
Proof.
  induction s as [|c t IH]; [done|].
  intros [Hc Ht]%Forall_cons. rewrite ends_with_break_cons.
  cbn [splitlines]. destruct (is_linebreak c) eqn:Hb.
  - rewrite (Hc eq_refl) in *. destruct t as [|d t']; [done|].
    intros He. change ((NL =? CR)%N) with false. cbn [andb].
    specialize (IH Ht He).
    destruct (splitlines (d :: t')) as [|l ls] eqn:Hl.
    + by apply splitlines_nil in Hl.
    + cbn [join app]. by rewrite <-IH.
  - destruct (splitlines t) as [|l ls] eqn:Hl.
    + apply splitlines_nil in Hl as ->. done.
    + intros He. rewrite join_cons_cons, IH; [done..|].
      destruct t; [done|exact He].
Qed.

(** X12: what the transformer does to a document whose references block
    holds no anchor.  Nothing is numbered: the body and the trailing block
    come out as they were, markers included, and the block as its lines
    joined by newlines.  So if the block ends with a line terminator, the
    terminator is lost and the output is shorter than the input; if the
    block does not end with one and newlines are its only line
    terminators, the output is the input: the document is a fixed point
    of the transformer. *)
Theorem anchorless_block_fixpoint text before refs after :
  split_sections text = (before, refs, after) →
  block_keys refs = [] →
  transform text = before ++ join [NL] (splitlines refs) ++ after ∧
  (ends_with_break refs = true → length (transform text) < length text) ∧
  (ends_with_break refs = false →
   Forall (λ c, is_linebreak c = true → c = NL) refs →
   transform text = text).
Proof.
  intros Hsplit Hkeys.
  pose proof (split_sections_app _ _ _ _ Hsplit) as Htext.
  rewrite (transform_without_anchors text before refs after) by done.
  split; [done|]. split.
  - intros He. pose proof (rejoined_shorter refs He).
    rewrite <-Htext, !length_app. lia.
  - intros He Hnl. by rewrite rejoined_same.
Qed.

Lemma anchorless_block_fixpoint_witness :
  let text :=
    u "See <<a>>." ++ [NL] ++ u "== References" ++ [NL] ++ u "none yet" in
  let before := u "See <<a>>." ++ [NL] in
  let refs := u "== References" ++ [NL] ++ u "none yet" in
  transform text = before ++ join [NL] (splitlines refs) ++ [] ∧
  (ends_with_break refs = true → length (transform text) < length text) ∧
  (ends_with_break refs = false →
   Forall (λ c, is_linebreak c = true → c = NL) refs →
   transform text = text).
Proof.
  refine (anchorless_block_fixpoint _ (u "See <<a>>." ++ [NL])
            (u "== References" ++ [NL] ++ u "none yet") [] _ _).
  - vm_compute. reflexivity.
  - vm_compute. reflexivity.
Defined.

End FixedPoints.

(** ** fix_cites.py only deletes *)

Section OnlyDeletes.
Import FixCites.
Implicit Types (s t w k : str) (p : option N) (g : option str) (r : regex).

(** *** The matcher reads what the pattern describes *)

Lemma greedy_sound r :
  (∀ st st', st' ∈ run r st →
     ∃ w, rest st = w ++ rest st' ∧ matches r w (grp st) (grp st')) →
  ∀ fuel st st', st' ∈ greedy (run r) fuel st →
    ∃ w, rest st = w ++ rest st' ∧ matches (Star r) w (grp st) (grp st').
Proof.
  intros Hr. induction fuel as [|n IH]; intros st st' Hin; cbn [greedy] in Hin.
  - apply list_elem_of_singleton in Hin as ->. exists []. split; [done|].
    constructor.
  - apply elem_of_app in Hin as [Hin|Hin].
    + apply list_elem_of_bind in Hin as (st1 & Hin & H1).
      destruct (shorter st1 st); [|by apply elem_of_nil in Hin].
      apply Hr in H1 as (w1 & Hw1 & Hm1).
      apply IH in Hin as (w2 & Hw2 & Hm2).
      exists (w1 ++ w2). split; [by rewrite Hw1, Hw2, app_assoc|].
      by econstructor.
    + apply list_elem_of_singleton in Hin as ->. exists []. split; [done|].
      constructor.
Qed.

Lemma lazy_sound r :
  (∀ st st', st' ∈ run r st →
     ∃ w, rest st = w ++ rest st' ∧ matches r w (grp st) (grp st')) →
  ∀ fuel st st', st' ∈ lazy (run r) fuel st →
    ∃ w, rest st = w ++ rest st' ∧ matches (Star r) w (grp st) (grp st').
Proof.
  intros Hr. induction fuel as [|n IH]; intros st st' Hin; cbn [lazy] in Hin.
  - apply list_elem_of_singleton in Hin as ->. exists []. split; [done|].
    constructor.
  - apply elem_of_cons in Hin as [->|Hin].
    + exists []. split; [done|]. constructor.
    + apply list_elem_of_bind in Hin as (st1 & Hin & H1).
      destruct (shorter st1 st); [|by apply elem_of_nil in Hin].
      apply Hr in H1 as (w1 & Hw1 & Hm1).
      apply IH in Hin as (w2 & Hw2 & Hm2).
      exists (w1 ++ w2). split; [by rewrite Hw1, Hw2, app_assoc|].
      by econstructor.
Qed.

(** Every outcome of the matcher has read a word of the pattern, and its
    group is the one the pattern sets. *)
Lemma run_sound r : ∀ st st',
  st' ∈ run r st →
  ∃ w, rest st = w ++ rest st' ∧ matches r w (grp st) (grp st').
Proof.
  induction r as [|neg items|r1 IH1 r2 IH2|r IH|r IH|r IH|r IH|r IH| |];
    intros st st' Hin; cbn [run] in Hin.
  - apply list_elem_of_singleton in Hin as ->. exists []. split; [done|].
    constructor.
  - destruct (rest st) as [|c t] eqn:Hrest; [by apply elem_of_nil in Hin|].
    destruct (in_class neg items c) eqn:Hc; [|by apply elem_of_nil in Hin].
    apply list_elem_of_singleton in Hin as ->. exists [c]. split; [done|].
    by constructor.
  - apply list_elem_of_bind in Hin as (st1 & Hin & H1).
    apply IH1 in H1 as (w1 & Hw1 & Hm1). apply IH2 in Hin as (w2 & Hw2 & Hm2).
    exists (w1 ++ w2). split; [by rewrite Hw1, Hw2, app_assoc|].
    by econstructor.
  - by apply (greedy_sound r IH) in Hin.
  - apply list_elem_of_bind in Hin as (st1 & Hin & H1).
    apply IH in H1 as (w1 & Hw1 & Hm1).
    apply (greedy_sound r IH) in Hin as (w2 & Hw2 & Hm2).
    exists (w1 ++ w2). split; [by rewrite Hw1, Hw2, app_assoc|].
    by econstructor.
  - apply elem_of_app in Hin as [Hin|Hin].
    + apply IH in Hin as (w & Hw & Hm). exists w. split; [done|].
      by constructor.
    + apply list_elem_of_singleton in Hin as ->. exists []. split; [done|].
      constructor.
  - apply list_elem_of_bind in Hin as (st1 & Hin & H1).
    apply IH in H1 as (w1 & Hw1 & Hm1).
    apply (lazy_sound r IH) in Hin as (w2 & Hw2 & Hm2).
    exists (w1 ++ w2). split; [by rewrite Hw1, Hw2, app_assoc|].
    by econstructor.
  - apply list_elem_of_fmap in Hin as (st1 & -> & Hin).
    apply IH in Hin as (w & Hw & Hm). exists w. cbn [capture rest grp].
    split; [done|].
    rewrite Hw, length_app, Nat.add_sub, take_app_length.
    by econstructor.
  - destruct (at_bol st); [|by apply elem_of_nil in Hin].
    apply list_elem_of_singleton in Hin as ->. exists []. split; [done|].
    constructor.
  - destruct (at_eol st); [|by apply elem_of_nil in Hin].
    apply list_elem_of_singleton in Hin as ->. exists []. split; [done|].
    constructor.
Qed.

(** A match found at the current position is a prefix of the text, and a
    word of the pattern. *)
Lemma match_here_sound r p s w g :
  match_here r p s = Some (w, g) →
  (∃ t, s = w ++ t) ∧ matches r w None g.
Proof.
  unfold match_here.
  destruct (run r (MState p s None)) as [|st' l] eqn:Hrun; [done|].
  intros [= <- <-].
  assert (st' ∈ run r (MState p s None)) as Hin
    by (rewrite Hrun; apply list_elem_of_here).
  apply run_sound in Hin as (w & Hw & Hm). cbn [rest grp] in Hw, Hm.
  rewrite Hw, length_app, Nat.add_sub, take_app_length.
  split; [by eexists|done].
Qed.

(** *** What the three patterns read *)

Lemma matches_groupless r w g g' :
  matches r w g g' → groupless r = true → g' = g.
Proof.
  induction 1 as [| |r1 r2 w1 w2 g g1 g2 _ IH1 _ IH2| |r w1 w2 g g1 g2 _ IH1 _ IH2
                 |r w1 w2 g g1 g2 _ IH1 _ IH2|r w1 w2 g g1 g2 _ IH1 _ IH2
                 | |r w g g1 _ IH| | |];
    cbn [groupless]; intros Hg; try done.
  - apply andb_true_iff in Hg as [H1 H2]. by rewrite IH2, IH1.
  - by rewrite IH2, IH1.
  - by rewrite IH2, IH1.
  - by rewrite IH2, IH1.
  - by apply IH.
Qed.

Lemma matches_chr c w g g' : matches (chr c) w g g' → w = [c] ∧ g' = g.
Proof.
  unfold chr. inversion 1 as [| ? ? d ? Hd | | | | | | | | | |]; subst.
  split; [|done]. unfold in_class in Hd. cbn in Hd.
  rewrite orb_false_r in Hd. by apply N.eqb_eq in Hd as ->.
Qed.

Lemma matches_lit v : ∀ w g g', matches (lit v) w g g' → w = v ∧ g' = g.
Proof.
  induction v as [|c v IH]; intros w g g'; cbn [lit].
  - by inversion 1.
  - inversion 1 as [| |? ? w1 w2 ? g1 ? H1 H2| | | | | | | | |]; subst.
    apply matches_chr in H1 as [-> ->]. by apply IH in H2 as [-> ->].
Qed.

Lemma matches_seq_inv r1 r2 w g g' :
  matches (r1 ⋅ r2) w g g' →
  ∃ w1 w2 g1, w = w1 ++ w2 ∧ matches r1 w1 g g1 ∧ matches r2 w2 g1 g'.
Proof. inversion 1; subst. by eexists _, _, _. Qed.

Lemma matches_opt_chr c w g g' :
  matches (Opt (chr c)) w g g' → (w = [] ∨ w = [c]) ∧ g' = g.
Proof.
  inversion 1 as [| | | | | | | |? ? ? ? H1| | |]; subst; [by split; [left|]|].
  apply matches_chr in H1 as [-> ->]. by split; [right|].
Qed.

Lemma matches_grp_inv r w g g' : matches (Grp r) w g g' → g' = Some w.
Proof. by inversion 1. Qed.

Lemma matches_star_cls neg items w g g' :
  matches (Star (Cls neg items)) w g g' →
  Forall (λ c, in_class neg items c = true) w.
Proof.
  remember (Star (Cls neg items)) as r eqn:Hr. intros Hm. revert Hr.
  induction Hm as [| | | |r w1 w2 g g1 g2 H1 _ _ IH2| | | | | | |];
    intros Hr; try done.
  injection Hr as ->. inversion H1; subst. constructor; [done|]. by apply IH2.
Qed.

Lemma matches_plus_cls neg items w g g' :
  matches (Plus (Cls neg items)) w g g' →
  Forall (λ c, in_class neg items c = true) w.
Proof.
  inversion 1 as [| | | | |? ? ? ? ? ? H1 H2| | | | | |]; subst.
  inversion H1; subst. constructor; [done|]. by eapply matches_star_cls.
Qed.

(** The tail of the escaped forms: the key, at most one backslash, and
    the closing brace. *)
Lemma matches_braced_tail w g g' :
  matches braced_tail w g g' →
  ∃ k o, w = k ++ o ++ [125%N] ∧ g' = Some k ∧ (o = [] ∨ o = [92%N]).
Proof.
  unfold braced_tail.
  intros (k & w2 & g1 & -> & ->%matches_grp_inv & H2)%matches_seq_inv.
  apply matches_seq_inv in H2 as (o & w3 & g2 & -> & [Ho ->]%matches_opt_chr & H3).
  apply matches_chr in H3 as [-> ->]. by exists k, o.
Qed.

(** A match of the first escaped form: the escape token, white space,
    [cite], at most one backslash, the brace, and the tail. *)
Lemma spaced_shape w g :
  matches spaced_re w None g →
  ∃ ws o1 k o,
    w = TEXTBACKSLASH ++ ws ++ CITE ++ o1 ++ [123%N] ++ k ++ o ++ [125%N] ∧
    g = Some k ∧ Forall (λ c, is_space c = true) ws ∧
    (o1 = [] ∨ o1 = [92%N]) ∧ (o = [] ∨ o = [92%N]).
Proof.
  unfold spaced_re.
  intros (w1 & wa & g1 & -> & [-> ->]%matches_lit & H)%matches_seq_inv.
  apply matches_seq_inv in H as (ws & wb & g2 & -> & Hws & H).
  pose proof (matches_groupless _ _ _ _ Hws eq_refl) as ->.
  apply matches_plus_cls in Hws.
  apply matches_seq_inv in H as (w3 & wc & g3 & -> & [-> ->]%matches_lit & H).
  apply matches_seq_inv in H as (o1 & wd & g4 & -> & [Ho1 ->]%matches_opt_chr & H).
  apply matches_seq_inv in H as (w5 & we & g5 & -> & [-> ->]%matches_chr & H).
  apply matches_braced_tail in H as (k & o & -> & -> & Ho).
  exists ws, o1, k, o. repeat split; try done.
  eapply Forall_impl; [exact Hws|]. intros c Hc. unfold in_class in Hc. cbn in Hc.
  by rewrite orb_false_r in Hc.
Qed.

Lemma slashed_shape w g :
  matches slashed_re w None g →
  ∃ o1 k o,
    w = TEXTBACKSLASH ++ [92%N] ++ CITE ++ o1 ++ [123%N] ++ k ++ o ++ [125%N] ∧
    g = Some k ∧ (o1 = [] ∨ o1 = [92%N]) ∧ (o = [] ∨ o = [92%N]).
Proof.
  unfold slashed_re.
  intros (w1 & wa & g1 & -> & [-> ->]%matches_lit & H)%matches_seq_inv.
  apply matches_seq_inv in H as (o1 & wd & g4 & -> & [Ho1 ->]%matches_opt_chr & H).
  apply matches_seq_inv in H as (w5 & we & g5 & -> & [-> ->]%matches_chr & H).
  apply matches_braced_tail in H as (k & o & -> & -> & Ho).
  by exists o1, k, o.
Qed.

Lemma residual_shape w g :
  matches residual_re w None g →
  ∃ k, w = CITE_OPEN ++ k ++ [92; 125]%N ∧ g = Some k.
Proof.
  unfold residual_re.
  intros (w1 & wa & g1 & -> & [-> ->]%matches_lit & H)%matches_seq_inv.
  apply matches_seq_inv in H as (k & wb & g2 & -> & ->%matches_grp_inv & H).
  apply matches_lit in H as [-> ->]. by exists k.
Qed.

(** *** Substitutions and relations between output and input *)

(** A relation between texts that is reflexive and goes through
    concatenation holds between output and input of a substitution as
    soon as it holds between each replacement and the match it
    replaces. *)
Lemma sub_go_related (R : str → str → Prop) r (repl : rmatch → str) :
  (∀ s, R s s) →
  (∀ a b c d, R a b → R c d → R (a ++ c) (b ++ d)) →
  (∀ p s i w g, match_here r p s = Some (w, g) → R (repl (RMatch i w g)) w) →
  ∀ n s count p i, length s ≤ n → R (sub_go r repl count p s i 0) s.
Proof.
  intros Hrefl Happ Hrepl.
  assert (∀ c a b, R a b → R (c :: a) (c :: b)) as Hcons.
  { intros c a b Hab. by apply (Happ [c] [c]). }
  induction n as [|n IH]; intros s count p i Hn.
  - destruct s; [|cbn in Hn; lia]. cbn [sub_go].
    destruct (exhausted count); [done|].
    destruct (match_here r p []) as [[w g]|] eqn:Hm; [|done].
    pose proof (Hrepl _ _ i _ _ Hm) as Hsub.
    apply match_here_sound in Hm as [[t Ht] _].
    symmetry in Ht. apply app_eq_nil in Ht as [-> _].
    by rewrite app_nil_r.
  - destruct s as [|c s].
    { apply (IH [] count p i). cbn. lia. }
    cbn [sub_go]. destruct (exhausted count); [done|].
    destruct (match_here r p (c :: s)) as [[w g]|] eqn:Hm; cycle 1.
    { apply Hcons, IH. cbn in Hn. lia. }
    pose proof (Hrepl _ _ i _ _ Hm) as Hsub.
    apply match_here_sound in Hm as [[t Ht] _].
    destruct w as [|d w]; cbn [length].
    + apply (Happ _ [] _ (c :: s)); [done|].
      apply Hcons, IH. cbn in Hn. lia.
    + cbn [app] in Ht. injection Ht as <- ->.
      rewrite sub_go_skip.
      apply (Happ _ (c :: w) _ t); [done|]. apply IH.
      cbn in Hn. rewrite length_app in Hn. lia.
Qed.

Lemma fix_text_related (R : str → str → Prop) :
  (∀ s, R s s) →
  (∀ a b c, R a b → R b c → R a c) →
  (∀ a b c d, R a b → R c d → R (a ++ c) (b ++ d)) →
  (∀ pat w g i, pat ∈ [spaced_re; slashed_re; residual_re] →
     matches pat w None g → R (cite_template (RMatch i w g)) w) →
  ∀ text, R (fix_text text) text.
Proof.
  intros Hrefl Htrans Happ Hrepl text.
  assert (∀ pat s, pat ∈ [spaced_re; slashed_re; residual_re] →
            R (sub pat cite_template None s) s) as Hpass.
  { intros pat s Hpat.
    unfold sub.
    apply (sub_go_related R pat cite_template Hrefl Happ) with (n := length s);
      [|done].
    intros p s' i w g [_ Hm]%match_here_sound. by apply (Hrepl pat). }
  unfold fix_text, patterns. cbn [foldl].
  eapply Htrans; [|eapply Htrans]; [| |apply (Hpass spaced_re)];
    [apply (Hpass residual_re)|apply (Hpass slashed_re)|];
    set_solver.
Qed.

Lemma cite_sublist (a b o k : str) :
  [92%N] `sublist_of` a → CITE `sublist_of` b →
  CITE_OPEN ++ k ++ [125%N] `sublist_of` a ++ b ++ [123%N] ++ k ++ o ++ [125%N].
Proof.
  intros Ha Hb.
  change CITE_OPEN with ([92%N] ++ CITE ++ [123%N]).
  rewrite <-!app_assoc.
  apply sublist_app; [done|]. apply sublist_app; [done|].
  apply sublist_app; [done|]. apply sublist_app; [done|].
  by apply sublist_inserts_l.
Qed.

Lemma template_sublist pat w g i :
  pat ∈ [spaced_re; slashed_re; residual_re] →
  matches pat w None g →
  cite_template (RMatch i w g) `sublist_of` w.
Proof.
  unfold cite_template, group1.
  change (u "\cite{") with CITE_OPEN. change (u "}") with [125%N].
  intros Hpat Hm. cbn [m_group1].
  repeat (apply elem_of_cons in Hpat as [->|Hpat]);
    [..|by apply elem_of_nil in Hpat].
  - apply spaced_shape in Hm as (ws & o1 & k & o & -> & -> & _).
    cbn [default from_option id].
    rewrite (assoc_L (++) ws), (assoc_L (++) (ws ++ CITE)).
    apply cite_sublist.
    + change TEXTBACKSLASH with ([92%N] ++ u "textbackslash").
      by apply sublist_inserts_r.
    + by apply sublist_inserts_r, sublist_inserts_l.
  - apply slashed_shape in Hm as (o1 & k & o & -> & -> & _).
    cbn [default from_option id].
    rewrite (assoc_L (++) TEXTBACKSLASH), (assoc_L (++) CITE).
    apply cite_sublist.
    + change TEXTBACKSLASH with ([92%N] ++ u "textbackslash").
      rewrite <-app_assoc. by apply sublist_inserts_r.
    + by apply sublist_inserts_r.
  - apply residual_shape in Hm as (k & -> & ->).
    cbn [default from_option id].
    apply sublist_app; [done|]. apply sublist_app; [done|].
    by apply (sublist_inserts_l [92%N]).
Qed.

Lemma kept_app a b : kept (a ++ b) = kept a ++ kept b.
Proof.
  induction a as [|c a IH]; [done|]. cbn [app kept].
  destruct (droppable c); [done|]. by rewrite IH.
Qed.

Lemma kept_spaces ws : Forall (λ c, is_space c = true) ws → kept ws = [].
Proof.
  induction 1 as [|c ws Hc _ IH]; [done|]. cbn [kept]. unfold droppable.
  by rewrite Hc.
Qed.

Lemma kept_opt_backslash o : o = [] ∨ o = [92%N] → kept o = [].
Proof. by intros [->| ->]. Qed.

Lemma template_kept pat w g i :
  pat ∈ [spaced_re; slashed_re; residual_re] →
  matches pat w None g →
  kept (cite_template (RMatch i w g)) = kept w.
Proof.
  unfold cite_template, group1.
  change (u "\cite{") with CITE_OPEN. change (u "}") with [125%N].
  intros Hpat Hm. cbn [m_group1].
  repeat (apply elem_of_cons in Hpat as [->|Hpat]);
    [..|by apply elem_of_nil in Hpat].
  - apply spaced_shape in Hm as (ws & o1 & k & o & -> & -> & Hws & Ho1 & Ho).
    cbn [default from_option id]. rewrite !kept_app.
    by rewrite (kept_spaces ws), (kept_opt_backslash o1),
         (kept_opt_backslash o).
  - apply slashed_shape in Hm as (o1 & k & o & -> & -> & Ho1 & Ho).
    cbn [default from_option id]. rewrite !kept_app.
    by rewrite (kept_opt_backslash o1), (kept_opt_backslash o).
  - apply residual_shape in Hm as (k & -> & ->).
    cbn [default from_option id]. by rewrite !kept_app.
Qed.

(** X13: fix_cites.py only deletes characters, and only some kinds of
    them.  For every text, the text it writes back is what is left of the
    text it read after removing some of its characters: nothing is
    inserted, nothing changes place, the file never grows; and each
    removed character is white space or one of the characters of
    [\textbackslash], so that every brace and every other character of
    the text is still there, in its order. *)
Theorem fix_text_only_deletes (text : str) :
  fix_text text `sublist_of` text ∧
  length (fix_text text) ≤ length text ∧
  kept (fix_text text) = kept text.
Proof.
  assert (fix_text text `sublist_of` text) as Hsub.
  { apply (fix_text_related sublist).
    - done.
    - intros a b c ??. by etrans.
    - intros a b c d. apply sublist_app.
    - intros pat w g i. apply template_sublist. }
  split; [done|]. split; [by apply sublist_length|].
  apply (fix_text_related (λ out inp, kept out = kept inp)).
  - done.
  - intros a b c ??. by etrans.
  - intros a b c d Hab Hcd. by rewrite !kept_app, Hab, Hcd.
  - intros pat w g i. apply template_kept.
Qed.

End OnlyDeletes.

(** ** Escaped macros without the patterns *)

Section Recognise.
Import FixCites.
Implicit Types (s t a w x k rest : str) (p : option N) (g : option str)
  (head : str → option str).

(** *** Reading a word, white space, a brace *)

Lemma strip_prefix_app w x : strip_prefix w (w ++ x) = Some x.
Proof.
  induction w as [|c w IH]; [done|]. cbn [app strip_prefix].
  by rewrite N.eqb_refl.
Qed.

Lemma strip_prefix_Some w : ∀ s x, strip_prefix w s = Some x → s = w ++ x.
Proof.
  induction w as [|c w IH]; intros s x; cbn [strip_prefix].
  - by intros [= ->].
  - destruct s as [|d s]; [done|].
    destruct (N.eqb_spec c d) as [->|]; [|done].
    intros H. by rewrite (IH _ _ H).
Qed.

Lemma strip_prefix_seq w1 w2 s :
  strip_prefix (w1 ++ w2) s = strip_prefix w1 s ≫= strip_prefix w2.
Proof.
  revert s. induction w1 as [|c w1 IH]; intros s; [done|].
  cbn [app strip_prefix]. destruct s as [|d s]; [done|].
  destruct (c =? d)%N; [apply IH|done].
Qed.

Lemma strip_prefix_None w s : ¬ w `prefix_of` s → strip_prefix w s = None.
Proof.
  intros Hno. destruct (strip_prefix w s) as [x|] eqn:H; [|done].
  destruct Hno. exists x. by apply strip_prefix_Some.
Qed.

(** A word read across the end of [a] would hold the character that
    follows [a]. *)
Lemma strip_prefix_inside w : ∀ a rest x,
  (rest = [] ∨ ∃ c r, rest = c :: r ∧ c ∉ w) →
  strip_prefix w (a ++ rest) = Some x →
  ∃ x', strip_prefix w a = Some x' ∧ x = x' ++ rest.
Proof.
  induction w as [|c w IH]; intros a rest x Hrest; cbn [strip_prefix].
  - intros [= <-]. by exists a.
  - destruct a as [|d a]; cbn [app].
    + destruct Hrest as [->|(e & r & -> & He)]; [done|].
      destruct (N.eqb_spec c e) as [->|]; [|done].
      destruct He. apply list_elem_of_here.
    + destruct (N.eqb_spec c d) as [->|]; [|done]. intros H.
      apply IH in H; [done|].
      destruct Hrest as [->|(e & r & -> & He)]; [by left|right].
      exists e, r. split; [done|]. intros Hin. apply He.
      by apply list_elem_of_further.
Qed.

Lemma while_inside (f : N → bool) : ∀ a rest,
  stops f rest →
  take_while f (a ++ rest) = take_while f a ∧
  drop_while f (a ++ rest) = drop_while f a ++ rest.
Proof.
  induction a as [|c a IH]; intros rest Hst.
  - cbn [app]. destruct rest as [|d r]; [done|]. cbn in Hst |- *.
    by rewrite Hst.
  - cbn [app take_while drop_while]. destruct (f c); [|done].
    by destruct (IH rest Hst) as [-> ->].
Qed.

Lemma inert_first rest :
  inert rest = true →
  rest = [] ∨ ∃ c r, rest = c :: r ∧ (c = 125%N ∨ c = 92%N).
Proof.
  destruct rest as [|c r]; [by left|]. cbn [inert]. right. exists c, r.
  split; [done|].
  destruct (N.eqb_spec c 125); [by left|].
  destruct (N.eqb_spec c 92); [by right|done].
Qed.

Lemma inert_outside rest (w : str) :
  inert rest = true → 125%N ∉ w → 92%N ∉ w →
  rest = [] ∨ ∃ c r, rest = c :: r ∧ c ∉ w.
Proof.
  intros [->|(c & r & -> & Hc)]%inert_first H1 H2; [by left|right].
  exists c, r. split; [done|]. by destruct Hc as [-> | ->].
Qed.

Lemma inert_stops rest : inert rest = true → stops is_space rest.
Proof.
  intros [->|(c & r & -> & [-> | ->])]%inert_first; done.
Qed.

Lemma open_brace_inside a rest x :
  inert rest = true → open_brace (a ++ rest) = Some x →
  ∃ x', open_brace a = Some x' ∧ x = x' ++ rest.
Proof.
  intros Hin. destruct a as [|c1 a].
  - cbn [app]. destruct rest as [|c [|y r]]; [done|..]; cbn in Hin |- *.
    + destruct (N.eqb_spec c 125) as [->|]; [done|].
      destruct (N.eqb_spec c 92) as [->|]; done.
    + destruct (N.eqb_spec c 125) as [->|]; [done|].
      destruct (N.eqb_spec c 92) as [->|]; [|done].
      cbn in Hin. apply negb_true_iff, N.eqb_neq in Hin.
      destruct y as [|y]; [done|].
      repeat (destruct y as [y|y|]; try done).
  - cbn [app]. destruct (N.eq_dec c1 123%N) as [->|H1].
    { intros [= <-]. by exists a. }
    destruct (N.eq_dec c1 92%N) as [->|H2]; cycle 1.
    { intros H. exfalso. revert H. cbn.
      destruct c1 as [|c1]; [done|].
      repeat (destruct c1 as [c1|c1|]; try done). }
    destruct a as [|c2 a]; cbn [app].
    + apply inert_first in Hin as [->|(c & r & -> & [-> | ->])]; done.
    + destruct (N.eq_dec c2 123%N) as [->|H3].
      { intros [= <-]. by exists a. }
      intros H. exfalso. revert H. cbn.
      destruct c2 as [|c2]; [done|].
      repeat (destruct c2 as [c2|c2|]; try done).
Qed.

(** *** The openings *)

Lemma open_brace_intro (o : bool) x :
  open_brace (opt_backslash o ++ [123%N] ++ x) = Some x.
Proof. by destruct o. Qed.

Lemma open_brace_Some s x :
  open_brace s = Some x → ∃ o : bool, s = opt_backslash o ++ [123%N] ++ x.
Proof.
  destruct s as [|c1 s]; [done|].
  destruct (N.eq_dec c1 123%N) as [->|H1].
  { intros [= <-]. by exists false. }
  destruct (N.eq_dec c1 92%N) as [->|H2]; cycle 1.
  { intros H. exfalso. revert H. cbn.
    destruct c1 as [|c1]; [done|].
    repeat (destruct c1 as [c1|c1|]; try done). }
  destruct s as [|c2 s]; [done|].
  destruct (N.eq_dec c2 123%N) as [->|H3].
  { intros [= <-]. by exists true. }
  intros H. exfalso. revert H. cbn.
  destruct c2 as [|c2]; [done|].
  repeat (destruct c2 as [c2|c2|]; try done).
Qed.

Lemma spaced_head_intro ws (o : bool) x :
  ws ≠ [] → Forall (λ c, is_space c = true) ws →
  spaced_head (TEXTBACKSLASH ++ ws ++ CITE ++ opt_backslash o ++ [123%N] ++ x)
  = Some x.
Proof.
  intros Hne Hws. unfold spaced_head. rewrite strip_prefix_app.
  rewrite take_while_app_stop, drop_while_app_stop by done.
  destruct ws as [|c ws]; [done|].
  by rewrite strip_prefix_app, open_brace_intro.
Qed.

Lemma slashed_head_intro (o : bool) x :
  slashed_head ((TEXTBACKSLASH ++ 92%N :: CITE) ++
                opt_backslash o ++ [123%N] ++ x) = Some x.
Proof.
  unfold slashed_head. by rewrite strip_prefix_app, open_brace_intro.
Qed.

Lemma spaced_head_Some s x :
  spaced_head s = Some x →
  ∃ ws (o : bool),
    s = TEXTBACKSLASH ++ ws ++ CITE ++ opt_backslash o ++ [123%N] ++ x ∧
    ws ≠ [] ∧ Forall (λ c, is_space c = true) ws.
Proof.
  unfold spaced_head.
  destruct (strip_prefix TEXTBACKSLASH s) as [r|] eqn:H1; [|done].
  apply strip_prefix_Some in H1 as ->.
  pose proof (take_drop_while is_space r) as Hr.
  pose proof (take_while_Forall is_space r) as Hws.
  destruct (take_while is_space r) as [|c ws] eqn:Htw; [done|].
  destruct (strip_prefix CITE (drop_while is_space r)) as [r'|] eqn:H2; [|done].
  apply strip_prefix_Some in H2.
  intros (o & ->)%open_brace_Some. exists (c :: ws), o.
  by rewrite <-Hr, H2.
Qed.

Lemma slashed_head_Some s x :
  slashed_head s = Some x →
  ∃ o : bool,
    s = (TEXTBACKSLASH ++ 92%N :: CITE) ++ opt_backslash o ++ [123%N] ++ x.
Proof.
  unfold slashed_head.
  destruct (strip_prefix (TEXTBACKSLASH ++ 92%N :: CITE) s) as [r|] eqn:H1;
    [|done].
  apply strip_prefix_Some in H1 as ->.
  intros (o & ->)%open_brace_Some. by exists o.
Qed.

(** The escape token read in [a] followed by [rest] is read in [a], as
    soon as [a] is not empty and [rest] begins with a brace or a
    backslash. *)
Lemma token_inside a rest r :
  a ≠ [] → inert rest = true →
  strip_prefix TEXTBACKSLASH (a ++ rest) = Some r →
  ∃ r', strip_prefix TEXTBACKSLASH a = Some r' ∧ r = r' ++ rest.
Proof.
  intros Ha Hin. destruct a as [|d a]; [done|].
  change TEXTBACKSLASH with (92%N :: tail TEXTBACKSLASH).
  cbn [app strip_prefix]. destruct (92 =? d)%N; [|done].
  apply strip_prefix_inside. apply inert_outside; [done|by_decide..].
Qed.

Lemma spaced_head_inside a rest x :
  a ≠ [] → inert rest = true → spaced_head (a ++ rest) = Some x →
  ∃ x', spaced_head a = Some x' ∧ x = x' ++ rest.
Proof.
  intros Ha Hin. unfold spaced_head.
  destruct (strip_prefix TEXTBACKSLASH (a ++ rest)) as [r|] eqn:H1; [|done].
  apply token_inside in H1 as (r' & -> & ->); [|done..].
  destruct (while_inside is_space r' rest (inert_stops rest Hin)) as [-> ->].
  destruct (take_while is_space r') as [|c ws]; [done|].
  destruct (strip_prefix CITE (drop_while is_space r' ++ rest)) as [r2|] eqn:H2;
    [|done].
  apply strip_prefix_inside in H2 as (r2' & -> & ->);
    [|apply inert_outside; [done|by_decide..]].
  by apply open_brace_inside.
Qed.

(** The same for the other opening, unless [a] is the escape token and
    [rest] begins with [\cite]. *)
Lemma slashed_head_inside a rest x :
  a ≠ [] → inert rest = true → slashed_head (a ++ rest) = Some x →
  (∃ x', slashed_head a = Some x' ∧ x = x' ++ rest) ∨
  (a = TEXTBACKSLASH ∧ (92%N :: CITE) `prefix_of` rest).
Proof.
  intros Ha Hin. unfold slashed_head. rewrite !strip_prefix_seq.
  destruct (strip_prefix TEXTBACKSLASH (a ++ rest)) as [r|] eqn:H1; [|done].
  apply token_inside in H1 as (r' & H1 & ->); [|done..]. rewrite H1.
  cbn [mbind option_bind].
  destruct (strip_prefix (92%N :: CITE) (r' ++ rest)) as [r2|] eqn:H2; [|done].
  destruct r' as [|d r'].
  - intros _. right. apply strip_prefix_Some in H1. rewrite app_nil_r in H1.
    split; [done|]. exists r2. by apply strip_prefix_Some.
  - cbn [app strip_prefix] in H2 |- *. destruct (92 =? d)%N; [|done].
    apply strip_prefix_inside in H2 as (r2' & -> & ->);
      [|apply inert_outside; [done|by_decide..]].
    intros H. left. by apply open_brace_inside.
Qed.

(** An opening goes on being one when text is added. *)
Lemma spaced_head_app a z x :
  spaced_head a = Some x → spaced_head (a ++ z) = Some (x ++ z).
Proof.
  intros (ws & o & -> & Hne & Hws)%spaced_head_Some.
  assert ((TEXTBACKSLASH ++ ws ++ CITE ++ opt_backslash o ++ [123%N] ++ x) ++ z
          = TEXTBACKSLASH ++ ws ++ CITE ++ opt_backslash o ++ [123%N] ++ x ++ z)
    as -> by (by repeat rewrite <-app_assoc).
  by apply spaced_head_intro.
Qed.

Lemma slashed_head_app a z x :
  slashed_head a = Some x → slashed_head (a ++ z) = Some (x ++ z).
Proof.
  intros (o & ->)%slashed_head_Some.
  assert (((TEXTBACKSLASH ++ 92%N :: CITE) ++
           opt_backslash o ++ [123%N] ++ x) ++ z
          = (TEXTBACKSLASH ++ 92%N :: CITE) ++
            opt_backslash o ++ [123%N] ++ x ++ z)
    as -> by (by repeat rewrite <-app_assoc).
  by apply slashed_head_intro.
Qed.

Lemma opens_inside head a rest :
  (∀ x, head (a ++ rest) = Some x → ∃ x', head a = Some x' ∧ x = x' ++ rest) →
  opens head (a ++ rest) = true → opens head a = true.
Proof.
  intros H. unfold opens.
  destruct (head (a ++ rest)) as [x|] eqn:Hx; [|done].
  destruct (H x eq_refl) as (x' & -> & ->). by destruct x'.
Qed.

(** Whether a key can begin at an opening is seen before the next
    closing brace. *)
Lemma opens_cut_spaced y t :
  opens spaced_head (y ++ 125%N :: t) = true →
  opens spaced_head (y ++ [125%N]) = true.
Proof.
  unfold opens.
  destruct (spaced_head (y ++ 125%N :: t)) as [x|] eqn:H; [|done].
  destruct y as [|c y]; [done|].
  apply spaced_head_inside in H as (x' & H & ->); [|done..].
  rewrite (spaced_head_app _ [125%N] _ H). by destruct x'.
Qed.

Lemma opens_cut_slashed y t :
  opens slashed_head (y ++ 125%N :: t) = true →
  opens slashed_head (y ++ [125%N]) = true.
Proof.
  unfold opens.
  destruct (slashed_head (y ++ 125%N :: t)) as [x|] eqn:H; [|done].
  destruct y as [|c y]; [done|].
  apply slashed_head_inside in H as [(x' & H & ->)|[_ [b [=]]]]; [|done..].
  rewrite (slashed_head_app _ [125%N] _ H). by destruct x'.
Qed.

(** *** Occurrences *)

Lemma occurs_here (f : str → bool) s : f s = true → occurs f s = true.
Proof. intros H. destruct s; cbn [occurs]; by rewrite H. Qed.

Lemma occurs_app (f : str → bool) a1 a2 :
  occurs f a2 = true → occurs f (a1 ++ a2) = true.
Proof.
  intros H. induction a1 as [|c a1 IH]; [done|]. cbn [app occurs].
  by rewrite IH, orb_true_r.
Qed.

Lemma occurs_false (f : str → bool) a1 a2 :
  occurs f (a1 ++ a2) = false → f a2 = false.
Proof.
  intros H. destruct (f a2) eqn:Hf; [|done].
  by rewrite (occurs_app f a1 a2 (occurs_here f a2 Hf)) in H.
Qed.

Lemma occurs_true (f : str → bool) s :
  occurs f s = true → ∃ a1 a2, s = a1 ++ a2 ∧ f a2 = true.
Proof.
  induction s as [|c s IH]; cbn [occurs].
  - rewrite orb_false_r. intros H. by exists [], [].
  - intros [H|H]%orb_true_iff; [by exists [], (c :: s)|].
    destruct (IH H) as (a1 & a2 & -> & Hf). by exists (c :: a1), a2.
Qed.

Lemma quiet_at s a1 a2 :
  quiet s = true → s = a1 ++ a2 →
  opens spaced_head a2 = false ∧ opens slashed_head a2 = false.
Proof.
  unfold quiet. intros [H1 H2]%andb_true_iff ->.
  apply negb_true_iff in H1, H2. split; by eapply occurs_false.
Qed.

End Recognise.

(** ** The patterns of fix_cites.py match the escaped macros, and nothing
    else *)

Section Occurrences.
Import FixCites.
Implicit Types (s t a w x k rest : str) (p : option N) (g : option str)
  (r : regex).

Lemma matches_grp_inner r w g g' :
  matches (Grp r) w g g' → g' = Some w ∧ ∃ g1, matches r w g g1.
Proof. inversion 1; subst. eauto. Qed.

Lemma matches_plus_cls_nonempty neg items w g g' :
  matches (Plus (Cls neg items)) w g g' → w ≠ [].
Proof.
  inversion 1 as [| | | | |? ? ? ? ? ? H1 H2| | | | | |]; subst.
  by inversion H1; subst.
Qed.

Lemma differs_all (c : N) w :
  c ∉ w ↔ Forall (λ y, differs c y = true) w.
Proof.
  rewrite <-Forall_differs. apply Forall_iff. intros y.
  by rewrite in_class_differs.
Qed.

Lemma bool_opt_backslash (o : str) :
  o = [] ∨ o = [92%N] → ∃ b : bool, o = opt_backslash b.
Proof. intros [-> | ->]; [by exists false|by exists true]. Qed.

(** What the three patterns read, in full. *)
Lemma braced_tail_read w g g' :
  matches braced_tail w g g' →
  ∃ k (o : bool),
    w = k ++ opt_backslash o ++ [125%N] ∧ g' = Some k ∧ k ≠ [] ∧ 125%N ∉ k.
Proof.
  unfold braced_tail.
  intros (k & w2 & g1 & -> & Hk & H2)%matches_seq_inv.
  apply matches_grp_inner in Hk as [-> [g2 Hk]].
  apply matches_seq_inv in H2
    as (o & w3 & g3 & -> & [Ho ->]%matches_opt_chr & H3).
  apply matches_chr in H3 as [-> ->].
  apply bool_opt_backslash in Ho as [b ->].
  exists k, b. repeat split; [by eapply matches_plus_cls_nonempty|].
  apply matches_plus_cls in Hk. by apply Forall_differs.
Qed.

Lemma spaced_read w g :
  matches spaced_re w None g →
  ∃ ws (o1 : bool) k (o : bool),
    w = escaped_text (Escaped (Spaces ws) o1 k o) ∧ g = Some k ∧
    ws ≠ [] ∧ Forall (λ c, is_space c = true) ws ∧ k ≠ [] ∧ 125%N ∉ k.
Proof.
  unfold spaced_re.
  intros (w1 & wa & g1 & -> & [-> ->]%matches_lit & H)%matches_seq_inv.
  apply matches_seq_inv in H as (ws & wb & g2 & -> & Hws & H).
  pose proof (matches_groupless _ _ _ _ Hws eq_refl) as ->.
  pose proof (matches_plus_cls_nonempty _ _ _ _ _ Hws) as Hne.
  apply matches_plus_cls in Hws.
  apply matches_seq_inv in H as (w3 & wc & g3 & -> & [-> ->]%matches_lit & H).
  apply matches_seq_inv in H
    as (o1 & wd & g4 & -> & [Ho1 ->]%matches_opt_chr & H).
  apply matches_seq_inv in H as (w5 & we & g5 & -> & [-> ->]%matches_chr & H).
  apply braced_tail_read in H as (k & o & -> & -> & Hk & Hbrace).
  apply bool_opt_backslash in Ho1 as [b1 ->].
  exists ws, b1, k, o. split; [|repeat split; try done].
  - unfold escaped_text, sep_text. cbn [sep brace_escaped key stray].
    by rewrite <-!app_assoc.
  - eapply Forall_impl; [exact Hws|]. intros c Hc. unfold in_class in Hc.
    cbn in Hc. by rewrite orb_false_r in Hc.
Qed.

Lemma slashed_read w g :
  matches slashed_re w None g →
  ∃ (o1 : bool) k (o : bool),
    w = escaped_text (Escaped Backslash o1 k o) ∧ g = Some k ∧
    k ≠ [] ∧ 125%N ∉ k.
Proof.
  unfold slashed_re.
  intros (w1 & wa & g1 & -> & [-> ->]%matches_lit & H)%matches_seq_inv.
  apply matches_seq_inv in H
    as (o1 & wd & g4 & -> & [Ho1 ->]%matches_opt_chr & H).
  apply matches_seq_inv in H as (w5 & we & g5 & -> & [-> ->]%matches_chr & H).
  apply braced_tail_read in H as (k & o & -> & -> & Hk & Hbrace).
  apply bool_opt_backslash in Ho1 as [b1 ->].
  exists b1, k, o. split; [|done].
  unfold escaped_text, sep_text. cbn [sep brace_escaped key stray].
  change (u "\textbackslash\cite") with (TEXTBACKSLASH ++ 92%N :: CITE).
  by rewrite <-!app_assoc.
Qed.

Lemma residual_read w g :
  matches residual_re w None g →
  ∃ k, w = CITE_OPEN ++ k ++ [92; 125]%N ∧ g = Some k ∧ 125%N ∉ k.
Proof.
  unfold residual_re.
  intros (w1 & wa & g1 & -> & [-> ->]%matches_lit & H)%matches_seq_inv.
  apply matches_seq_inv in H as (k & wb & g2 & -> & Hk & H).
  apply matches_grp_inner in Hk as [-> [g3 Hk]].
  apply matches_lit in H as [-> ->]. exists k. repeat split.
  apply matches_star_cls in Hk. by apply Forall_differs.
Qed.

(** *** Every match is an occurrence *)

Lemma keyed_intro x t : x ≠ [] → 125%N ∉ x → keyed (x ++ 125%N :: t) = true.
Proof.
  intros Hne Hx. unfold keyed. apply differs_all in Hx.
  rewrite take_while_app_stop, drop_while_app_stop by done.
  by destruct x.
Qed.

Lemma keyed_inv x :
  keyed x = true → ∃ k t, x = k ++ 125%N :: t ∧ k ≠ [] ∧ 125%N ∉ k.
Proof.
  unfold keyed. pose proof (take_drop_while (differs 125) x) as Hx.
  pose proof (take_while_Forall (differs 125) x) as Hk.
  pose proof (drop_while_stops (differs 125) x) as Hst.
  destruct (take_while (differs 125) x) as [|c k]; [done|].
  destruct (drop_while (differs 125) x) as [|d t]; [done|]. intros _.
  cbn in Hst. apply negb_false_iff, N.eqb_eq in Hst as ->.
  exists (c :: k), t. split; [done|]. split; [done|]. by apply differs_all.
Qed.

Lemma escaped_spaced_open ws o1 k o t :
  escaped_text (Escaped (Spaces ws) o1 k o) ++ t
  = TEXTBACKSLASH ++ ws ++ CITE ++ opt_backslash o1 ++ [123%N] ++
    (k ++ opt_backslash o) ++ 125%N :: t.
Proof. rewrite escaped_text_spaces. by rewrite <-!app_assoc. Qed.

Lemma escaped_slashed_open o1 k o t :
  escaped_text (Escaped Backslash o1 k o) ++ t
  = (TEXTBACKSLASH ++ 92%N :: CITE) ++ opt_backslash o1 ++ [123%N] ++
    (k ++ opt_backslash o) ++ 125%N :: t.
Proof. rewrite escaped_text_backslash. by rewrite <-!app_assoc. Qed.

Lemma key_stray_clean k (o : bool) :
  k ≠ [] → 125%N ∉ k →
  k ++ opt_backslash o ≠ [] ∧ 125%N ∉ k ++ opt_backslash o.
Proof.
  intros Hk Hb. split; [by destruct k|].
  rewrite elem_of_app. intros [?|?]; [done|]. by eapply opt_backslash_no_brace.
Qed.

Lemma opens_intro (head : str → option str) s x t :
  head s = Some (x ++ 125%N :: t) → x ≠ [] → 125%N ∉ x →
  opens head s = true.
Proof.
  intros Hs Hne Hx. unfold opens. rewrite Hs.
  destruct x as [|c x]; [done|]. cbn [app].
  apply negb_true_iff, N.eqb_neq. intros ->. apply Hx, list_elem_of_here.
Qed.

Lemma spaced_sound p s w g :
  match_here spaced_re p s = Some (w, g) →
  spaced_at s = true ∧ opens spaced_head s = true.
Proof.
  intros [[t ->] Hm]%match_here_sound.
  apply spaced_read in Hm as (ws & o1 & k & o & -> & _ & Hne & Hws & Hk & Hb).
  destruct (key_stray_clean k o Hk Hb) as [Hk' Hb'].
  rewrite escaped_spaced_open.
  pose proof (spaced_head_intro ws o1 ((k ++ opt_backslash o) ++ 125%N :: t)
                Hne Hws) as Hh.
  split; [|by eapply opens_intro].
  unfold spaced_at. rewrite Hh. by apply keyed_intro.
Qed.

Lemma slashed_sound p s w g :
  match_here slashed_re p s = Some (w, g) →
  slashed_at s = true ∧ opens slashed_head s = true.
Proof.
  intros [[t ->] Hm]%match_here_sound.
  apply slashed_read in Hm as (o1 & k & o & -> & _ & Hk & Hb).
  destruct (key_stray_clean k o Hk Hb) as [Hk' Hb'].
  rewrite escaped_slashed_open.
  pose proof (slashed_head_intro o1 ((k ++ opt_backslash o) ++ 125%N :: t))
    as Hh.
  split; [|by eapply opens_intro].
  unfold slashed_at. rewrite Hh. by apply keyed_intro.
Qed.

Lemma residual_sound p s w g :
  match_here residual_re p s = Some (w, g) → stray_at s = true.
Proof.
  intros [[t ->] Hm]%match_here_sound.
  apply residual_read in Hm as (k & -> & _ & Hb).
  unfold stray_at. rewrite <-app_assoc, strip_prefix_app.
  assert ((k ++ [92; 125]%N) ++ t = (k ++ [92%N]) ++ 125%N :: t) as ->
    by (by rewrite <-!app_assoc).
  assert (125%N ∉ k ++ [92%N]) as Hb'.
  { rewrite elem_of_app, list_elem_of_singleton. by intros [?|?]. }
  apply differs_all in Hb'.
  rewrite take_while_app_stop, drop_while_app_stop by done.
  by rewrite last_snoc.
Qed.

(** *** Every occurrence is matched *)

Lemma spaced_complete p s :
  spaced_at s = true → match_here spaced_re p s ≠ None.
Proof.
  unfold spaced_at. destruct (spaced_head s) as [x|] eqn:Hh; [|done].
  apply spaced_head_Some in Hh as (ws & o & -> & Hne & Hws).
  intros (k & t & -> & Hk & Hb)%keyed_inv.
  pose proof (spaced_hit p ws o k false t Hne Hws) as Hm.
  cbn [opt_backslash] in Hm. rewrite app_nil_r in Hm.
  specialize (Hm Hk Hb).
  rewrite escaped_spaced_open in Hm. cbn [opt_backslash] in Hm.
  rewrite app_nil_r in Hm. by rewrite Hm.
Qed.

Lemma slashed_complete p s :
  slashed_at s = true → match_here slashed_re p s ≠ None.
Proof.
  unfold slashed_at. destruct (slashed_head s) as [x|] eqn:Hh; [|done].
  apply slashed_head_Some in Hh as (o & ->).
  intros (k & t & -> & Hk & Hb)%keyed_inv.
  pose proof (slashed_hit p o k false t) as Hm.
  cbn [opt_backslash] in Hm. rewrite app_nil_r in Hm.
  specialize (Hm Hk Hb).
  rewrite escaped_slashed_open in Hm. cbn [opt_backslash] in Hm.
  rewrite app_nil_r in Hm. by rewrite Hm.
Qed.

Lemma residual_complete p s :
  stray_at s = true → match_here residual_re p s ≠ None.
Proof.
  unfold stray_at. destruct (strip_prefix CITE_OPEN s) as [x|] eqn:Hh; [|done].
  apply strip_prefix_Some in Hh as ->.
  pose proof (take_drop_while (differs 125) x) as Hx.
  pose proof (take_while_Forall (differs 125) x) as Hk.
  pose proof (drop_while_stops (differs 125) x) as Hst.
  destruct (last (take_while (differs 125) x)) as [c|] eqn:Hl; [|done].
  destruct (drop_while (differs 125) x) as [|d t]; [done|].
  intros ->%N.eqb_eq.
  cbn in Hst. apply negb_false_iff, N.eqb_eq in Hst as ->.
  apply last_Some in Hl as [k Hl]. rewrite Hl in Hx, Hk. subst x.
  apply differs_all in Hk.
  assert (125%N ∉ k) as Hb.
  { intros ?. apply Hk, elem_of_app. by left. }
  unfold match_here, residual_re.
  rewrite run_seq, (run_lit CITE_OPEN), bind_singleton.
  by rewrite residual_tail_snoc.
Qed.

End Occurrences.

(** ** fix_cites.py on a text without escaped macros *)

Section Unchanged.
Import Proc FixCites.
Implicit Types (s t a w x k rest : str) (p : option N) (g : option str)
  (r : regex).

(** A substitution whose replacements are shorter than what they replace
    never makes a text longer, and makes it shorter as soon as the
    pattern matches somewhere. *)
Lemma sub_go_shrinks r (repl : rmatch → str) :
  (∀ p t i w g, match_here r p t = Some (w, g) →
     length (repl (RMatch i w g)) < length w) →
  ∀ n s p i, length s ≤ n →
    length (sub_go r repl None p s i 0) ≤ length s ∧
    ((∃ a b, s = a ++ b ∧ match_here r (plast p a) b ≠ None) →
     length (sub_go r repl None p s i 0) < length s).
Proof.
  intros Hlt. induction n as [|n IH]; intros s p i Hn.
  - destruct s; [|cbn in Hn; lia]. cbn [sub_go exhausted].
    destruct (match_here r p []) as [[w g]|] eqn:Hm.
    + pose proof (Hlt _ _ i _ _ Hm) as Hl.
      apply match_here_sound in Hm as [[t Ht] _].
      symmetry in Ht. apply app_eq_nil in Ht as [-> _]. cbn in Hl. lia.
    + split; [done|]. intros (a & b & Hab & Hne).
      symmetry in Hab. apply app_eq_nil in Hab as [-> ->]. done.
  - destruct s as [|c s]. { apply (IH [] p i). cbn. lia. }
    cbn [sub_go exhausted].
    destruct (match_here r p (c :: s)) as [[w g]|] eqn:Hm.
    + pose proof (Hlt _ _ i _ _ Hm) as Hl.
      apply match_here_sound in Hm as [[t Ht] _].
      destruct w as [|d w]; [cbn in Hl; lia|].
      cbn [app] in Ht. injection Ht as <- ->. cbn [length].
      rewrite sub_go_skip.
      destruct (IH t (plast (Some c) w) (S i + length w)) as [Hle _].
      { cbn in Hn. rewrite length_app in Hn. lia. }
      change (used None) with (@None nat).
      rewrite !length_app. cbn [length] in *.
      split; [lia|intros _; lia].
    + destruct (IH s (Some c) (S i)) as [Hle Hlt']; [cbn in Hn; lia|].
      cbn [length]. split; [lia|].
      intros (a & b & Hab & Hne). destruct a as [|d a].
      * cbn in Hab. subst b. by rewrite plast_nil in Hne.
      * injection Hab as <- ->. rewrite plast_cons in Hne.
        apply ->Nat.succ_lt_mono. apply Hlt'. by exists a, b.
Qed.

Lemma template_shorter pat p t i w g :
  pat ∈ [spaced_re; slashed_re; residual_re] →
  match_here pat p t = Some (w, g) →
  length (cite_template (RMatch i w g)) < length w.
Proof.
  intros Hpat [_ Hm]%match_here_sound.
  unfold cite_template, group1. cbn [m_group1].
  change (u "\cite{") with CITE_OPEN. change (u "}") with [125%N].
  change (length (CITE_OPEN ++ default [] g ++ [125%N]) < length w).
  assert (length CITE_OPEN = 6 ∧ length TEXTBACKSLASH = 14) as [H6 H14] by done.
  repeat (apply elem_of_cons in Hpat as [->|Hpat]);
    [..|by apply elem_of_nil in Hpat].
  - apply spaced_read in Hm as (ws & o1 & k & o & -> & -> & _).
    unfold escaped_text, sep_text. cbn [sep brace_escaped key stray].
    cbn [default from_option id]. rewrite !length_app, H6, H14.
    cbn [length]. lia.
  - apply slashed_read in Hm as (o1 & k & o & -> & -> & _).
    unfold escaped_text, sep_text. cbn [sep brace_escaped key stray].
    cbn [default from_option id]. rewrite !length_app, H6, H14.
    cbn [length]. lia.
  - apply residual_read in Hm as (k & -> & -> & _).
    cbn [default from_option id]. rewrite !length_app. cbn [length]. lia.
Qed.

(** One pass of fix_cites.py: it leaves the text as it is when what it
    looks for does not occur, and shortens it otherwise. *)
Lemma pass_fixed pat (f : str → bool) :
  pat ∈ [spaced_re; slashed_re; residual_re] →
  (∀ p s w g, match_here pat p s = Some (w, g) → f s = true) →
  (∀ p s, f s = true → match_here pat p s ≠ None) →
  ∀ s, length (sub pat cite_template None s) ≤ length s ∧
       (occurs f s = false → sub pat cite_template None s = s) ∧
       (occurs f s = true → length (sub pat cite_template None s) < length s).
Proof.
  intros Hpat Hsound Hcomplete s.
  pose proof (sub_go_shrinks pat cite_template
                (λ p t i w g, template_shorter pat p t i w g Hpat)
                (length s) s None 0 (le_n _)) as [Hle Hlt].
  split; [done|]. split.
  - intros Hno. apply sub_no_match. apply search_go_None.
    intros a b -> . destruct (match_here pat (plast None a) b) as [[w g]|] eqn:Hm;
      [|done].
    apply Hsound in Hm. by rewrite (occurs_app f a b (occurs_here f b Hm)) in Hno.
  - intros (a & b & -> & Hf)%occurs_true. apply Hlt. exists a, b.
    split; [done|]. by apply Hcomplete.
Qed.

(** The texts that fix_cites.py leaves as they are: those without
    escaped macro and without cite macro closed after a backslash. *)
Lemma fix_text_same (text : str) :
  fix_text text = text ↔ escape_free text = true.
Proof.
  unfold fix_text, patterns, escape_free. cbn [foldl].
  destruct (pass_fixed spaced_re spaced_at ltac:(set_solver)
              (λ p s w g H, proj1 (spaced_sound p s w g H)) spaced_complete text)
    as (L1 & S1 & C1).
  set (t1 := sub spaced_re cite_template None text) in *.
  destruct (pass_fixed slashed_re slashed_at ltac:(set_solver)
              (λ p s w g H, proj1 (slashed_sound p s w g H)) slashed_complete t1)
    as (L2 & S2 & C2).
  set (t2 := sub slashed_re cite_template None t1) in *.
  destruct (pass_fixed residual_re stray_at ltac:(set_solver)
              residual_sound residual_complete t2)
    as (L3 & S3 & C3).
  set (t3 := sub residual_re cite_template None t2) in *.
  destruct (occurs spaced_at text) eqn:O1.
  { specialize (C1 eq_refl). cbn. split; [|done]. intros Heq.
    rewrite Heq in L3. lia. }
  specialize (S1 eq_refl). rewrite S1 in *.
  destruct (occurs slashed_at text) eqn:O2.
  { specialize (C2 eq_refl). cbn. split; [|done]. intros Heq.
    rewrite Heq in L3. lia. }
  specialize (S2 eq_refl). rewrite S2 in *.
  destruct (occurs stray_at text) eqn:O3.
  { specialize (C3 eq_refl). cbn. split; [|done]. intros Heq.
    rewrite Heq in C3. lia. }
  specialize (S3 eq_refl). done.
Qed.

(** C5, as the code has it.  fix_cites.py reads the file its argument
    names, as [pathlib.Path] writes that name, with CRLF and CR read as
    LF.  If the text read holds no escaped macro (the escape token, then
    white space or a backslash, [cite], a brace that may be escaped, one
    character or more other than a closing brace, and a closing brace)
    and no cite macro closed after a backslash ([\cite{], characters
    other than a closing brace the last of which is a backslash, and a
    closing brace), the text written back is the text read; the run
    ends normally, having opened the file once to read and once to
    write.  The file then holds what it held, byte for byte, exactly
    when the reading translated nothing, as is the case of a file
    without carriage return. *)
Theorem fix_cites_identity (prog arg raw : str) (w : world) :
  files w !! path_str arg = Some (Text raw None) →
  escape_free (universal_newlines raw) = true →
  let text := universal_newlines raw in
  let path := path_str arg in
  fix_text text = text ∧
  fix_cites_main [prog; arg] w =
    (Done (),
     World (<[path := Text text None]> (files w)) (stdin w) (stdout w)
           (stderr w) (trace w ++ [OpenRead path; OpenWrite path text])) ∧
  (<[path := Text text None]> (files w) = files w ↔ text = raw) ∧
  (CR ∉ raw → text = raw).
Proof.
  intros Hf Hfree. cbv zeta.
  pose proof (proj2 (fix_text_same _) Hfree) as Hid.
  split; [done|]. split; [|split].
  - unfold fix_cites_main, bind, read_text, write_text, argv_item, log.
    cbn -[fix_text universal_newlines path_str]. rewrite Hf.
    cbn -[fix_text universal_newlines path_str]. rewrite Hf, Hid.
    by rewrite <-app_assoc.
  - split.
    + intros Heq.
      assert (files w !! path_str arg
              = Some (Text (universal_newlines raw) None)) as Hl
        by (by rewrite <-Heq, lookup_insert_eq).
      rewrite Hf in Hl. by injection Hl.
    + intros ->. by apply insert_id.
  - apply universal_newlines_id.
Qed.

Lemma fix_cites_identity_witness :
  let raw := u "See \cite{knuth}, \textbackslash{} and \emph{that}." in
  fix_text raw = raw ∧
  fix_cites_main [u "fix_cites.py"; u "./a.tex"]
    (World {[ u "a.tex" := Text raw None ]} [] [] [] [])
  = (Done (),
     World (<[ u "a.tex" := Text raw None ]> {[ u "a.tex" := Text raw None ]})
           [] [] []
           ([] ++ [OpenRead (u "a.tex"); OpenWrite (u "a.tex") raw])) ∧
  (<[ u "a.tex" := Text raw None ]> {[ u "a.tex" := Text raw None ]}
   = ({[ u "a.tex" := Text raw None ]} : gmap str node) ↔ raw = raw) ∧
  (CR ∉ raw → raw = raw).
Proof.
  refine (fix_cites_identity (u "fix_cites.py") (u "./a.tex")
           (u "See \cite{knuth}, \textbackslash{} and \emph{that}.")
           (World {[ u "a.tex" :=
                       Text (u "See \cite{knuth}, \textbackslash{} and \emph{that}.")
                            None ]}
                  [] [] [] []) _ _).
  - vm_compute. reflexivity.
  - vm_compute. reflexivity.
Defined.

(** The claim of C5 as it is written fails twice.  A text without any
    escape token, hence without escaped macro, is rewritten by the
    clean-up pass; and a file with CRLF line ends does not get back the
    bytes it held, although no pattern matches in it. *)
Lemma fix_cites_identity_fails :
  let text := u "\cite{a\}" in
  let raw := u "one" ++ [CR; NL] ++ u "two" ++ [CR; NL] in
  mentions TEXTBACKSLASH text = false ∧
  fix_text text = u "\cite{a}" ∧
  fix_text text ≠ text ∧
  mentions TEXTBACKSLASH raw = false ∧
  escape_free raw = true ∧
  fix_cites_main [u "fix_cites.py"; u "a.tex"]
    (World {[ u "a.tex" := Text raw None ]} [] [] [] [])
  = (Done (),
     World {[ u "a.tex" := Text (u "one" ++ [NL] ++ u "two" ++ [NL]) None ]}
           [] [] []
           [OpenRead (u "a.tex");
            OpenWrite (u "a.tex") (u "one" ++ [NL] ++ u "two" ++ [NL])]) ∧
  u "one" ++ [NL] ++ u "two" ++ [NL] ≠ raw.
Proof.
  cbv zeta. repeat split; by vm_compute.
Qed.

End Unchanged.

(** ** fix_cites.py on a document with escaped macros *)

Section Macros.
Import FixCites.
Implicit Types (s t a w x k seg rest : str) (p : option N) (e : escaped)
  (head : str → option str).

(** *** Parts of a text *)

Lemma tails_elem (l a m : str) : l = a ++ m → m ≠ [] → m ∈ tails l.
Proof.
  revert l. induction a as [|c a IH]; intros l -> Hm.
  - destruct m as [|d m]; [done|]. apply list_elem_of_here.
  - cbn [app tails]. apply list_elem_of_further. by apply IH.
Qed.

Lemma first_occurrence (c : N) (y1 y2 t1 t2 : str) :
  c ∉ y1 → c ∉ y2 → y1 ++ c :: t1 = y2 ++ c :: t2 → y1 = y2 ∧ t1 = t2.
Proof.
  revert y2. induction y1 as [|d y1 IH]; intros [|d2 y2] H1 H2 Heq;
    cbn [app] in Heq.
  - by injection Heq as ->.
  - injection Heq as <- _. destruct H2. apply list_elem_of_here.
  - injection Heq as -> _. destruct H1. apply list_elem_of_here.
  - injection Heq as <- Heq.
    apply not_elem_of_cons in H1 as [_ H1].
    apply not_elem_of_cons in H2 as [_ H2].
    by destruct (IH y2 H1 H2 Heq) as [-> ->].
Qed.

Lemma suffix_snoc (l a1 a2 : str) (c : N) :
  l ++ [c] = a1 ++ a2 → a2 ≠ [] → ∃ y, a2 = y ++ [c] ∧ l = a1 ++ y.
Proof.
  intros Heq Hne. destruct a2 as [|d a2 _] using rev_ind; [done|].
  rewrite app_assoc in Heq. apply app_inj_tail in Heq as [-> ->].
  by exists a2.
Qed.

Lemma forallb_Forall (f : N → bool) (l : str) :
  forallb f l = true → Forall (λ c, f c = true) l.
Proof.
  induction l as [|c l IH]; [done|]. cbn [forallb].
  intros [Hc Hl]%andb_true_iff. constructor; [done|by apply IH].
Qed.

(** What [fixable] says. *)
Lemma fixable_inv e :
  fixable e = true →
  match sep e with
  | Spaces w =>
      w ≠ [] ∧ Forall (λ c, is_space c = true) w ∧
      occurs (opens slashed_head)
        (key e ++ opt_backslash (stray e) ++ [125%N]) = false
  | Backslash =>
      occurs (opens spaced_head)
        (key e ++ opt_backslash (stray e) ++ [125%N]) = false
  end ∧
  key e ++ opt_backslash (stray e) ≠ [] ∧ (125%N ∉ key e) ∧
  (stray e = false → last (key e) ≠ Some 92%N).
Proof.
  unfold fixable. cbv zeta. rewrite !andb_true_iff.
  intros (((Hsep & Hk) & Hb) & Hl). repeat split.
  - destruct (sep e) as [w|]; [|by apply negb_true_iff in Hsep].
    apply andb_true_iff in Hsep as [[Hw Hsp]%andb_true_iff Hq].
    split; [|split].
    + apply negb_true_iff in Hw. by apply bool_decide_eq_false in Hw.
    + by apply forallb_Forall.
    + by apply negb_true_iff in Hq.
  - apply negb_true_iff in Hk. by apply bool_decide_eq_false in Hk.
  - apply differs_all. by apply forallb_Forall.
  - intros Hst. rewrite Hst in Hl. cbn in Hl.
    apply negb_true_iff in Hl. by apply bool_decide_eq_false in Hl.
Qed.

(** *** Where no match begins *)

(** In quiet text followed by text that goes on no opening. *)
Lemma spaced_seg_miss seg rest :
  quiet seg = true → inert rest = true →
  ∀ a1 a2 p, seg = a1 ++ a2 → a2 ≠ [] →
    match_here spaced_re p (a2 ++ rest) = None.
Proof.
  intros Hq Hin a1 a2 p Hseg Hne.
  destruct (match_here spaced_re p (a2 ++ rest)) as [[w g]|] eqn:Hm; [|done].
  apply spaced_sound in Hm as [_ Hm].
  apply opens_inside in Hm; [|intros x; by apply spaced_head_inside].
  destruct (quiet_at seg a1 a2 Hq Hseg) as [H1 _]. congruence.
Qed.

Lemma slashed_seg_miss seg rest :
  quiet seg = true → inert rest = true →
  (TEXTBACKSLASH `suffix_of` seg → ¬ (92%N :: CITE) `prefix_of` rest) →
  ∀ a1 a2 p, seg = a1 ++ a2 → a2 ≠ [] →
    match_here slashed_re p (a2 ++ rest) = None.
Proof.
  intros Hq Hin Hapart a1 a2 p Hseg Hne.
  destruct (match_here slashed_re p (a2 ++ rest)) as [[w g]|] eqn:Hm; [|done].
  apply slashed_sound in Hm as [_ Hm].
  apply opens_inside in Hm.
  - destruct (quiet_at seg a1 a2 Hq Hseg) as [_ H2]. congruence.
  - intros x Hx.
    destruct (slashed_head_inside a2 rest x Hne Hin Hx) as [H|[-> Hpre]];
      [done|].
    destruct Hapart; [by exists a1|done].
Qed.

(** Inside a macro that the pattern does not match: in the key, no key
    can begin at an opening, and what stands before the key begins no
    opening. *)
Lemma piece_miss (P : regex) head (lit_ : str) k (st : bool) rest :
  (∀ p s w g, match_here P p s = Some (w, g) → opens head s = true) →
  (∀ y t, opens head (y ++ 125%N :: t) = true →
     opens head (y ++ [125%N]) = true) →
  Forall (λ m, ∀ t, head (m ++ t) = None) (tails lit_) →
  occurs (opens head) (k ++ opt_backslash st ++ [125%N]) = false →
  ∀ a1 a2 p, lit_ ++ k ++ opt_backslash st ++ [125%N] = a1 ++ a2 → a2 ≠ [] →
    match_here P p (a2 ++ rest) = None.
Proof.
  intros Hsound Hcut Hlit Hk a1 a2 p Heq Hne.
  destruct (match_here P p (a2 ++ rest)) as [[w g]|] eqn:Hm; [|done].
  apply Hsound in Hm. exfalso.
  apply app_eq_inv in Heq as [(m & Hl & ->)|(m & -> & Heq)].
  - (* [a2] begins before the key *)
    destruct m as [|c m].
    + cbn [app] in Hm.
      assert ((k ++ opt_backslash st ++ [125%N]) ++ rest
              = (k ++ opt_backslash st) ++ 125%N :: rest) as Hr
        by (by repeat rewrite <-app_assoc).
      rewrite Hr in Hm. apply Hcut in Hm.
      rewrite <-app_assoc in Hm. by rewrite (occurs_here _ _ Hm) in Hk.
    + unfold opens in Hm. rewrite <-app_assoc in Hm.
      eapply Forall_forall in Hlit; [by rewrite Hlit in Hm|].
      by apply (tails_elem _ a1).
  - (* [a2] begins in the key or after it *)
    destruct a2 as [|d a2 _] using rev_ind; [done|].
    assert (d = 125%N ∧ k ++ opt_backslash st = m ++ a2) as [-> Hka].
    { rewrite !app_assoc in Heq. apply app_inj_tail in Heq as [Heq Hd].
      by rewrite <-?app_assoc in Heq. }
    rewrite <-app_assoc in Hm. cbn [app] in Hm. apply Hcut in Hm.
    rewrite (app_assoc k), Hka, <-app_assoc in Hk.
    by rewrite (occurs_app _ m _ (occurs_here _ _ Hm)) in Hk.
Qed.

(** The first pattern inside a macro written with a backslash. *)
Lemma spaced_in_slashed ob k st rest :
  occurs (opens spaced_head) (k ++ opt_backslash st ++ [125%N]) = false →
  ∀ a1 a2 p, escaped_text (Escaped Backslash ob k st) = a1 ++ a2 → a2 ≠ [] →
    match_here spaced_re p (a2 ++ rest) = None.
Proof.
  intros Hq a1 a2 p Heq Hne.
  apply (piece_miss spaced_re spaced_head
           ((TEXTBACKSLASH ++ 92%N :: CITE) ++ opt_backslash ob ++ [123%N])
           k st rest) with (a1 := a1); try done.
  - intros p' s w g Hm. by apply spaced_sound in Hm as [_ Hm].
  - apply opens_cut_spaced.
  - destruct ob; cbn [opt_backslash app tails]; by repeat constructor.
  - rewrite <-Heq. unfold escaped_text, sep_text.
    cbn [sep brace_escaped key stray]. by rewrite <-!app_assoc.
Qed.

(** The second pattern inside a macro that the first one has rewritten. *)
Lemma slashed_in_cite k st rest :
  occurs (opens slashed_head) (k ++ opt_backslash st ++ [125%N]) = false →
  ∀ a1 a2 p, CITE_OPEN ++ k ++ opt_backslash st ++ [125%N] = a1 ++ a2 →
    a2 ≠ [] →
    match_here slashed_re p (a2 ++ rest) = None.
Proof.
  intros Hq a1 a2 p Heq Hne.
  apply (piece_miss slashed_re slashed_head CITE_OPEN k st rest)
    with (a1 := a1); try done.
  - intros p' s w g Hm. by apply slashed_sound in Hm as [_ Hm].
  - apply opens_cut_slashed.
  - by repeat constructor.
Qed.

(** The clean-up pattern inside a macro without stray backslash. *)
Lemma residual_in_cite k rest :
  k ≠ [] → 125%N ∉ k → last k ≠ Some 92%N →
  ∀ a1 a2 p, CITE_OPEN ++ k ++ [125%N] = a1 ++ a2 → a2 ≠ [] →
    match_here residual_re p (a2 ++ rest) = None.
Proof.
  intros Hk Hb Hl a1 a2 p Heq Hne.
  destruct (match_here residual_re p (a2 ++ rest)) as [[w g]|] eqn:Hm; [|done].
  exfalso. apply match_here_sound in Hm as [[t Ht] Hm].
  apply residual_read in Hm as (k' & -> & _ & Hb').
  rewrite app_assoc in Heq.
  apply suffix_snoc in Heq as (y & -> & Hy); [|done].
  assert (125%N ∉ CITE_OPEN) as Hopen by by_decide.
  assert (125%N ∉ CITE_OPEN ++ k) as Hck.
  { rewrite elem_of_app. by intros [?|?]. }
  assert (125%N ∉ y) as Hy125.
  { intros ?. apply Hck. rewrite Hy. apply elem_of_app. by right. }
  assert (y ++ 125%N :: rest = (CITE_OPEN ++ k' ++ [92%N]) ++ 125%N :: t)
    as Heq.
  { rewrite <-(app_assoc y) in Ht. cbn [app] in Ht. rewrite Ht.
    by rewrite <-!(app_assoc CITE_OPEN), <-!(app_assoc k'). }
  apply first_occurrence in Heq as [-> _]; [|done|]; cycle 1.
  { rewrite !elem_of_app, list_elem_of_singleton. by intros [?|[?|?]]. }
  apply Hl.
  assert (last (CITE_OPEN ++ k) = last k) as <-.
  { rewrite last_app. by destruct (last k) eqn:Hlk; [|apply last_None in Hlk]. }
  rewrite Hy, !last_app. cbn [last]. done.
Qed.

(** *** The three substitutions at a macro *)

Lemma spaced_item e rest p i :
  fixable e = true →
  ∃ p' i',
    sub_go spaced_re cite_template None p (escaped_text e ++ rest) i 0
    = after_spaced e ++ sub_go spaced_re cite_template None p' rest i' 0.
Proof.
  intros (Hsep & Hk & Hb & Hl)%fixable_inv.
  destruct e as [[w|] ob k st]; unfold after_spaced;
    cbn [sep key stray] in *.
  - destruct Hsep as (Hw & Hsp & _). eexists _, _.
    rewrite sub_go_hit with (g := Some (k ++ opt_backslash st));
      [|done|by unfold escaped_text|by apply spaced_hit].
    by rewrite (cite_template_stray _ (Escaped (Spaces w) ob k st)).
  - eexists _, _. apply sub_go_pass; [done|].
    intros a1 a2 Heq Hne. by apply (spaced_in_slashed ob k st rest Hsep a1).
Qed.

Lemma slashed_item e rest p i :
  fixable e = true →
  ∃ p' i',
    sub_go slashed_re cite_template None p (after_spaced e ++ rest) i 0
    = cite_stray e ++ sub_go slashed_re cite_template None p' rest i' 0.
Proof.
  intros (Hsep & Hk & Hb & Hl)%fixable_inv.
  destruct e as [[w|] ob k st]; unfold after_spaced;
    cbn [sep key stray] in *.
  - destruct Hsep as (_ & _ & Hq). eexists _, _. apply sub_go_pass; [done|].
    intros a1 a2 Heq Hne. by apply (slashed_in_cite k st rest Hq a1).
  - eexists _, _.
    rewrite sub_go_hit with (g := Some (k ++ opt_backslash st));
      [|done|by unfold escaped_text|by apply slashed_hit].
    by rewrite (cite_template_stray _ (Escaped Backslash ob k st)).
Qed.

Lemma residual_hit p k rest :
  125%N ∉ k →
  match_here residual_re p ((CITE_OPEN ++ k ++ [92%N] ++ [125%N]) ++ rest)
  = Some (CITE_OPEN ++ k ++ [92%N] ++ [125%N], Some k).
Proof.
  intros Hb. apply match_here_leads. unfold residual_re.
  rewrite <-!app_assoc, run_seq, (run_lit CITE_OPEN), bind_singleton.
  rewrite (app_assoc k). cbn [app].
  rewrite residual_tail_snoc by done. apply leads_single.
Qed.

Lemma residual_item e rest p i :
  fixable e = true →
  ∃ p' i',
    sub_go residual_re cite_template None p (cite_stray e ++ rest) i 0
    = cite_text (key e) ++ sub_go residual_re cite_template None p' rest i' 0.
Proof.
  intros (Hsep & Hk & Hb & Hl)%fixable_inv.
  unfold cite_stray. destruct (stray e) eqn:Hst; cbn [opt_backslash] in *.
  - eexists _, _.
    rewrite sub_go_hit with (g := Some (key e));
      [|done|done|by apply residual_hit].
    unfold cite_template, group1. cbn [m_group1 default from_option id].
    done.
  - eexists _, _. cbn [app]. rewrite app_nil_r in Hk.
    apply sub_go_pass; [done|].
    intros a1 a2 Heq Hne.
    by apply (residual_in_cite (key e) rest Hk Hb (Hl eq_refl) a1).
Qed.

(** *** The first two substitutions over a document *)

(** A text in which a pattern has no match is copied. *)
Lemma free_copied (P : regex) (f : str → bool) seg p i :
  (∀ p s w g, match_here P p s = Some (w, g) → f s = true) →
  occurs f seg = false →
  sub_go P cite_template None p seg i 0 = seg.
Proof.
  intros Hsound Hocc.
  assert (match_here P (plast p seg) [] = None) as Hend.
  { destruct (match_here P (plast p seg) []) as [[w g]|] eqn:Hm; [|done].
    apply Hsound in Hm.
    rewrite <-(app_nil_r seg) in Hocc.
    by rewrite (occurs_app f seg [] (occurs_here f [] Hm)) in Hocc. }
  rewrite <-(app_nil_r seg) at 1. rewrite sub_go_pass; [|done|].
  - by rewrite sub_go_end, app_nil_r.
  - intros a1 a2 -> Hne. rewrite app_nil_r.
    destruct (match_here P (plast p a1) a2) as [[w g]|] eqn:Hm; [|done].
    apply Hsound in Hm.
    by rewrite (occurs_app f a1 a2 (occurs_here f a2 Hm)) in Hocc.
Qed.

Lemma escape_free_inv seg :
  escape_free seg = true →
  occurs spaced_at seg = false ∧ occurs slashed_at seg = false ∧
  occurs stray_at seg = false.
Proof.
  unfold escape_free. rewrite !andb_true_iff, !negb_true_iff.
  by intros [[? ?] ?].
Qed.

Lemma document_cons (h : escaped → str) seg0 e seg
    (items : list (escaped * str)) :
  document h seg0 ((e, seg) :: items) = seg0 ++ h e ++ document h seg items.
Proof.
  unfold document. cbn [fmap list_fmap concat fst snd].
  by rewrite <-!app_assoc.
Qed.

Lemma document_nil (h : escaped → str) seg0 : document h seg0 [] = seg0.
Proof. unfold document. cbn [fmap list_fmap concat]. apply app_nil_r. Qed.

(** A substitution that copies the text between the macros and turns
    each macro written by [f] into the one written by [g] turns a
    document into a document. *)
Lemma pass_fixable (P : regex) (f g : escaped → str) :
  (∀ seg e rest p i,
     quiet seg = true → apart seg e = true →
     sub_go P cite_template None p (seg ++ f e ++ rest) i 0
     = seg ++ sub_go P cite_template None (plast p seg) (f e ++ rest)
                (i + length seg) 0) →
  (∀ e rest p i, fixable e = true →
     ∃ p' i', sub_go P cite_template None p (f e ++ rest) i 0
              = g e ++ sub_go P cite_template None p' rest i' 0) →
  (∀ seg p i, escape_free seg = true →
     sub_go P cite_template None p seg i 0 = seg) →
  ∀ items seg0 p i,
    fixable_document seg0 items = true →
    sub_go P cite_template None p (document f seg0 items) i 0
    = document g seg0 items.
Proof.
  intros Hseg Hpiece Hlast.
  induction items as [|[e seg] items IH]; intros seg0 p i Hdoc;
    cbn [fixable_document] in Hdoc.
  - rewrite !document_nil. by apply Hlast.
  - rewrite !andb_true_iff in Hdoc.
    destruct Hdoc as ((((Hq & Hs) & He) & Ha) & Hdoc).
    rewrite !document_cons. rewrite Hseg by done. f_equal.
    destruct (Hpiece e (document f seg items) (plast p seg0)
                (i + length seg0) He) as (p' & i' & ->).
    f_equal. by apply IH.
Qed.

Lemma spaced_fixable seg0 (items : list (escaped * str)) :
  fixable_document seg0 items = true →
  sub spaced_re cite_template None (document escaped_text seg0 items)
  = document after_spaced seg0 items.
Proof.
  intros Hdoc. unfold sub.
  apply (pass_fixable spaced_re escaped_text after_spaced); [| | |done].
  - intros seg e rest p i Hq _. apply sub_go_pass; [done|].
    intros a1 a2 Hseg Hne.
    by apply (spaced_seg_miss seg (escaped_text e ++ rest) Hq) with (a1 := a1).
  - intros. by apply spaced_item.
  - intros seg p i (H1 & _ & _)%escape_free_inv.
    apply (free_copied spaced_re spaced_at); [|done].
    intros p' s w g Hm. by apply spaced_sound in Hm as [Hm _].
Qed.

Lemma slashed_fixable seg0 (items : list (escaped * str)) :
  fixable_document seg0 items = true →
  sub slashed_re cite_template None (document after_spaced seg0 items)
  = document cite_stray seg0 items.
Proof.
  intros Hdoc. unfold sub.
  apply (pass_fixable slashed_re after_spaced cite_stray); [| | |done].
  - intros seg e rest p i Hq Ha. apply sub_go_pass; [done|].
    intros a1 a2 Hseg Hne.
    apply (slashed_seg_miss seg (after_spaced e ++ rest) Hq) with (a1 := a1);
      [| |done..].
    + by destruct e as [[w|] ob k st].
    + intros Hsuf.
      destruct e as [[w|] ob k st]; unfold apart, after_spaced in *;
        cbn [sep] in *.
      * apply negb_true_iff, bool_decide_eq_false in Ha. done.
      * by intros [b [=]].
  - intros. by apply slashed_item.
  - intros seg p i (_ & H2 & _)%escape_free_inv.
    apply (free_copied slashed_re slashed_at); [|done].
    intros p' s w g Hm. by apply slashed_sound in Hm as [Hm _].
Qed.

(** *** The clean-up over a document *)

(** The first place of a text where something happens, if any. *)
Lemma leftmost (Q : str → str → Prop) : ∀ seg,
  (∀ a1 a2, Q a1 a2 ∨ ¬ Q a1 a2) →
  (∀ a1 a2, seg = a1 ++ a2 → a2 ≠ [] → Q a1 a2) ∨
  (∃ a1 a2, seg = a1 ++ a2 ∧ a2 ≠ [] ∧ ¬ Q a1 a2 ∧
     ∀ b1 b2, a1 = b1 ++ b2 → b2 ≠ [] → Q b1 (b2 ++ a2)).
Proof.
  intros seg. revert Q. induction seg as [|c seg IH]; intros Q Hdec.
  - left. intros a1 a2 Heq Hne. symmetry in Heq.
    by apply app_eq_nil in Heq as [_ ->].
  - destruct (Hdec [] (c :: seg)) as [Hq|Hq]; cycle 1.
    { right. exists [], (c :: seg). repeat split; [done..|].
      intros b1 b2 Heq Hne. symmetry in Heq.
      by apply app_eq_nil in Heq as [_ ->]. }
    destruct (IH (λ a1 a2, Q (c :: a1) a2)) as [Hall|(a1 & a2 & -> & Hne & Hn & Hb)].
    { intros a1 a2. apply Hdec. }
    + left. intros [|d a1] a2 Heq Hne.
      * cbn in Heq. by subst a2.
      * injection Heq as <- ->. by apply Hall.
    + right. exists (c :: a1), a2. repeat split; [done..|].
      intros [|d b1] b2 Heq Hne'.
      * cbn in Heq. by subst b2.
      * injection Heq as <- ->. by apply Hb.
Qed.

Lemma stray_at_intro x z :
  125%N ∉ x → stray_at (CITE_OPEN ++ x ++ [92%N] ++ 125%N :: z) = true.
Proof.
  intros Hb. unfold stray_at. rewrite strip_prefix_app.
  assert (125%N ∉ x ++ [92%N]) as Hb'.
  { rewrite elem_of_app, list_elem_of_singleton. by intros [?|?]. }
  apply differs_all in Hb'. rewrite app_assoc.
  rewrite take_while_app_stop, drop_while_app_stop by done.
  by rewrite last_snoc.
Qed.

(** A match of the clean-up pattern that begins in text without cite
    macro closed after a backslash, a macro following, ends with that
    macro, whose stray backslash it takes. *)
Lemma residual_straddle seg a1 a2 k (st : bool) rest p :
  occurs stray_at seg = false → seg = a1 ++ a2 →
  125%N ∉ k → (st = false → last k ≠ Some 92%N) →
  k ++ opt_backslash st ≠ [] →
  match_here residual_re p
    (a2 ++ (CITE_OPEN ++ k ++ opt_backslash st ++ [125%N]) ++ rest) ≠ None →
  st = true ∧ ∃ x, a2 ++ CITE_OPEN ++ k = CITE_OPEN ++ x ∧ 125%N ∉ x.
Proof.
  intros Hocc -> Hb Hl Hk Hm.
  destruct (match_here residual_re p _) as [[w g]|] eqn:Heq; [clear Hm|done].
  apply match_here_sound in Heq as [[t Ht] Hm].
  apply residual_read in Hm as (x & -> & _ & Hx).
  assert (125%N ∉ CITE_OPEN) as Hopen by by_decide.
  assert (125%N ∉ CITE_OPEN ++ x ++ [92%N]) as Hx'.
  { rewrite !elem_of_app, list_elem_of_singleton. by intros [?|[?|?]]. }
  assert ((CITE_OPEN ++ x ++ [92; 125]%N) ++ t
          = (CITE_OPEN ++ x ++ [92%N]) ++ 125%N :: t) as Hr.
  { by rewrite <-!(app_assoc CITE_OPEN), <-!(app_assoc x). }
  rewrite Hr in Ht. clear Hr.
  destruct (decide (125%N ∈ a2)) as [Hin|Hnin].
  { exfalso. apply list_elem_of_split_l in Hin as (y & z & -> & Hy).
    rewrite <-app_assoc in Ht. cbn [app] in Ht.
    apply first_occurrence in Ht as [-> _]; [|done..].
    assert (stray_at ((CITE_OPEN ++ x ++ [92%N]) ++ 125%N :: z) = true) as Hs.
    { rewrite <-!(app_assoc CITE_OPEN), <-!(app_assoc x).
      by apply stray_at_intro. }
    by rewrite (occurs_app _ a1 _ (occurs_here _ _ Hs)) in Hocc. }
  assert (a2 ++ (CITE_OPEN ++ k ++ opt_backslash st ++ [125%N]) ++ rest
          = (a2 ++ CITE_OPEN ++ k ++ opt_backslash st) ++ 125%N :: rest) as Hr.
  { rewrite <-!(app_assoc a2), <-!(app_assoc CITE_OPEN), <-!(app_assoc k),
      <-!(app_assoc (opt_backslash st)). done. }
  rewrite Hr in Ht. clear Hr.
  apply first_occurrence in Ht as [Hy _]; [| |done]; cycle 1.
  { rewrite !elem_of_app. intros [?|[?|[?|?]]]; [done..|].
    by eapply opt_backslash_no_brace. }
  destruct st; cbn [opt_backslash] in *.
  - split; [done|]. exists x. split; [|done].
    rewrite !app_assoc in Hy. apply app_inj_tail in Hy as [Hy _].
    by rewrite <-!app_assoc in Hy.
  - exfalso. rewrite !app_nil_r in *. apply Hl; [done|].
    assert (last (a2 ++ CITE_OPEN ++ k) = last k) as <-.
    { rewrite !last_app.
      by destruct (last k) eqn:Hlk; [|apply last_None in Hlk]. }
    rewrite Hy, !last_app. done.
Qed.

Lemma regroup a2 k x (tl : str) :
  a2 ++ CITE_OPEN ++ k = CITE_OPEN ++ x →
  a2 ++ CITE_OPEN ++ k ++ tl = CITE_OPEN ++ x ++ tl.
Proof.
  intros H. rewrite (app_assoc CITE_OPEN x), <-H.
  by repeat rewrite <-app_assoc.
Qed.

(** The clean-up at a stretch of text and the macro that follows it. *)
Lemma residual_seg_item seg e rest p i :
  occurs stray_at seg = false → fixable e = true →
  ∃ p' i',
    sub_go residual_re cite_template None p (seg ++ cite_stray e ++ rest) i 0
    = seg ++ cite_text (key e) ++
      sub_go residual_re cite_template None p' rest i' 0.
Proof.
  intros Hocc He. pose proof He as (Hsep & Hk & Hb & Hl)%fixable_inv.
  destruct (leftmost
              (λ a1 a2, match_here residual_re (plast p a1)
                          (a2 ++ cite_stray e ++ rest) = None) seg)
    as [Hall|(a1 & a2 & -> & Hne & Hn & Hbefore)].
  { intros a1 a2. destruct (match_here _ _ _); [by right|by left]. }
  - rewrite sub_go_pass by done.
    destruct (residual_item e rest (plast p seg) (i + length seg) He)
      as (p' & i' & ->).
    by exists p', i'.
  - unfold cite_stray in Hn.
    destruct (residual_straddle (a1 ++ a2) a1 a2 (key e) (stray e) rest
                (plast p a1) Hocc eq_refl Hb Hl Hk Hn)
      as [Hst (x & Hx & Hbx)].
    unfold cite_stray, cite_text. rewrite Hst. cbn [opt_backslash].
    assert (∀ b, (b ++ a2) ++ (CITE_OPEN ++ key e ++ [92%N] ++ [125%N]) ++ rest
                 = b ++ (CITE_OPEN ++ x ++ [92%N] ++ [125%N]) ++ rest) as Hre.
    { intros b. repeat rewrite <-app_assoc. f_equal. by apply regroup. }
    rewrite Hre.
    rewrite sub_go_pass; [|done|]; cycle 1.
    { intros b1 b2 Hb12 Hne'. specialize (Hbefore b1 b2 Hb12 Hne').
      unfold cite_stray in Hbefore. rewrite Hst in Hbefore.
      cbn [opt_backslash] in Hbefore. by rewrite Hre in Hbefore. }
    eexists _, _.
    rewrite sub_go_hit with (g := Some x);
      [|done|done|by apply residual_hit].
    unfold cite_template, group1. cbn [m_group1 default from_option id].
    change (u "\cite{") with CITE_OPEN. change (u "}") with [125%N].
    repeat rewrite <-app_assoc. f_equal.
    by rewrite (regroup a2 (key e) x _ Hx).
Qed.

Lemma residual_fixable (items : list (escaped * str)) : ∀ seg0 p i,
  fixable_document seg0 items = true →
  sub_go residual_re cite_template None p (document cite_stray seg0 items) i 0
  = document (λ e, cite_text (key e)) seg0 items.
Proof.
  induction items as [|[e seg] items IH]; intros seg0 p i Hdoc;
    cbn [fixable_document] in Hdoc.
  - apply escape_free_inv in Hdoc as (_ & _ & H3).
    rewrite !document_nil.
    by apply (free_copied residual_re stray_at seg0 p i residual_sound).
  - rewrite !andb_true_iff in Hdoc.
    destruct Hdoc as ((((Hq & Hs%negb_true_iff) & He) & Ha) & Hdoc).
    rewrite !document_cons.
    destruct (residual_seg_item seg0 e (document cite_stray seg items) p i
                Hs He) as (p' & i' & ->).
    do 2 f_equal. by apply IH.
Qed.

(** C6, as the code has it.  In a document made of stretches of text
    and of escaped macros, every escaped macro becomes the canonical
    macro around its key, at its place, and every stretch of text stays
    as it was.  A macro is the escape token, then white space or a
    backslash, [cite], a brace that may be escaped, the key, at most one
    stray backslash, and the closing brace.  Its key holds no closing
    brace and does not end with a backslash; it is empty only before a
    stray backslash; it may hold backslashes, but no opening of an
    escaped macro of the other form.  The text may hold escape tokens.
    A stretch of text before a macro holds no opening of an escaped
    macro at which a key can begin and no cite macro closed after a
    backslash, and does not end with the escape token when the macro is
    written with white space; the text after the last macro holds no
    escaped macro and no cite macro closed after a backslash. *)
Theorem escaped_macros_fixed (seg0 : str) (items : list (escaped * str)) :
  fixable_document seg0 items = true →
  fix_text (document escaped_text seg0 items)
  = document (λ e, cite_text (key e)) seg0 items.
Proof.
  intros Hdoc. unfold fix_text, patterns. cbn [foldl].
  rewrite spaced_fixable, slashed_fixable by done.
  by apply residual_fixable.
Qed.

Lemma escaped_macros_fixed_witness :
  fix_text (u "A \textbackslash{} here, see " ++
            u "\textbackslash cite\{smith\_2020\} and " ++
            u "\textbackslash\cite{lamport\}, also \cite{ok} and " ++
            u "\textbackslash  cite{dijkstra}.")
  = u "A \textbackslash{} here, see \cite{smith\_2020} and " ++
    u "\cite{lamport}, also \cite{ok} and \cite{dijkstra}.".
Proof.
  refine (escaped_macros_fixed (u "A \textbackslash{} here, see ")
    [(Escaped (Spaces (u " ")) true (u "smith\_2020") true, u " and ");
     (Escaped Backslash false (u "lamport") true, u ", also \cite{ok} and ");
     (Escaped (Spaces (u "  ")) false (u "dijkstra") false, u ".")] _).
  vm_compute. reflexivity.
Defined.

(** The claim of C6 as it is written fails: next to a fixable escaped
    macro, the clean-up pass also rewrites a cite macro that was never
    escaped, so something else on the line is altered.  And an escape
    token right before a macro written with white space goes away with
    the escape token of the macro. *)
Lemma escaped_macro_line_altered :
  let e := Escaped (Spaces (u " ")) false (u "a") false in
  let post := u " and \cite{b\}" in
  fixable e = true ∧
  escaped_text e ++ post = u "\textbackslash cite{a} and \cite{b\}" ∧
  fix_text (escaped_text e ++ post) = u "\cite{a} and \cite{b}" ∧
  fix_text (escaped_text e ++ post) ≠ cite_text (key e) ++ post ∧
  fix_text (TEXTBACKSLASH ++ escaped_text e) = u "\cite{a}" ∧
  fix_text (TEXTBACKSLASH ++ escaped_text e)
  ≠ TEXTBACKSLASH ++ cite_text (key e).
Proof.
  cbv zeta. repeat split; by vm_compute.
Qed.

(** Each condition on the macros and on the text between them is
    needed: without it the output is not the document with its macros
    made canonical.  In turn: a key that ends with a backslash and no
    stray one; an empty key and no stray backslash; no white space; an
    opening in the text before a macro, which takes the macro for its
    key; a macro of the other form inside a key. *)
Lemma fixable_conditions_needed :
  let bad (seg0 : str) (items : list (escaped * str)) :=
    fixable_document seg0 items = false ∧
    fix_text (document escaped_text seg0 items)
    ≠ document (λ e, cite_text (key e)) seg0 items in
  bad [] [(Escaped (Spaces (u " ")) false (u "a\") false, [])] ∧
  bad [] [(Escaped (Spaces (u " ")) false [] false, [])] ∧
  bad [] [(Escaped (Spaces []) false (u "a") false, [])] ∧
  bad (u "\textbackslash cite{x")
      [(Escaped (Spaces (u " ")) false (u "a") false, [])] ∧
  bad [] [(Escaped (Spaces (u " ")) false (u "a\textbackslash\cite{b")
             false, [])] ∧
  bad [] [(Escaped Backslash false (u "a\textbackslash cite{b") false, [])].
Proof.
  cbv zeta. repeat split; by vm_compute.
Qed.

End Macros.

(** ** Running fix_cites.py again *)

Section SecondFix.
Import FixCites.
Implicit Types (s a b seg k : str).

Lemma mentions_skip L a b :
  92%N ∉ a → mentions (92%N :: L) (a ++ b) = mentions (92%N :: L) b.
Proof.
  induction a as [|c a IH]; [done|]. intros [Hc Ha]%not_elem_of_cons.
  cbn [app mentions]. rewrite IH by done.
  rewrite bool_decide_eq_false_2; [done|].
  intros [x Hx]. cbn in Hx. congruence.
Qed.

Lemma residual_safe_skip a b :
  92%N ∉ a → residual_safe (a ++ b) = residual_safe b.
Proof.
  induction a as [|c a IH]; [done|]. intros [Hc Ha]%not_elem_of_cons.
  cbn [app residual_safe]. rewrite IH by done.
  rewrite bool_decide_eq_false_2; [done|].
  intros [x Hx]. cbn in Hx. congruence.
Qed.

Lemma mentions_app_head L a b :
  92%N ∉ L → mentions (92%N :: L) a = false →
  mentions (92%N :: L) b = false → (b = [] ∨ head b = Some 92%N) →
  mentions (92%N :: L) (a ++ b) = false.
Proof.
  intros HL Ha Hb Hhead. induction a as [|c a IH]; [done|].
  cbn [mentions] in Ha. apply orb_false_iff in Ha as [Hc Ha].
  cbn [app mentions]. rewrite IH by done. rewrite orb_false_r.
  apply bool_decide_eq_false. intros Hpre.
  apply (prefix_inside L (c :: a) b) in Hpre; [|done..].
  by apply bool_decide_eq_false in Hc.
Qed.

Lemma while_app_found (f : N → bool) s b :
  drop_while f s ≠ [] →
  take_while f (s ++ b) = take_while f s ∧
  drop_while f (s ++ b) = drop_while f s ++ b.
Proof.
  induction s as [|c s IH]; [done|]. cbn [app take_while drop_while].
  destruct (f c); [|done]. intros Hne. destruct (IH Hne) as [-> ->]. done.
Qed.

Lemma residual_safe_app a b :
  residual_safe a = true → residual_safe b = true →
  (b = [] ∨ head b = Some 92%N) →
  residual_safe (a ++ b) = true.
Proof.
  intros Ha Hb Hhead. induction a as [|c a IH]; [done|].
  cbn [residual_safe] in Ha. apply andb_true_iff in Ha as [Hc Ha].
  cbn [app residual_safe]. rewrite IH by done. rewrite andb_true_r.
  destruct (decide (CITE_OPEN `prefix_of` (c :: a))) as [Hpre|Hpre].
  - rewrite bool_decide_eq_true_2 in Hc by done.
    rewrite bool_decide_eq_true_2 by (by apply (prefix_app_r _ (c :: a) b)).
    destruct Hpre as [x Hx].
    change (c :: a ++ b) with ((c :: a) ++ b). rewrite Hx in Hc |- *.
    rewrite <-app_assoc.
    change 6 with (length CITE_OPEN) in *. rewrite drop_app_length in *.
    destruct (drop_while (differs 125) x) as [|y d] eqn:Hd; [done|].
    destruct (while_app_found (differs 125) x b) as [-> ->];
      [by rewrite Hd|].
    by rewrite Hd.
  - rewrite bool_decide_eq_false_2; [done|]. intros Hpre'.
    apply Hpre. change (c :: a ++ b) with ((c :: a) ++ b) in Hpre'.
    by apply (prefix_inside (tail CITE_OPEN)) in Hpre'; [|by_decide|done..].
Qed.

Lemma calm_app a b :
  calm a → calm b → (b = [] ∨ head b = Some 92%N) → calm (a ++ b).
Proof.
  intros [Ha1 Ha2] [Hb1 Hb2] Hhead. split.
  - apply (mentions_app_head (tail TEXTBACKSLASH)); [by_decide|done..].
  - by apply residual_safe_app.
Qed.

(** A canonical macro with a clean key, followed by calm text, is calm. *)
Lemma calm_cite k seg :
  k ≠ [] → 125%N ∉ k → 92%N ∉ k → calm seg → calm (cite_text k ++ seg).
Proof.
  intros Hk Hbrace Hslash [Hs1 Hs2].
  assert (92%N ∉ CITE ++ [123%N] ++ k ++ [125%N]) as Hin.
  { rewrite !not_elem_of_app. repeat split; [by_decide|by_decide|done|by_decide]. }
  assert (cite_text k ++ seg
          = 92%N :: (CITE ++ [123%N] ++ k ++ [125%N]) ++ seg) as ->.
  { unfold cite_text. by rewrite <-!app_assoc. }
  split.
  - change TEXTBACKSLASH with (92%N :: u "textbackslash") in *.
    cbn [mentions]. rewrite mentions_skip, Hs1 by done.
    rewrite orb_false_r. apply bool_decide_eq_false.
    intros [x Hx].
    change (u "textbackslash") with (116%N :: u "extbackslash") in Hx.
    change CITE with (99%N :: u "ite") in Hx. cbn [app] in Hx.
    by injection Hx.
  - cbn [residual_safe]. rewrite residual_safe_skip, Hs2 by done.
    rewrite andb_true_r.
    rewrite bool_decide_eq_true_2; cycle 1.
    { exists (k ++ [125%N] ++ seg). by rewrite <-!app_assoc. }
    assert (drop 6 (92%N :: (CITE ++ [123%N] ++ k ++ [125%N]) ++ seg)
            = k ++ 125%N :: seg) as ->.
    { rewrite <-!app_assoc. done. }
    assert (Forall (λ x, differs 125 x = true) k) as Hall.
    { apply Forall_forall. intros x Hx. unfold differs.
      apply negb_true_iff, N.eqb_neq. by intros ->. }
    assert (stops (differs 125) (125%N :: seg)) as Hst by done.
    rewrite take_while_app_stop, drop_while_app_stop by done.
    destruct (last k) as [c|] eqn:Hl; [|done].
    apply negb_true_iff, N.eqb_neq. intros ->.
    apply last_Some in Hl as [k' ->]. apply Hslash.
    apply elem_of_app. right. apply list_elem_of_here.
Qed.

Lemma calm_items (items : list (escaped * str)) :
  Forall (λ x, well_formed x.1 ∧ calm x.2) items →
  let rest := concat ((λ x, cite_text (key x.1) ++ x.2) <$> items) in
  calm rest ∧ (rest = [] ∨ head rest = Some 92%N).
Proof.
  cbv zeta. induction 1 as [|[e seg] items [He Hseg] _ [IH1 IH2]].
  - split; [done|by left].
  - cbn [fmap list_fmap concat fst snd]. split; [|by right].
    destruct He as (_ & Hk & Hbrace & Hslash).
    apply calm_app; [by apply calm_cite|done..].
Qed.

Lemma fix_text_calm s : calm s → fix_text s = s.
Proof.
  intros Hs. unfold fix_text, patterns. cbn [foldl].
  pose proof (spaced_document s [] Hs (Forall_nil_2 _)) as H1.
  pose proof (slashed_document s [] Hs (Forall_nil_2 _)) as H2.
  pose proof (residual_document s [] Hs (Forall_nil_2 _)) as H3.
  unfold document in *. cbn [fmap list_fmap concat] in *.
  rewrite app_nil_r in *. by rewrite H1, H2, H3.
Qed.

(** X14: on a document of well-formed escaped macros in calm text, one
    run of fix_cites.py does all the work: a second run gives back what
    the first one wrote. *)
Theorem second_fix_changes_nothing (seg0 : str)
    (items : list (escaped * str)) :
  calm seg0 → Forall (λ x, well_formed x.1 ∧ calm x.2) items →
  fix_text (fix_text (document escaped_text seg0 items))
  = fix_text (document escaped_text seg0 items).
Proof.
  intros Hcalm Hitems.
  assert (fix_text (document escaped_text seg0 items)
          = document (λ e, cite_text (key e)) seg0 items) as ->.
  { unfold fix_text, patterns. cbn [foldl].
    rewrite spaced_document, slashed_document by done.
    by apply residual_document. }
  apply fix_text_calm. unfold document.
  destruct (calm_items items Hitems) as [Hrest Hhead].
  by apply calm_app.
Qed.

Lemma second_fix_changes_nothing_witness :
  fix_text (fix_text (u "See \textbackslash cite{knuth} and " ++
                      u "\textbackslash\cite\{lamport\}."))
  = fix_text (u "See \textbackslash cite{knuth} and " ++
              u "\textbackslash\cite\{lamport\}.").
Proof.
  refine (second_fix_changes_nothing (u "See ")
    [(Escaped (Spaces (u " ")) false (u "knuth") false, u " and ");
     (Escaped Backslash true (u "lamport") true, u ".")] _ _).
  - split; vm_compute; reflexivity.
  - repeat apply Forall_cons_2; [..|apply Forall_nil_2];
      (split; [unfold well_formed; cbn [sep key fst]; by_decide
              |split; vm_compute; reflexivity]).
Defined.

End SecondFix.

(** ** The collected keys are stripped *)

Section StrippedKeys.
Implicit Types (s k c : str).

Lemma drop_while_stopped (f : N → bool) s : stops f s → drop_while f s = s.
Proof. destruct s as [|x s]; [done|]. cbn. by intros ->. Qed.

Lemma strip_idem s : strip (strip s) = strip s.
Proof.
  unfold strip.
  pose proof (drop_while_stops is_space s) as Ha.
  set (a := drop_while is_space s) in *.
  pose proof (take_drop_while is_space (reverse a)) as Hab.
  pose proof (drop_while_stops is_space (reverse a)) as Hb.
  set (b := drop_while is_space (reverse a)) in *.
  assert (stops is_space (reverse b)) as Hst.
  { assert (a = reverse b ++ reverse (take_while is_space (reverse a))) as Ha'.
    { by rewrite <-reverse_app, Hab, reverse_involutive. }
    rewrite Ha' in Ha. destruct (reverse b) as [|x rb]; [done|]. exact Ha. }
  rewrite (drop_while_stopped _ _ Hst), reverse_involutive.
  by rewrite (drop_while_stopped _ _ Hb).
Qed.

Lemma strip_space x : is_space x = true → strip [x] = [].
Proof. intros Hx. unfold strip. cbn. by rewrite Hx. Qed.

Lemma block_keys_stripped (refs : str) k :
  k ∈ block_keys refs → strip k = k.
Proof.
  unfold block_keys. intros (line & Hline & Hk)%list_elem_of_omap.
  unfold line_key in Hk.
  destruct (find_anchor line) as [[[pre key] post]|]; [|done].
  injection Hk as <-. apply strip_idem.
Qed.

(** X15: the keys that [parse_reference_keys] collects, and so the keys
    of its table, carry no white space at either end.  A marker that holds
    nothing but white space is read as one white space character, which
    is no such key: it never has a number. *)
Theorem collected_keys_stripped (refs : str) :
  let '(keys, key_to_num) := parse_reference_keys refs in
  (∀ k, k ∈ keys → strip k = k) ∧
  (∀ k n, key_to_num !! k = Some n → strip k = k) ∧
  (∀ c, c ≠ [] → forallb is_space c = true → key_to_num !! ident c = None).
Proof.
  pose proof (parsed_keys_numbered refs) as H.
  destruct (parse_reference_keys refs) as [keys key_to_num].
  destruct H as (_ & Hsame & Hnum & _). cbn [fst snd] in *.
  assert (∀ k, k ∈ keys → strip k = k) as Hkeys.
  { intros k Hk%Hsame. by eapply block_keys_stripped. }
  assert (∀ k n, key_to_num !! k = Some n → strip k = k) as Htable.
  { intros k n (i & Hi & _)%Hnum. apply Hkeys.
    by eapply list_elem_of_lookup_2. }
  repeat split; [done..|].
  intros c Hc Hsp. unfold ident. rewrite Hsp.
  destruct (last c) as [x|] eqn:Hl; [|by apply last_None in Hl].
  cbn [option_list].
  destruct (key_to_num !! [x]) as [n|] eqn:Hn; [|done].
  apply Htable in Hn. rewrite strip_space in Hn; [done|].
  apply forallb_is_space in Hsp.
  apply last_Some in Hl as [c' ->].
  apply Forall_app in Hsp as [_ Hx]. by apply Forall_cons in Hx as [Hx _].
Qed.

End StrippedKeys.

(** ** Worked examples *)

Section Examples.
Import FixCites.

(** Anchors defined in the order a, b, c, with b repeated: a is 1, b is 2,
    c is 3, and the repetition changes nothing. *)
Example keys_in_order :
  parse_reference_keys
    (u "== References" ++ [NL] ++ u "* [[a]] A" ++ [NL] ++ u "* [[b]] B" ++
     [NL] ++ u "* [[c]] C" ++ [NL] ++ u "* [[b]] B again" ++ [NL])
  = ([u "a"; u "b"; u "c"], {[ u "a" := 1; u "b" := 2; u "c" := 3 ]}).
Proof. by vm_compute. Qed.

(** A whole document: known runs are numbered, a run with an unknown
    identifier is kept, the anchors become numbers. *)
Example whole_document :
  transform
    (u "See <<a>> and <<b>>, <<c>>; not <<a>>, <<zzz>>." ++ [NL; NL] ++
     u "== References" ++ [NL; NL] ++
     u "* [[a]] A" ++ [NL] ++ u "* [[b]] B" ++ [NL] ++ u "* [[c]] C")
  = u "See [1] and [2, 3]; not <<a>>, <<zzz>>." ++ [NL; NL] ++
    u "== References" ++ [NL; NL] ++
    u "* [1] A" ++ [NL] ++ u "* [2] B" ++ [NL] ++ u "* [3] C".
Proof. by vm_compute. Qed.

(** The heading may be followed by white space; the references block ends
    at the next top-level heading. *)
Example sections_of_a_document :
  split_sections
    (u "Body." ++ [NL] ++ u "== References  " ++ [NL] ++ u "* [[a]] A" ++
     [NL] ++ u "=== Sub" ++ [NL] ++ u "== Next" ++ [NL] ++ u "Tail." ++ [NL])
  = (u "Body." ++ [NL],
     u "== References  " ++ [NL] ++ u "* [[a]] A" ++ [NL] ++ u "=== Sub" ++ [NL],
     u "== Next" ++ [NL] ++ u "Tail." ++ [NL]).
Proof. by vm_compute. Qed.

(** The two escaped forms, with and without the stray backslash. *)
Example escaped_forms :
  fix_text (u "\textbackslash cite{a}, \textbackslash\cite{b}, " ++
            u "\textbackslash cite{c\}, \textbackslash\cite\{d\}")
  = u "\cite{a}, \cite{b}, \cite{c}, \cite{d}".
Proof. by vm_compute. Qed.

End Examples.
